(** * Logic-gate simulator: the simulation effect of [src/App.tsx]

    A shallow embedding of the "Logic simulation" effect of the [App]
    component: the closure [runSimulation], which relaxes a flat list of
    gates for at most fifty passes, and the main loop around it, which
    re-expands the composite gates for at most ten rounds.  Around it
    stands the editor: the hook [useHistory] behind undo and redo, the
    handlers that put gates, wires and templates on the canvas and take
    them off again, and the memo that gives every wire the value it is
    drawn with.

    JavaScript arrays are lists, the [customGates] object is a finite map
    from names to templates (its own properties), a missing optional field
    is [None], and a thrown exception is the [Throw] case of a small error
    monad.  The file has three parts: the embedding, the vocabulary in
    which the properties are stated together with the example canvases,
    and the properties themselves. *)

From Stdlib Require Import ZArith Sorted.
From stdpp Require Import base option list strings pretty gmap.

Open Scope string_scope.
Open Scope nat_scope.

(** ** Data model *)

(** [type GateType = BaseGateType | 'CUSTOM'] *)
Inductive GateType := INPUT | OUTPUT | AND | OR | NOT | CUSTOM.

#[global] Instance GateType_eq_dec : EqDecision GateType.
Proof. solve_decision. Defined.

(** [interface Gate].  [position] is carried around and never inspected by
    the simulation; the three custom-gate fields are optional in the
    source, hence [option]. *)
Module Gate.
Record t := mk {
  id : string;
  type : GateType;
  position : Z * Z;
  value : bool;
  name : option string;
  customGateName : option string;
  inputValues : option (list bool);
  outputValues : option (list bool);
}.

(** [{...g, value: v}] *)
Definition with_value (g : t) (v : bool) : t :=
  mk (id g) (type g) (position g) v (name g) (customGateName g)
     (inputValues g) (outputValues g).

(** [{...g, inputValues: ivs, outputValues: ovs}] *)
Definition with_ports (g : t) (ivs ovs : list bool) : t :=
  mk (id g) (type g) (position g) (value g) (name g) (customGateName g)
     (Some ivs) (Some ovs).
End Gate.

#[global] Instance Gate_eq_dec : EqDecision Gate.t.
Proof. solve_decision. Defined.

(** The endpoints [{ gateId: string; portIndex: number }] of a wire. *)
Module Endpoint.
Record t := mk { gateId : string; portIndex : nat }.
End Endpoint.

(** [interface Wire] *)
Module Wire.
Record t := mk { id : string; from : Endpoint.t; to : Endpoint.t }.
End Wire.

#[global] Instance Endpoint_eq_dec : EqDecision Endpoint.t.
Proof. solve_decision. Defined.

#[global] Instance Wire_eq_dec : EqDecision Wire.t.
Proof. solve_decision. Defined.

(** [interface AppState] *)
Module AppState.
Record t := mk { gates : list Gate.t; wires : list Wire.t }.
End AppState.

(** An entry [{ originalId, name? }] of a template's port lists. *)
Module PortDef.
Record t := mk { originalId : string; name : option string }.
End PortDef.

#[global] Instance PortDef_eq_dec : EqDecision PortDef.t.
Proof. solve_decision. Defined.

(** [interface CustomGateTemplate].  The source types the inner gates as
    [Omit<Gate, 'value'>] and the inner wires as [Omit<Wire, 'id'>]; both
    omitted fields are overwritten when the template is instantiated, so
    the full records are reused here. *)
Module Template.
Record t := mk {
  name : string;
  gates : list Gate.t;
  wires : list Wire.t;
  inputs : list PortDef.t;
  outputs : list PortDef.t;
}.
End Template.

(** An entry of [GATE_DIMENSIONS]. *)
Module Dimensions.
Record t := mk { width : nat; height : nat; inputs : nat; outputs : nat }.
End Dimensions.

(** [GATE_DIMENSIONS] is a [Record<BaseGateType, ...>]: the object has no
    property ['CUSTOM'], so that lookup yields [undefined]. *)
Definition GATE_DIMENSIONS (ty : GateType) : option Dimensions.t :=
  match ty with
  | INPUT => Some (Dimensions.mk 100 50 0 1)
  | OUTPUT => Some (Dimensions.mk 100 50 1 0)
  | AND => Some (Dimensions.mk 80 100 2 1)
  | OR => Some (Dimensions.mk 80 100 2 1)
  | NOT => Some (Dimensions.mk 80 60 1 1)
  | CUSTOM => None
  end.

(** ** Exceptions *)

Inductive JsError := TypeError.

(** The outcome of running a piece of JavaScript: a value, or a thrown
    exception that aborts everything up to the caller. *)
Inductive completion (A : Type) :=
  | Return (a : A)
  | Throw (e : JsError).
Arguments Return {A} a.
Arguments Throw {A} e.

#[global] Instance completion_ret : MRet completion := @Return.
#[global] Instance completion_bind : MBind completion :=
  λ A B f m, match m with Return a => f a | Throw e => Throw e end.
#[global] Instance completion_fmap : FMap completion :=
  λ A B f m, match m with Return a => Return (f a) | Throw e => Throw e end.

(** ** The simulation *)

Definition MAX_ITERATIONS : nat := 50.
Definition MAX_MAIN_ITERATIONS : nat := 10.

(** The property key used by [customGates[g.customGateName!]]: an absent
    name is the key ["undefined"]. *)
Definition templateKey (g : Gate.t) : string :=
  default "undefined" (Gate.customGateName g).

(** ** The library as a JavaScript object *)

(** [customGates] is a plain object: [{}], [JSON.parse] of what was stored,
    or a spread of one of these with one more property.  Its own
    properties are the templates, the finite map of this file; a name that
    is not among them is looked up in [Object.prototype], whose properties
    are these. *)
Definition objectPrototype : list string :=
  ["constructor"; "__defineGetter__"; "__defineSetter__"; "hasOwnProperty";
   "__lookupGetter__"; "__lookupSetter__"; "isPrototypeOf";
   "propertyIsEnumerable"; "toString"; "valueOf"; "__proto__";
   "toLocaleString"].

(** [customGates[name]] finds an inherited property when the library has
    no template of that name.  What it finds is a function, or for
    ["__proto__"] the prototype itself: truthy, and without a property
    [inputs] or [outputs].  [runSimulation] and [getPortPosition] read
    [.inputs.length] or [.outputs.length] of it and throw, as they do for
    a name that is missing altogether, where they fall through to
    [GATE_DIMENSIONS['CUSTOM']]; only the sweep tells the two apart. *)
Definition inherited (name : string) : bool :=
  bool_decide (name ∈ objectPrototype).

(** The signal on output port [portIndex] of a gate:
    [fromGate.type === 'CUSTOM' ? (fromGate.outputValues?.[portIndex] ?? false)
                                : fromGate.value]. *)
Definition gateOutput (fromGate : Gate.t) (portIndex : nat) : bool :=
  match Gate.type fromGate with
  | CUSTOM => default false (Gate.outputValues fromGate ≫= (.!! portIndex))
  | _ => Gate.value fromGate
  end.

(** The signal a wire carries, read off a gate list: the output of the
    first gate with the wire's source id, and [false] when there is none. *)
Definition sourceValue (gateList : list Gate.t) (wire : Wire.t) : bool :=
  match list_find (λ fg, Gate.id fg = Endpoint.gateId (Wire.from wire)) gateList with
  | None => false
  | Some (_, fromGate) => gateOutput fromGate (Endpoint.portIndex (Wire.from wire))
  end.

Section Simulation.

(** The template library captured by the effect's closure. *)
Variable customGates : gmap string Template.t.

(** [g.type === 'CUSTOM' && gateDef ? gateDef.inputs.length
                                    : GATE_DIMENSIONS[g.type].inputs] *)
Definition numInputsOf (g : Gate.t) : completion nat :=
  let gateDef :=
    match Gate.type g with
    | CUSTOM => customGates !! templateKey g
    | _ => None
    end in
  match Gate.type g, gateDef with
  | CUSTOM, Some def => Return (length (Template.inputs def))
  | _, _ =>
      match GATE_DIMENSIONS (Gate.type g) with
      | Some d => Return (Dimensions.inputs d)
      | None => Throw TypeError
      end
  end.

(** The wires of [wireList] that end at gate [g]. *)
Definition inputWiresOf (wireList : list Wire.t) (g : Gate.t) : list Wire.t :=
  filter (λ w, Endpoint.gateId (Wire.to w) = Gate.id g) wireList.

(** [Array.from({length: numInputs}).map((_, i) => ...)] of [runSimulation]. *)
Definition resolveInputs (internalTempGates : list Gate.t)
    (inputWires : list Wire.t) (numInputs : nat) : list bool :=
  (λ i,
     match list_find (λ w, Endpoint.portIndex (Wire.to w) = i) inputWires with
     | None => false
     | Some (_, wire) => sourceValue internalTempGates wire
     end) <$> seq 0 numInputs.

(** The kind-specific formula of [runSimulation]. *)
Definition newValueOf (ty : GateType) (inputValues : list bool) : bool :=
  match ty with
  | AND => forallb (λ v, v) inputValues
  | OR => existsb (λ v, v) inputValues
  | NOT =>
      if bool_decide (0 < length inputValues)
      then negb (default false (inputValues !! 0))
      else true
  | OUTPUT => default false (inputValues !! 0) || false
  | _ => false
  end.

(** The callback of [internalTempGates.map] in [runSimulation]: the new
    gate, and whether it set [changed]. *)
Definition stepGate (internalTempGates : list Gate.t) (wireList : list Wire.t)
    (g : Gate.t) : completion (Gate.t * bool) :=
  if decide (Gate.type g = INPUT) then Return (g, false) else
  let inputWires := inputWiresOf wireList g in
  numInputs ← numInputsOf g;
  if bool_decide (Gate.type g ≠ OUTPUT) && bool_decide (length inputWires < numInputs)
  then
    if Gate.value g then Return (Gate.with_value g false, true)
    else Return (g, false)
  else
    let inputValues := resolveInputs internalTempGates inputWires numInputs in
    let newValue := newValueOf (Gate.type g) inputValues in
    if bool_decide (Gate.value g ≠ newValue)
    then Return (Gate.with_value g newValue, true)
    else Return (g, false).

(** One trip through the body of the [do ... while]: every gate is
    recomputed from the list as it stood when the pass began. *)
Definition simulationPass (wireList : list Wire.t)
    (internalTempGates : list Gate.t) : completion (list Gate.t * bool) :=
  stepped ← mapM (stepGate internalTempGates wireList) internalTempGates;
  mret (stepped.*1, existsb snd stepped).

(** [do { ... iterations++ } while (changed && iterations < MAX_ITERATIONS)],
    by recursion on the passes still allowed; the result is the final
    list and the value of [iterations]. *)
Fixpoint simulationLoop (remaining iterations : nat)
    (wireList : list Wire.t) (internalTempGates : list Gate.t)
    : completion (list Gate.t * nat) :=
  match remaining with
  | 0 => Return (internalTempGates, iterations)
  | S remaining' =>
      match simulationPass wireList internalTempGates with
      | Throw e => Throw e
      | Return (next, changed) =>
          if changed
          then simulationLoop remaining' (S iterations) wireList next
          else Return (next, S iterations)
      end
  end.

Definition runSimulationCounted (gateList : list Gate.t) (wireList : list Wire.t)
    : completion (list Gate.t * nat) :=
  simulationLoop MAX_ITERATIONS 0 wireList gateList.

Definition runSimulation (gateList : list Gate.t) (wireList : list Wire.t)
    : completion (list Gate.t) :=
  fst <$> runSimulationCounted gateList wireList.

(** [template.inputs.map((_, i) => ...)] of the main loop: the live value
    driving each declared input port of the composite gate [g]. *)
Definition newInputValuesOf (tempGates : list Gate.t) (wires : list Wire.t)
    (template : Template.t) (g : Gate.t) : list bool :=
  (λ i,
     match list_find (λ w, Endpoint.gateId (Wire.to w) = Gate.id g
                           ∧ Endpoint.portIndex (Wire.to w) = i) wires with
     | None => false
     | Some (_, wire) => sourceValue tempGates wire
     end) <$> seq 0 (length (Template.inputs template)).

(** [template.gates.map(tg => ({...tg, value: false, id: tg.id}))] *)
Definition instantiateGates (template : Template.t) : list Gate.t :=
  (λ tg, Gate.with_value tg false) <$> Template.gates template.

(** [template.wires.map(tw => ({...tw, id: tw.from.gateId + tw.to.gateId}))] *)
Definition instantiateWires (template : Template.t) : list Wire.t :=
  (λ tw, Wire.mk (Endpoint.gateId (Wire.from tw) +:+ Endpoint.gateId (Wire.to tw))
                 (Wire.from tw) (Wire.to tw)) <$> Template.wires template.

(** One callback of [template.inputs.forEach]: the first inner gate with
    the declared id, if any, has its [value] overwritten in place. *)
Definition seedInput (internalGates : list Gate.t) (inputDef : PortDef.t)
    (v : bool) : list Gate.t :=
  match list_find (λ ig, Gate.id ig = PortDef.originalId inputDef) internalGates with
  | None => internalGates
  | Some (k, internalInputGate) =>
      <[k := Gate.with_value internalInputGate v]> internalGates
  end.

Definition seedInputs (inputs : list PortDef.t) (newInputValues : list bool)
    (internalGates : list Gate.t) : list Gate.t :=
  foldl (λ gs '(inputDef, v), seedInput gs inputDef v)
        internalGates (zip inputs newInputValues).

(** [template.outputs.map(outputDef => ...)]: the simulated inner gate
    named by each output port, [false] when there is none. *)
Definition newOutputValuesOf (template : Template.t)
    (simulatedInternalGates : list Gate.t) : list bool :=
  (λ outputDef,
     match list_find (λ ig, Gate.id ig = PortDef.originalId outputDef)
                     simulatedInternalGates with
     | None => false
     | Some (_, internalOutputGate) => Gate.value internalOutputGate
     end) <$> Template.outputs template.

(** The callback of [tempGates.map] in the main loop: the recomputed gate,
    and whether it set [changedInMainLoop].  [JSON.stringify] of an
    absent array is [undefined], which differs from every string.  For a
    name that is no template of the library but a property of
    [Object.prototype], [customGates[name]] is truthy, the guard
    [!template] lets the gate through, and [template.inputs.map] throws. *)
Definition expandGate (tempGates : list Gate.t) (wires : list Wire.t)
    (g : Gate.t) : completion (Gate.t * bool) :=
  if decide (Gate.type g ≠ CUSTOM) then Return (g, false) else
  match customGates !! templateKey g with
  | None =>
      if inherited (templateKey g) then Throw TypeError else Return (g, false)
  | Some template =>
      let newInputValues := newInputValuesOf tempGates wires template g in
      let inputsDiffer := bool_decide (Gate.inputValues g ≠ Some newInputValues) in
      let internalGates :=
        seedInputs (Template.inputs template) newInputValues
                   (instantiateGates template) in
      let internalWires := instantiateWires template in
      simulatedInternalGates ← runSimulation internalGates internalWires;
      let newOutputValues := newOutputValuesOf template simulatedInternalGates in
      let outputsDiffer := bool_decide (Gate.outputValues g ≠ Some newOutputValues) in
      Return (Gate.with_ports g newInputValues newOutputValues,
              inputsDiffer || outputsDiffer)
  end.

(** The sweep over all gates that opens a round of the main loop. *)
Definition expandSweep (wires : list Wire.t) (tempGates : list Gate.t)
    : completion (list Gate.t * bool) :=
  expanded ← mapM (expandGate tempGates wires) tempGates;
  mret (expanded.*1, existsb snd expanded).

(** One round of the main loop: the sweep, then [runSimulation] on the
    outer gates; the flag is [changedInMainLoop] at the end of the round. *)
Definition mainRound (wires : list Wire.t) (tempGates : list Gate.t)
    : completion (list Gate.t * bool) :=
  match expandSweep wires tempGates with
  | Throw e => Throw e
  | Return (nextTempGates, changedInMainLoop) =>
      match runSimulation nextTempGates wires with
      | Throw e => Throw e
      | Return simulated => Return (simulated, changedInMainLoop)
      end
  end.

(** [do { ... mainIterations++ } while (changedInMainLoop && mainIterations < 10)],
    by recursion on the rounds still allowed; the result is the final
    [tempGates] and the value of [mainIterations]. *)
Fixpoint mainLoop (remaining mainIterations : nat)
    (wires : list Wire.t) (tempGates : list Gate.t)
    : completion (list Gate.t * nat) :=
  match remaining with
  | 0 => Return (tempGates, mainIterations)
  | S remaining' =>
      match mainRound wires tempGates with
      | Throw e => Throw e
      | Return (next, changedInMainLoop) =>
          if changedInMainLoop
          then mainLoop remaining' (S mainIterations) wires next
          else Return (next, S mainIterations)
      end
  end.

(** The effect up to its last statement: the final [tempGates] and the
    number of rounds taken. *)
Definition logicSimulationCounted (s : AppState.t)
    : completion (list Gate.t * nat) :=
  mainLoop MAX_MAIN_ITERATIONS 0 (AppState.wires s) (AppState.gates s).

(** The whole effect as a state transformer: [setPresentState] installs
    the final [tempGates] and keeps the wires.  (When the effect skips
    [setPresentState] the two gate lists are already equal.) *)
Definition logicSimulation (s : AppState.t) : completion AppState.t :=
  (λ r, AppState.mk r.1 (AppState.wires s)) <$> logicSimulationCounted s.

End Simulation.

(** ** Handlers that create gates and templates *)

(** [addGate]: a fresh primitive gate; the id and position are chosen by
    the caller here (the source derives them from the clock and the view). *)
Definition newGate (id : string) (type : GateType) (position : Z * Z) : Gate.t :=
  Gate.mk id type position false None None None None.

(** [handleAddCustomGate]: the new composite gate, with all-false port
    arrays sized by the template; nothing is added for an unknown name.
    The buttons of the library panel call it with the own keys of
    [customGates] only, so no property of [Object.prototype] is looked up
    here. *)
Definition handleAddCustomGate (customGates : gmap string Template.t)
    (name id : string) (s : AppState.t) : AppState.t :=
  match customGates !! name with
  | None => s
  | Some template =>
      let newGate :=
        Gate.mk id CUSTOM (250, 150)%Z false (Some name) (Some name)
          (Some (replicate (length (Template.inputs template)) false))
          (Some (replicate (length (Template.outputs template)) false)) in
      AppState.mk (AppState.gates s ++ [newGate])%list (AppState.wires s)
  end.

(** [handlePortClick] on an input port while connecting: the wire is added
    unless the destination port already has one. *)
Definition handlePortClick (id : string) (from to : Endpoint.t) (s : AppState.t)
    : AppState.t :=
  match list_find (λ w, Endpoint.gateId (Wire.to w) = Endpoint.gateId to
                        ∧ Endpoint.portIndex (Wire.to w) = Endpoint.portIndex to)
                  (AppState.wires s) with
  | Some _ => s
  | None =>
      AppState.mk (AppState.gates s) (AppState.wires s ++ [Wire.mk id from to])%list
  end.

(** [handleInputToggle] *)
Definition handleInputToggle (id : string) (s : AppState.t) : AppState.t :=
  AppState.mk
    ((λ g, if decide (Gate.id g = id ∧ Gate.type g = INPUT)
           then Gate.with_value g (negb (Gate.value g)) else g) <$> AppState.gates s)
    (AppState.wires s).

(** [handleDeleteCustomGate]: only the library entry goes; gates that name
    the template stay on the canvas. *)
Definition handleDeleteCustomGate (name : string)
    (customGates : gmap string Template.t) : gmap string Template.t :=
  delete name customGates.

(** [Array.prototype.sort] with the comparator [(a, b) => key a - key b]:
    a stable sort by ascending key. *)
Fixpoint insertByKey {A} (key : A → Z) (x : A) (sorted : list A) : list A :=
  match sorted with
  | [] => [x]
  | y :: rest =>
      if bool_decide (key x - key y ≤ 0)%Z then x :: sorted
      else y :: insertByKey key x rest
  end.

Definition sortByKey {A} (key : A → Z) (l : list A) : list A :=
  foldr (insertByKey key) [] l.

(** [Math.min(...l)] for a list that is not empty. *)
Definition minimum (l : list Z) : Z :=
  match l with
  | [] => 0%Z
  | x :: rest => foldl Z.min x rest
  end.

(** [handleSaveCustomGate], for an already trimmed and upper-cased [name]:
    the template made of the selected gates, or nothing when the handler
    alerts and returns.  Ports are ordered by the vertical position of the
    gate they stand for; positions become relative to the selection.  The
    [value] of a gate and the [id] of a wire are dropped on the way: here
    they become [false] and the empty string. *)
Definition handleSaveCustomGate (name : string) (selectedGateIds : list string)
    (s : AppState.t) : option Template.t :=
  let gates := AppState.gates s in
  let wires := AppState.wires s in
  if bool_decide (name = "" ∨ selectedGateIds = []) then None else
  let selection := filter (λ g, Gate.id g ∈ selectedGateIds) gates in
  let yOf (d : PortDef.t) : Z :=
    match list_find (λ g, Gate.id g = PortDef.originalId d) gates with
    | Some (_, g) => (Gate.position g).2
    | None => 0%Z
    end in
  let portsOf (ty : GateType) :=
    sortByKey yOf
      ((λ g, PortDef.mk (Gate.id g) (Gate.name g))
         <$> filter (λ g, Gate.type g = ty) selection) in
  let inputs := portsOf INPUT in
  let outputs := portsOf OUTPUT in
  if bool_decide (inputs = [] ∨ outputs = []) then None else
  let internalGates :=
    filter (λ g, Gate.type g ≠ INPUT ∧ Gate.type g ≠ OUTPUT) selection in
  let allInternalIds :=
    ((Gate.id <$> internalGates) ++ (PortDef.originalId <$> inputs)
     ++ (PortDef.originalId <$> outputs))%list in
  let internalWires :=
    filter (λ w, Endpoint.gateId (Wire.from w) ∈ allInternalIds
                 ∧ Endpoint.gateId (Wire.to w) ∈ allInternalIds) wires in
  let minX := minimum ((λ g, (Gate.position g).1) <$> selection) in
  let minY := minimum ((λ g, (Gate.position g).2) <$> selection) in
  Some (Template.mk name
          ((λ g, Gate.mk (Gate.id g) (Gate.type g)
                   ((Gate.position g).1 - minX, (Gate.position g).2 - minY)%Z
                   false (Gate.name g) (Gate.customGateName g)
                   (Gate.inputValues g) (Gate.outputValues g))
             <$> (internalGates
                  ++ filter (λ g, Gate.type g = INPUT ∨ Gate.type g = OUTPUT)
                       selection)%list)
          ((λ w, Wire.mk "" (Wire.from w) (Wire.to w)) <$> internalWires)
          inputs outputs).

(** ** Undo and redo: the hook [useHistory] *)

#[global] Instance AppState_eq_dec : EqDecision AppState.t.
Proof. solve_decision. Defined.

(** The state of the hook: [{ past, present, future }]. *)
Module History.
Record t := mk {
  past : list AppState.t;
  present : AppState.t;
  future : list AppState.t;
}.
End History.

#[global] Instance History_eq_dec : EqDecision History.t.
Proof. solve_decision. Defined.

Section UseHistory.

(** [JSON.stringify(a) === JSON.stringify(b)].  The records of this file
    do not keep the order of an object's keys, on which the strings
    depend, so the comparison is a parameter. *)
Variable sameJSON : AppState.t → AppState.t → bool.

(** [setState(newState, fromDragEnd)].  A plain state passed as [newState]
    is the constant updater. *)
Definition setState (newState : AppState.t → AppState.t) (fromDragEnd : bool)
    (currentHistory : History.t) : History.t :=
  let newPresent := newState (History.present currentHistory) in
  if sameJSON newPresent (History.present currentHistory) then currentHistory
  else if fromDragEnd
  then History.mk (History.past currentHistory) newPresent
         (History.future currentHistory)
  else History.mk (History.past currentHistory ++ [History.present currentHistory])%list
         newPresent [].

(** [handleGateDragEnd]: [setState(s => ({...s}), true)] when the gesture
    moved a gate. *)
Definition handleGateDragEnd (hasDragged : bool) (currentHistory : History.t)
    : History.t :=
  if hasDragged then setState (λ s, s) true currentHistory else currentHistory.

End UseHistory.

(** [setPresentState(newState)] *)
Definition setPresentState (newState : AppState.t → AppState.t)
    (currentHistory : History.t) : History.t :=
  History.mk (History.past currentHistory)
    (newState (History.present currentHistory))
    (History.future currentHistory).

(** [undo] *)
Definition undo (currentHistory : History.t) : History.t :=
  match last (History.past currentHistory) with
  | None => currentHistory
  | Some previous =>
      History.mk
        (take (length (History.past currentHistory) - 1) (History.past currentHistory))
        previous
        (History.present currentHistory :: History.future currentHistory)
  end.

(** [redo] *)
Definition redo (currentHistory : History.t) : History.t :=
  match History.future currentHistory with
  | [] => currentHistory
  | next :: newFuture =>
      History.mk
        (History.past currentHistory ++ [History.present currentHistory])%list
        next newFuture
  end.

(** [canUndo] and [canRedo] *)
Definition canUndo (h : History.t) : bool :=
  bool_decide (0 < length (History.past h)).
Definition canRedo (h : History.t) : bool :=
  bool_decide (0 < length (History.future h)).

(** ** More handlers of the canvas *)

(** [handleGateClick], as a function of the canvas and of the selection.
    [hasDragged] is [dragInfoRef.current?.hasDragged]; a switch is toggled
    also on a read-only canvas, where the selection is left alone. *)
Definition handleGateClick (hasDragged isReadOnly shiftKey : bool)
    (gateId : string) (s : AppState.t) (selectedGateIds : list string)
    : AppState.t * list string :=
  if hasDragged then (s, selectedGateIds) else
  match list_find (λ g, Gate.id g = gateId) (AppState.gates s) with
  | None => (s, selectedGateIds)
  | Some (_, gate) =>
      let s' :=
        if decide (Gate.type gate = INPUT) then handleInputToggle gateId s else s in
      if isReadOnly then (s', selectedGateIds) else
      (s',
       if shiftKey
       then if bool_decide (gateId ∈ selectedGateIds)
            then filter (λ id, id ≠ gateId) selectedGateIds
            else (selectedGateIds ++ [gateId])%list
       else [gateId])
  end.

(** The updater of the Delete and Backspace keys: the selected gates go,
    and with them every wire that starts or ends at one of them. *)
Definition deleteSelected (selectedGateIds : list string) (s : AppState.t)
    : AppState.t :=
  AppState.mk
    (filter (λ g, Gate.id g ∉ selectedGateIds) (AppState.gates s))
    (filter (λ w, (Endpoint.gateId (Wire.from w) ∉ selectedGateIds)
                  ∧ (Endpoint.gateId (Wire.to w) ∉ selectedGateIds))
            (AppState.wires s)).

(** What the port handlers read and write: the canvas, and the output
    port a wire is being drawn from ([connecting], without the mouse
    position that goes with it). *)
Module Ui.
Record t := mk { state : AppState.t; connecting : option Endpoint.t }.
End Ui.

Inductive PortType := inputPort | outputPort.

(** The [portCount] of [getPortPosition]: the number of ports of the
    given side, read from the template of a composite gate and from
    [GATE_DIMENSIONS] otherwise.  The coordinates the function goes on to
    compute are not modelled; this is the part of it that can throw. *)
Definition portCount (gate : Gate.t) (type : PortType)
    (customGateDef : option Template.t) : completion nat :=
  match Gate.type gate, customGateDef with
  | CUSTOM, Some def =>
      Return (match type with
              | inputPort => length (Template.inputs def)
              | outputPort => length (Template.outputs def)
              end)
  | _, _ =>
      match GATE_DIMENSIONS (Gate.type gate) with
      | Some d =>
          Return (match type with
                  | inputPort => Dimensions.inputs d
                  | outputPort => Dimensions.outputs d
                  end)
      | None => Throw TypeError
      end
  end.

(** [handlePortClick] as the ports call it.  A click on an output port of
    a gate that exists starts a wire, once [getPortPosition] has returned
    the place to start it from; a click on an input port while a wire is
    being drawn ends it there, with the id [wireId], unless the port is
    taken, in which case nothing changes. *)
Definition onPortClick (customGates : gmap string Template.t)
    (wireId gateId : string) (portType : PortType) (portIndex : nat) (ui : Ui.t)
    : completion Ui.t :=
  match portType with
  | outputPort =>
      match list_find (λ g, Gate.id g = gateId) (AppState.gates (Ui.state ui)) with
      | None => Return ui
      | Some (_, gate) =>
          let gateDef :=
            match Gate.type gate with
            | CUSTOM => customGates !! templateKey gate
            | _ => None
            end in
          match portCount gate outputPort gateDef with
          | Throw e => Throw e
          | Return _ =>
              Return (Ui.mk (Ui.state ui) (Some (Endpoint.mk gateId portIndex)))
          end
      end
  | inputPort =>
      match Ui.connecting ui with
      | None => Return ui
      | Some from =>
          match list_find (λ w, Endpoint.gateId (Wire.to w) = gateId
                                ∧ Endpoint.portIndex (Wire.to w) = portIndex)
                          (AppState.wires (Ui.state ui)) with
          | Some _ => Return ui
          | None =>
              Return (Ui.mk (handlePortClick wireId from (Endpoint.mk gateId portIndex)
                               (Ui.state ui))
                            None)
          end
      end
  end.

(** The elements a handler of the canvas finds in [e.currentTarget].  Of
    the two only the [<svg>] element has the method [createSVGPoint]. *)
Inductive Element := svgElement | circleElement.

(** [getSvgCoordinates(e, svg)] up to the coordinates it computes: on an
    element without [createSVGPoint] the call [svg.createSVGPoint()] is a
    call of [undefined]. *)
Definition getSvgCoordinates (svg : Element) : completion unit :=
  match svg with
  | svgElement => Return ()
  | circleElement => Throw TypeError
  end.

(** [handlePortDoubleClick]: the state the handler leaves behind, and how
    the handler itself ended.  [setState] has queued the removal of the
    wire found at the port, by its id, before [getSvgCoordinates] is called
    on [e.currentTarget]; the removal is applied whether that call returns
    or throws.  [setConnecting] comes after the call and is reached only
    when it returns. *)
Definition handlePortDoubleClick (currentTarget : Element) (gateId : string)
    (portIndex : nat) (ui : Ui.t) : Ui.t * completion unit :=
  match list_find (λ w, Endpoint.gateId (Wire.to w) = gateId
                        ∧ Endpoint.portIndex (Wire.to w) = portIndex)
                  (AppState.wires (Ui.state ui)) with
  | None => (ui, Return ())
  | Some (_, wireToDisconnect) =>
      let state :=
        AppState.mk (AppState.gates (Ui.state ui))
          (filter (λ w, Wire.id w ≠ Wire.id wireToDisconnect)
                  (AppState.wires (Ui.state ui))) in
      match getSvgCoordinates currentTarget with
      | Throw e => (Ui.mk state (Ui.connecting ui), Throw e)
      | Return _ => (Ui.mk state (Some (Wire.from wireToDisconnect)), Return ())
      end
  end.

(** [onPortDoubleClick] as the input ports call it: the handler is bound
    to the port's [<circle>], so that is its [e.currentTarget]. *)
Definition onPortDoubleClick : string → nat → Ui.t → Ui.t * completion unit :=
  handlePortDoubleClick circleElement.

(** [setCustomGates(prev => ({...prev, [name]: template}))], the last step
    of [handleSaveCustomGate]: the library after saving, unchanged when the
    handler alerted. *)
Definition saveCustomGate (name : string) (selectedGateIds : list string)
    (s : AppState.t) (customGates : gmap string Template.t)
    : gmap string Template.t :=
  match handleSaveCustomGate name selectedGateIds s with
  | None => customGates
  | Some template => <[name := template]> customGates
  end.

(** ** What the wires show *)

(** The callback of [wires.forEach] in the memo [wireValues]: the signal
    of the wire's source gate is recorded under the wire's id; nothing is
    recorded for a wire whose source gate is missing. *)
Definition setWireValue (gates : list Gate.t) (values : gmap string bool)
    (wire : Wire.t) : gmap string bool :=
  match list_find (λ g, Gate.id g = Endpoint.gateId (Wire.from wire)) gates with
  | None => values
  | Some (_, fromGate) =>
      <[Wire.id wire := gateOutput fromGate (Endpoint.portIndex (Wire.from wire))]>
        values
  end.

(** The memo [wireValues]: a [Map] from wire ids to signals. *)
Definition wireValues (wires : list Wire.t) (gates : list Gate.t)
    : gmap string bool :=
  foldl (setWireValue gates) ∅ wires.

(** [wireValues.get(wire.id) || false], the value a wire is drawn with. *)
Definition shownValue (values : gmap string bool) (wire : Wire.t) : bool :=
  (default false (values !! Wire.id wire)) || false.

(** * Vocabulary of the properties *)

(** ** Relations between gates *)

(** Two gates have the same shape when they differ at most in [value]. *)
Definition sameShape (a b : Gate.t) : Prop :=
  Gate.with_value a false = Gate.with_value b false.

(** Two gates are of the same kind when they agree on what the simulation
    dispatches on: id, type and template name. *)
Definition sameKind (a b : Gate.t) : Prop :=
  Gate.id a = Gate.id b ∧ Gate.type a = Gate.type b
  ∧ Gate.customGateName a = Gate.customGateName b.

(** Two gate lists hold the same switches: position by position the gates
    are of the same kind, and the INPUT gates are equal. *)
Definition sameSwitches : list Gate.t → list Gate.t → Prop :=
  Forall2 (λ a b, sameKind a b ∧ (Gate.type a = INPUT → a = b)).

(** ** What a pass and a sweep compute *)

(** The value a pass assigns to gate [g]; [stepGate] is this value put
    back into the gate, plus the change flag (lemma [stepGate_nextValue]). *)
Definition nextValue (customGates : gmap string Template.t)
    (wireList : list Wire.t) (internalTempGates : list Gate.t) (g : Gate.t)
    : completion bool :=
  if decide (Gate.type g = INPUT) then Return (Gate.value g) else
  numInputs ← numInputsOf customGates g;
  Return
    (if bool_decide (Gate.type g ≠ OUTPUT)
        && bool_decide (length (inputWiresOf wireList g) < numInputs)
     then false
     else newValueOf (Gate.type g)
            (resolveInputs internalTempGates (inputWiresOf wireList g) numInputs)).

(** Gate [g'] is gate [g] after a pass that read the list [ref]. *)
Definition stepsTo (customGates : gmap string Template.t)
    (wireList : list Wire.t) (ref : list Gate.t) (g g' : Gate.t) : Prop :=
  ∃ v, nextValue customGates wireList ref g = Return v
       ∧ g' = Gate.with_value g v.

(** A gate whose template, if it is a composite, is in the library. *)
Definition resolvable (customGates : gmap string Template.t) (g : Gate.t) : Prop :=
  Gate.type g = CUSTOM → is_Some (customGates !! templateKey g).

#[global] Instance resolvable_dec customGates g : Decision (resolvable customGates g).
Proof. unfold resolvable. apply _. Defined.

(** The inner gate list handed to [runSimulation] for a composite gate. *)
Definition innerGates (template : Template.t) (newInputValues : list bool)
    : list Gate.t :=
  seedInputs (Template.inputs template) newInputValues (instantiateGates template).

(** A composite gate can be expanded when the inner gates of its template
    are resolvable in turn. *)
Definition expandable (customGates : gmap string Template.t) (g : Gate.t) : Prop :=
  Gate.type g = CUSTOM →
  ∀ template, customGates !! templateKey g = Some template →
  Forall (resolvable customGates) (Template.gates template).

(** The port arrays the sweep computes for a gate: none for a primitive
    gate or a composite gate without template. *)
Definition recomputedPorts (customGates : gmap string Template.t)
    (wires : list Wire.t) (tempGates : list Gate.t) (g : Gate.t)
    : completion (option (list bool * list bool)) :=
  if decide (Gate.type g ≠ CUSTOM) then Return None else
  match customGates !! templateKey g with
  | None => if inherited (templateKey g) then Throw TypeError else Return None
  | Some template =>
      let newInputValues := newInputValuesOf tempGates wires template g in
      simulatedInternalGates ←
        runSimulation customGates (innerGates template newInputValues)
          (instantiateWires template);
      Return (Some (newInputValues, newOutputValuesOf template simulatedInternalGates))
  end.

(** ** Wiring *)

(** Fan-in at most one: no two wires of the list end at the same port. *)
Definition fanInAtMostOne (wireList : list Wire.t) : Prop :=
  NoDup (Wire.to <$> wireList).

(** Wire [w] ends at input port [i] of gate [g]. *)
Definition drives (w : Wire.t) (g : Gate.t) (i : nat) : Prop :=
  Wire.to w = Endpoint.mk (Gate.id g) i.

(** The value the source's formulas give a gate whose declared input
    ports are all wired, and an OUTPUT gate without a driver, from the
    signals the wires carry in the gate list [gs]. *)
Inductive wiredFormula (wireList : list Wire.t) (gs : list Gate.t) (g : Gate.t)
    : bool → Prop :=
  | formula_AND w0 w1 :
      Gate.type g = AND →
      w0 ∈ wireList → w1 ∈ wireList → drives w0 g 0 → drives w1 g 1 →
      wiredFormula wireList gs g (sourceValue gs w0 && sourceValue gs w1)
  | formula_OR w0 w1 :
      Gate.type g = OR →
      w0 ∈ wireList → w1 ∈ wireList → drives w0 g 0 → drives w1 g 1 →
      wiredFormula wireList gs g (sourceValue gs w0 || sourceValue gs w1)
  | formula_NOT w0 :
      Gate.type g = NOT → w0 ∈ wireList → drives w0 g 0 →
      wiredFormula wireList gs g (negb (sourceValue gs w0))
  | formula_OUTPUT w0 :
      Gate.type g = OUTPUT → w0 ∈ wireList → drives w0 g 0 →
      wiredFormula wireList gs g (sourceValue gs w0)
  | formula_OUTPUT_unwired :
      Gate.type g = OUTPUT → (∀ w, w ∈ wireList → ¬ drives w g 0) →
      wiredFormula wireList gs g false.

(** Two gate lists agree below layer [k] of a layering [rank]: the gates
    have the same shapes, and the switches and the gates of the layers
    below [k] are equal. *)
Definition agreeBelow (rank : string → nat) (k : nat)
    : list Gate.t → list Gate.t → Prop :=
  Forall2 (λ a b, sameShape a b
                  ∧ (rank (Gate.id a) < k ∨ Gate.type a = INPUT → a = b)).

(** ** The main loop, told twice *)

(** The main loop as the specification words it: a round is a sweep
    followed by a run of the flat engine, and the loop stops once a round
    leaves the whole gate list as it found it, or after the allowed number
    of rounds. *)
Fixpoint specifiedMainLoop (customGates : gmap string Template.t)
    (remaining rounds : nat) (wires : list Wire.t) (tempGates : list Gate.t)
    : completion (list Gate.t * nat) :=
  match remaining with
  | 0 => Return (tempGates, rounds)
  | S remaining' =>
      match mainRound customGates wires tempGates with
      | Throw e => Throw e
      | Return (next, _) =>
          if bool_decide (next = tempGates)
          then Return (next, S rounds)
          else specifiedMainLoop customGates remaining' (S rounds) wires next
      end
  end.

(** The main loop as the source runs it, told as a relation:
    [outerRun remaining rounds tempGates final n] when the loop, allowed
    [remaining] more rounds after [rounds] of them, ends with the gates
    [final] and [mainIterations = n].  It stops after the first round whose
    sweep altered no gate, or when the rounds are used up; what
    [runSimulation] did in the round plays no part. *)
Inductive outerRun (customGates : gmap string Template.t) (wires : list Wire.t)
    : nat → nat → list Gate.t → list Gate.t → nat → Prop :=
  | outer_stop remaining rounds tempGates swept ch next :
      expandSweep customGates wires tempGates = Return (swept, ch) →
      runSimulation customGates swept wires = Return next →
      swept = tempGates ∨ remaining = 0 →
      outerRun customGates wires (S remaining) rounds tempGates next (S rounds)
  | outer_again remaining rounds tempGates swept ch next final n :
      expandSweep customGates wires tempGates = Return (swept, ch) →
      runSimulation customGates swept wires = Return next →
      swept ≠ tempGates →
      outerRun customGates wires remaining (S rounds) next final n →
      outerRun customGates wires (S remaining) rounds tempGates final n.

(** * Canvases used as examples *)

Module Examples.

Definition gate (id : string) (type : GateType) (value : bool) : Gate.t :=
  Gate.with_value (newGate id type (0, 0)%Z) value.

Definition wire (id from : string) (fromPort : nat) (to : string) (toPort : nat)
    : Wire.t :=
  Wire.mk id (Endpoint.mk from fromPort) (Endpoint.mk to toPort).

(** The values of the gates in the state the effect returns. *)
Definition values (r : completion AppState.t) : completion (list bool) :=
  (λ s, Gate.value <$> AppState.gates s) <$> r.

(** Two switches into an AND gate, whose output feeds an OUTPUT. *)
Definition andGates (a b : bool) : list Gate.t :=
  [gate "a" INPUT a; gate "b" INPUT b; gate "and" AND false;
   gate "out" OUTPUT false].

Definition andWires : list Wire.t :=
  [wire "w1" "a" 0 "and" 0; wire "w2" "b" 0 "and" 1; wire "w3" "and" 0 "out" 0].

(** The same canvas with the second input of the AND gate left open. *)
Definition halfWiredAnd : list Wire.t :=
  [wire "w1" "a" 0 "and" 0; wire "w3" "and" 0 "out" 0].

(** The same two switches into an OR gate, and one switch into a NOT gate. *)
Definition orGates (a b : bool) : list Gate.t :=
  [gate "a" INPUT a; gate "b" INPUT b; gate "or" OR false;
   gate "out" OUTPUT false].

Definition orWires : list Wire.t :=
  [wire "w1" "a" 0 "or" 0; wire "w2" "b" 0 "or" 1; wire "w3" "or" 0 "out" 0].

Definition notGates (a : bool) : list Gate.t :=
  [gate "a" INPUT a; gate "not" NOT false; gate "out" OUTPUT false].

Definition notWires : list Wire.t :=
  [wire "w1" "a" 0 "not" 0; wire "w2" "not" 0 "out" 0].

(** A NOT gate on its own, and one fed back into itself. *)
Definition loneNot (v : bool) : list Gate.t := [gate "not" NOT v].
Definition feedbackWire : list Wire.t := [wire "loop" "not" 0 "not" 0].

End Examples.

(** Composite gates whose template is gone, and a wire from nowhere. *)
Module Broken.

(** A composite gate left on the canvas after its template ["XOR"] was
    deleted from the library; its port arrays still hold the last values. *)
Definition orphan : Gate.t :=
  Gate.mk "XOR-1" CUSTOM (250, 150)%Z false (Some "XOR") (Some "XOR")
    (Some [true; false]) (Some [true]).

Definition orphanCanvas : AppState.t := AppState.mk [orphan] [].

(** The same for a template that was called ["constructor"]: the library
    has no such template any more, but every object has such a property. *)
Definition namesake : Gate.t :=
  Gate.mk "constructor-2" CUSTOM (250, 150)%Z false (Some "constructor")
    (Some "constructor") (Some [false]) (Some [false]).



End Broken.

(** A NAND built as a composite gate. *)
Module Nand.

(** The canvas from which the template is saved: two switches into an AND
    gate, a NOT gate behind it, and an OUTPUT. *)
Definition drawing : AppState.t :=
  AppState.mk
    [newGate "INPUT-1" INPUT (250, 150)%Z; newGate "INPUT-2" INPUT (270, 250)%Z;
     newGate "AND-3" AND (400, 170)%Z; newGate "NOT-4" NOT (520, 190)%Z;
     newGate "OUTPUT-5" OUTPUT (640, 200)%Z]
    [Examples.wire "wire-6" "INPUT-1" 0 "AND-3" 0;
     Examples.wire "wire-7" "INPUT-2" 0 "AND-3" 1;
     Examples.wire "wire-8" "AND-3" 0 "NOT-4" 0;
     Examples.wire "wire-9" "NOT-4" 0 "OUTPUT-5" 0].

Definition selection : list string :=
  ["INPUT-1"; "INPUT-2"; "AND-3"; "NOT-4"; "OUTPUT-5"].

(** The template [handleSaveCustomGate] stores for that selection. *)
Definition template : Template.t :=
  Template.mk "NAND"
    [newGate "AND-3" AND (150, 20)%Z; newGate "NOT-4" NOT (270, 40)%Z;
     newGate "INPUT-1" INPUT (0, 0)%Z; newGate "INPUT-2" INPUT (20, 100)%Z;
     newGate "OUTPUT-5" OUTPUT (390, 50)%Z]
    [Examples.wire "" "INPUT-1" 0 "AND-3" 0; Examples.wire "" "INPUT-2" 0 "AND-3" 1;
     Examples.wire "" "AND-3" 0 "NOT-4" 0; Examples.wire "" "NOT-4" 0 "OUTPUT-5" 0]
    [PortDef.mk "INPUT-1" None; PortDef.mk "INPUT-2" None]
    [PortDef.mk "OUTPUT-5" None].

Definition library : gmap string Template.t := {[ "NAND" := template ]}.

(** A fresh canvas: two switches set to [a] and [b], an instance of the
    template, an OUTPUT gate, and the wires between them. *)
Definition canvas (a b : bool) : AppState.t :=
  let switches :=
    AppState.mk [Examples.gate "INPUT-11" INPUT a; Examples.gate "INPUT-12" INPUT b;
                 newGate "OUTPUT-13" OUTPUT (500, 150)%Z] [] in
  let placed := handleAddCustomGate library "NAND" "NAND-14" switches in
  handlePortClick "wire-17" (Endpoint.mk "NAND-14" 0) (Endpoint.mk "OUTPUT-13" 0)
    (handlePortClick "wire-16" (Endpoint.mk "INPUT-12" 0) (Endpoint.mk "NAND-14" 1)
       (handlePortClick "wire-15" (Endpoint.mk "INPUT-11" 0) (Endpoint.mk "NAND-14" 0)
          placed)).

(** The same canvas as a shared link could carry it, with the scalar
    [value] of the instance set. *)
Definition markedCanvas (a b : bool) : AppState.t :=
  AppState.mk
    ((λ g, if decide (Gate.type g = CUSTOM) then Gate.with_value g true else g)
       <$> AppState.gates (canvas a b))
    (AppState.wires (canvas a b)).

(** The output port of the instance, and the OUTPUT gate behind it, as they
    stand in a state. *)
Definition instanceOutputs (s : AppState.t) : option (list bool) :=
  g ← list_find (λ g, Gate.id g = "NAND-14") (AppState.gates s);
  Gate.outputValues g.2.

Definition lampValue (s : AppState.t) : option bool :=
  g ← list_find (λ g, Gate.id g = "OUTPUT-13") (AppState.gates s);
  Some (Gate.value g.2).

End Nand.

(** A composite gate behind a gate that the first pass changes. *)
Module Stale.

(** A template that passes its input through: an INPUT wired to an OUTPUT. *)
Definition buffer : Template.t :=
  Template.mk "BUF"
    [newGate "INPUT-1" INPUT (0, 0)%Z; newGate "OUTPUT-2" OUTPUT (100, 0)%Z]
    [Examples.wire "wire-3" "INPUT-1" 0 "OUTPUT-2" 0]
    [PortDef.mk "INPUT-1" None] [PortDef.mk "OUTPUT-2" None].

Definition library : gmap string Template.t := {[ "BUF" := buffer ]}.

(** A switch that is off, a NOT gate, an instance of the buffer and an
    OUTPUT gate in a chain, every value and port array still [false]. *)
Definition canvas : AppState.t :=
  AppState.mk
    [Examples.gate "INPUT-4" INPUT false; Examples.gate "NOT-5" NOT false;
     Gate.mk "BUF-6" CUSTOM (250, 150)%Z false (Some "BUF") (Some "BUF")
       (Some [false]) (Some [false]);
     Examples.gate "OUTPUT-7" OUTPUT false]
    [Examples.wire "wire-8" "INPUT-4" 0 "NOT-5" 0;
     Examples.wire "wire-9" "NOT-5" 0 "BUF-6" 0;
     Examples.wire "wire-10" "BUF-6" 0 "OUTPUT-7" 0].

End Stale.

(** A row of NOT gates. *)
Module Chain.

(** A switch that is on, followed by [m] NOT gates in a row, all still
    [false]. *)
Definition notId (n : nat) : string := "NOT-" +:+ pretty n.

Definition canvas (m : nat) : AppState.t :=
  AppState.mk
    (Examples.gate "INPUT-0" INPUT true
     :: ((λ n, Examples.gate (notId n) NOT false) <$> seq 1 m))
    (Examples.wire "wire-1" "INPUT-0" 0 (notId 1) 0
     :: ((λ n, Examples.wire ("wire-" +:+ pretty (S n)) (notId n) 0 (notId (S n)) 0)
           <$> seq 1 (m - 1))).

(** The same row behind a switch that is off. *)
Definition dark (m : nat) : AppState.t :=
  AppState.mk
    (Examples.gate "INPUT-0" INPUT false
     :: ((λ n, Examples.gate (notId n) NOT false) <$> seq 1 m))
    (AppState.wires (canvas m)).

End Chain.

(** A row of composite gates. *)
Module Relay.

Definition bufId (n : nat) : string := "BUF-" +:+ pretty n.

(** An instance of the buffer of [Stale], its port arrays still [false]. *)
Definition buf (n : nat) : Gate.t :=
  Gate.mk (bufId n) CUSTOM (250, 150)%Z false (Some "BUF") (Some "BUF")
    (Some [false]) (Some [false]).

(** A switch that is on, followed by [m] buffers in a row and an OUTPUT
    gate behind the last of them. *)
Definition canvas (m : nat) : AppState.t :=
  AppState.mk
    (Examples.gate "INPUT-0" INPUT true
     :: (buf <$> seq 1 m) ++ [Examples.gate "OUTPUT" OUTPUT false])
    (Examples.wire "wire-1" "INPUT-0" 0 (bufId 1) 0
     :: ((λ n, Examples.wire ("wire-" +:+ pretty (S n)) (bufId n) 0 (bufId (S n)) 0)
           <$> seq 1 (m - 1))
     ++ [Examples.wire "wire-out" (bufId m) 0 "OUTPUT" 0]).

End Relay.

(** * Vocabulary of the properties of the editor *)

(** The states of a history in the order they were made. *)
Definition timeline (h : History.t) : list AppState.t :=
  (History.past h ++ History.present h :: History.future h)%list.

(** The comparison [sameJSON] of a browser in which two states print the
    same exactly when they are equal. *)
Definition equalStates (a b : AppState.t) : bool := bool_decide (a = b).

(** The connections of a canvas: its wires without their ids. *)
Definition connections (s : AppState.t) : list (Endpoint.t * Endpoint.t) :=
  (λ w, (Wire.from w, Wire.to w)) <$> AppState.wires s.

(** No wire of the canvas starts or ends at a gate that is not there. *)
Definition noDanglingWire (s : AppState.t) : Prop :=
  Forall (λ w, Endpoint.gateId (Wire.from w) ∈ Gate.id <$> AppState.gates s
               ∧ Endpoint.gateId (Wire.to w) ∈ Gate.id <$> AppState.gates s)
         (AppState.wires s).

(** A template is closed: its wires run between its own gates, and its
    input and output ports stand for INPUT and OUTPUT gates among them. *)
Definition closedTemplate (template : Template.t) : Prop :=
  Forall (λ w, Endpoint.gateId (Wire.from w) ∈ Gate.id <$> Template.gates template
               ∧ Endpoint.gateId (Wire.to w) ∈ Gate.id <$> Template.gates template)
         (Template.wires template)
  ∧ Forall (λ d, PortDef.originalId d
                 ∈ Gate.id <$> filter (λ g, Gate.type g = INPUT)
                                      (Template.gates template))
           (Template.inputs template)
  ∧ Forall (λ d, PortDef.originalId d
                 ∈ Gate.id <$> filter (λ g, Gate.type g = OUTPUT)
                                      (Template.gates template))
           (Template.outputs template).

(** The vertical position [handleSaveCustomGate] sorts a port by: that of
    the first gate of the canvas with the port's id. *)
Definition portY (s : AppState.t) (d : PortDef.t) : Z :=
  match list_find (λ g, Gate.id g = PortDef.originalId d) (AppState.gates s) with
  | Some (_, g) => (Gate.position g).2
  | None => 0%Z
  end.

(** * Vocabulary of the properties of the evaluation *)

(** Gate [b] is gate [a] with, at most, another [value] and other port
    arrays. *)
Definition sameFrame (a b : Gate.t) : Prop :=
  Gate.with_ports (Gate.with_value a false) [] []
  = Gate.with_ports (Gate.with_value b false) [] [].

(** What an evaluation may do to a gate: nothing to a switch, nothing but
    the [value] to a primitive gate, and nothing but the [value] and the
    port arrays to a composite gate. *)
Definition evaluatedFrom (a b : Gate.t) : Prop :=
  sameFrame a b
  ∧ (Gate.type a = INPUT → b = a)
  ∧ (Gate.type a ≠ CUSTOM → sameShape a b).

#[global] Instance evaluatedFrom_dec a b : Decision (evaluatedFrom a b).
Proof. unfold evaluatedFrom, sameFrame, sameShape. apply _. Defined.

(** The canvas is layered by [rank], with fewer layers than the flat
    engine has passes, names only templates of the library, also inside
    those templates, and feeds its composite gates from switches only. *)
Definition feedbackFree (customGates : gmap string Template.t)
    (rank : string → nat) (s : AppState.t) : Prop :=
  (∀ w, w ∈ AppState.wires s →
     rank (Endpoint.gateId (Wire.from w)) < rank (Endpoint.gateId (Wire.to w)))
  ∧ Forall (λ g, rank (Gate.id g) < MAX_ITERATIONS) (AppState.gates s)
  ∧ Forall (resolvable customGates) (AppState.gates s)
  ∧ Forall (expandable customGates) (AppState.gates s)
  ∧ (∀ g w fg,
       g ∈ AppState.gates s → Gate.type g = CUSTOM →
       w ∈ AppState.wires s → Endpoint.gateId (Wire.to w) = Gate.id g →
       fg ∈ AppState.gates s → Gate.id fg = Endpoint.gateId (Wire.from w) →
       Gate.type fg = INPUT).

(** A gate whose [value] the flat engine computes from its wires: an AND,
    OR, NOT or OUTPUT gate. *)
Definition computed (g : Gate.t) : Prop :=
  Gate.type g ≠ INPUT ∧ Gate.type g ≠ CUSTOM.

#[global] Instance computed_dec g : Decision (computed g).
Proof. unfold computed. apply _. Defined.

(** The computed gates lie in fewer than [depth] layers: a wire from one
    of them to another runs from a lower layer to a higher one. *)
Definition flatLayers (rank : string → nat) (depth : nat)
    (wires : list Wire.t) (gs : list Gate.t) : Prop :=
  (∀ w g fg,
     w ∈ wires → g ∈ gs → fg ∈ gs →
     Endpoint.gateId (Wire.to w) = Gate.id g →
     Endpoint.gateId (Wire.from w) = Gate.id fg →
     computed g → computed fg →
     rank (Gate.id fg) < rank (Gate.id g))
  ∧ (∀ g, g ∈ gs → computed g → rank (Gate.id g) < depth).

(** The composite gates lie in fewer than [depth] layers: a wire into a
    composite gate comes from a switch or from a composite gate of a lower
    layer, if it comes from a gate of the canvas at all. *)
Definition compositeLayers (level : string → nat) (depth : nat)
    (wires : list Wire.t) (gs : list Gate.t) : Prop :=
  (∀ w g fg,
     w ∈ wires → g ∈ gs → fg ∈ gs →
     Endpoint.gateId (Wire.to w) = Gate.id g →
     Endpoint.gateId (Wire.from w) = Gate.id fg →
     Gate.type g = CUSTOM →
     Gate.type fg = INPUT
     ∨ (Gate.type fg = CUSTOM ∧ level (Gate.id fg) < level (Gate.id g)))
  ∧ (∀ g, g ∈ gs → Gate.type g = CUSTOM → level (Gate.id g) < depth).

(** Two gate lists of the same shapes agree on the switches, after a
    first pass ([0 < k]) on the composite gates, and on the computed gates
    of the layers below [k]. *)
Definition settledBelow (rank : string → nat) (k : nat)
    : list Gate.t → list Gate.t → Prop :=
  Forall2 (λ a b, sameShape a b
                  ∧ (Gate.type a = INPUT
                     ∨ (Gate.type a = CUSTOM ∧ 0 < k)
                     ∨ (computed a ∧ rank (Gate.id a) < k) → a = b)).

(** Two gate lists of the same kinds agree on the switches and on the
    port arrays of the composite gates of the layers below [k]. *)
Definition stableBelow (level : string → nat) (k : nat)
    : list Gate.t → list Gate.t → Prop :=
  Forall2 (λ a b, sameKind a b
                  ∧ (Gate.type a = INPUT → a = b)
                  ∧ (Gate.type a = CUSTOM → level (Gate.id a) < k →
                     Gate.inputValues a = Gate.inputValues b
                     ∧ Gate.outputValues a = Gate.outputValues b)).

(** Two libraries hold the same template, or none, for gate [g]. *)
Definition sameTemplate (lib1 lib2 : gmap string Template.t) (g : Gate.t) : Prop :=
  Gate.type g = CUSTOM → lib1 !! templateKey g = lib2 !! templateKey g.

(** They also agree on the composite gates inside that template. *)
Definition sameInside (lib1 lib2 : gmap string Template.t) (g : Gate.t) : Prop :=
  Gate.type g = CUSTOM →
  ∀ template, lib1 !! templateKey g = Some template →
    Forall (sameTemplate lib1 lib2) (Template.gates template).

(** A gate of the list is an instance of the template [name]. *)
Definition namesTemplate (name : string) (gs : list Gate.t) : Prop :=
  Exists (λ g, Gate.type g = CUSTOM ∧ templateKey g = name) gs.

(** The gates [gs] depend on the template [name] of the library: one of
    them is an instance of it, or an instance of a template that has an
    instance of it among its gates. *)
Definition dependsOn (customGates : gmap string Template.t) (name : string)
    (gs : list Gate.t) : Prop :=
  namesTemplate name gs
  ∨ Exists (λ g, Gate.type g = CUSTOM
                 ∧ match customGates !! templateKey g with
                   | Some template => namesTemplate name (Template.gates template)
                   | None => False
                   end) gs.

#[global] Instance dependsOn_dec customGates name gs :
  Decision (dependsOn customGates name gs).
Proof.
  unfold dependsOn, namesTemplate.
  apply or_dec; [apply _|]. apply Exists_dec. intros g.
  apply and_dec; [apply _|]. destruct (customGates !! templateKey g); apply _.
Defined.

(** * More canvases used as examples *)

(** A composite gate inside a composite gate. *)
Module Nested.

(** A template that wraps an instance of the buffer of [Stale]; the
    instance was saved with [true] on its ports. *)
Definition wrapper : Template.t :=
  Template.mk "WRAP"
    [Gate.mk "BUF-2" CUSTOM (100, 0)%Z false (Some "BUF") (Some "BUF")
       (Some [true]) (Some [true]);
     newGate "INPUT-1" INPUT (0, 0)%Z; newGate "OUTPUT-3" OUTPUT (200, 0)%Z]
    [Examples.wire "" "INPUT-1" 0 "BUF-2" 0; Examples.wire "" "BUF-2" 0 "OUTPUT-3" 0]
    [PortDef.mk "INPUT-1" None] [PortDef.mk "OUTPUT-3" None].

Definition library : gmap string Template.t :=
  {[ "BUF" := Stale.buffer; "WRAP" := wrapper ]}.

Definition instance : Gate.t :=
  Gate.mk "WRAP-4" CUSTOM (250, 150)%Z false (Some "WRAP") (Some "WRAP")
    (Some [false]) (Some [false]).

(** A switch that is off, wired to an instance of the wrapper. *)
Definition canvas : AppState.t :=
  AppState.mk [Examples.gate "INPUT-5" INPUT false; instance]
    [Examples.wire "wire-6" "INPUT-5" 0 "WRAP-4" 0].

End Nested.

(** * Properties *)

(** Deciding a closed decidable proposition by evaluation. *)
Ltac by_evaluation :=
  match goal with
  | |- ?P => refine (bool_decide_unpack P _); vm_compute; exact I
  end.

(** ** The error monad *)

Lemma mapM_completion_cons {A B} (f : A → completion B) x l :
  mapM f (x :: l) =
  match f x with
  | Return y =>
      match mapM f l with Return k => Return (y :: k) | Throw e => Throw e end
  | Throw e => Throw e
  end.
Proof. reflexivity. Qed.

(** [mapM] returns exactly when every callback returns, and then collects
    the results in order. *)
Lemma mapM_Return {A B} (f : A → completion B) (l : list A) (k : list B) :
  mapM f l = Return k ↔ Forall2 (λ x y, f x = Return y) l k.
Proof.
  revert k. induction l as [|x l IH]; intros k.
  - split.
    + intros [= <-]. constructor.
    + intros H. inversion H. reflexivity.
  - rewrite mapM_completion_cons. split.
    + destruct (f x) as [y|e] eqn:Hx; [|discriminate].
      destruct (mapM f l) as [k'|e] eqn:Hl; [|discriminate].
      intros [= <-]. constructor; [done|]. by apply IH.
    + intros H. inversion H as [|? y ? k' Hx Hl]; subst.
      rewrite Hx. apply IH in Hl. rewrite Hl. reflexivity.
Qed.

(** One throwing callback makes the whole [map] throw. *)
Lemma mapM_Throw {A B} (f : A → completion B) (l : list A) x e :
  x ∈ l → f x = Throw e → ∃ e', mapM f l = Throw e'.
Proof.
  intros Hin Hx. induction l as [|y l IH]; [by apply elem_of_nil in Hin|].
  rewrite mapM_completion_cons.
  apply elem_of_cons in Hin as [->|Hin].
  - rewrite Hx. eauto.
  - destruct (f y); [|eauto]. destruct (IH Hin) as [e' ->]. eauto.
Qed.

(** ** Gates up to their [value] *)

#[global] Instance sameShape_equiv : Equivalence sameShape.
Proof.
  unfold sameShape. split.
  - by intros a.
  - by intros a b.
  - intros a b c Hab Hbc. by rewrite Hab.
Qed.

Lemma with_value_same g : Gate.with_value g (Gate.value g) = g.
Proof. by destruct g. Qed.

Lemma sameShape_with_value g v : sameShape g (Gate.with_value g v).
Proof. by destruct g. Qed.

Lemma sameShape_id a b : sameShape a b → Gate.id a = Gate.id b.
Proof. destruct a, b. by intros [= -> _ _ _ _ _ _]. Qed.

Lemma sameShape_type a b : sameShape a b → Gate.type a = Gate.type b.
Proof. destruct a, b. by intros [= _ -> _ _ _ _ _]. Qed.

Lemma sameShape_customGateName a b :
  sameShape a b → Gate.customGateName a = Gate.customGateName b.
Proof. destruct a, b. by intros [= _ _ _ _ -> _ _]. Qed.

Lemma sameShape_outputValues a b :
  sameShape a b → Gate.outputValues a = Gate.outputValues b.
Proof. destruct a, b. by intros [= _ _ _ _ _ _ ->]. Qed.


Lemma sameShape_with_value_eq a b v :
  sameShape a b → Gate.with_value a v = Gate.with_value b v.
Proof. destruct a, b; simpl. by intros [= -> -> -> -> -> -> ->]. Qed.

Lemma sameShape_ports a b :
  sameShape a b →
  Gate.inputValues a = Gate.inputValues b ∧ Gate.outputValues a = Gate.outputValues b.
Proof. unfold sameShape. by intros [=]. Qed.

Lemma sameShape_templateKey a b : sameShape a b → templateKey a = templateKey b.
Proof. intros H. unfold templateKey. by rewrite (sameShape_customGateName _ _ H). Qed.

Create HintDb shape discriminated.
#[global] Hint Resolve sameShape_with_value sameShape_id sameShape_type
  sameShape_customGateName sameShape_outputValues : shape.

(** ** One gate, one pass *)

Section FlatEngine.

Variable customGates : gmap string Template.t.
Variable wireList : list Wire.t.

Lemma stepGate_nextValue gs g :
  stepGate customGates gs wireList g =
  v ← nextValue customGates wireList gs g;
  Return (Gate.with_value g v, bool_decide (Gate.value g ≠ v)).
Proof.
  unfold stepGate, nextValue.
  destruct (decide (Gate.type g = INPUT)) as [Hin|Hin]; simpl.
  { rewrite with_value_same. by rewrite bool_decide_eq_false_2 by auto. }
  destruct (numInputsOf customGates g) as [n|e]; simpl; [|done].
  destruct (bool_decide (Gate.type g ≠ OUTPUT)
            && bool_decide (length (inputWiresOf wireList g) < n)).
  - destruct (Gate.value g) eqn:Hv.
    + by rewrite bool_decide_eq_true_2.
    + rewrite bool_decide_eq_false_2 by auto. by rewrite <- Hv, with_value_same.
  - case_bool_decide as Hne; [done|].
    by rewrite <- Hne, with_value_same.
Qed.

Lemma stepGate_Return gs g g' ch :
  stepGate customGates gs wireList g = Return (g', ch) ↔
  ∃ v, nextValue customGates wireList gs g = Return v ∧ g' = Gate.with_value g v
       ∧ ch = bool_decide (Gate.value g ≠ v).
Proof.
  rewrite stepGate_nextValue.
  destruct (nextValue customGates wireList gs g) as [v|e]; simpl.
  - split.
    + intros [= <- <-]. eauto.
    + intros (v' & [= <-] & -> & ->). done.
  - split; [done|]. by intros (v' & [=] & _).
Qed.

(** [numInputsOf] looks only at the shape of the gate. *)
Lemma numInputsOf_shape a b :
  sameShape a b → numInputsOf customGates a = numInputsOf customGates b.
Proof.
  intros H. unfold numInputsOf, templateKey.
  by rewrite (sameShape_type _ _ H), (sameShape_customGateName _ _ H).
Qed.

Lemma inputWiresOf_shape a b :
  sameShape a b → inputWiresOf wireList a = inputWiresOf wireList b.
Proof. intros H. unfold inputWiresOf. by rewrite (sameShape_id _ _ H). Qed.

(** A primitive gate never makes [numInputsOf] throw. *)
Lemma numInputsOf_primitive g :
  Gate.type g ≠ CUSTOM →
  ∃ d, GATE_DIMENSIONS (Gate.type g) = Some d
       ∧ numInputsOf customGates g = Return (Dimensions.inputs d).
Proof.
  intros H. unfold numInputsOf. destruct (Gate.type g); try done; eauto.
Qed.

(** A composite gate makes it throw exactly when its template is gone. *)
Lemma numInputsOf_custom g :
  Gate.type g = CUSTOM →
  numInputsOf customGates g =
  match customGates !! templateKey g with
  | Some def => Return (length (Template.inputs def))
  | None => Throw TypeError
  end.
Proof.
  intros H. unfold numInputsOf. rewrite H.
  by destruct (customGates !! templateKey g).
Qed.

End FlatEngine.

(** ** One pass over all gates *)

Section Pass.

Variable customGates : gmap string Template.t.
Variable wireList : list Wire.t.

Lemma resolvable_shape a b :
  sameShape a b → resolvable customGates a → resolvable customGates b.
Proof.
  unfold resolvable, templateKey. intros H.
  by rewrite (sameShape_type _ _ H), (sameShape_customGateName _ _ H).
Qed.

Lemma nextValue_resolvable ref g :
  resolvable customGates g → ∃ v, nextValue customGates wireList ref g = Return v.
Proof.
  intros Hres. unfold nextValue.
  destruct (decide (Gate.type g = INPUT)); [eauto|].
  destruct (decide (Gate.type g = CUSTOM)) as [Hc|Hc].
  - rewrite numInputsOf_custom by done.
    destruct (Hres Hc) as [def ->]. simpl. eauto.
  - destruct (numInputsOf_primitive customGates g Hc) as (d & _ & ->).
    simpl. eauto.
Qed.

Lemma nextValue_unresolvable ref g :
  ¬ resolvable customGates g →
  nextValue customGates wireList ref g = Throw TypeError.
Proof.
  intros Hres. unfold nextValue.
  destruct (decide (Gate.type g = CUSTOM)) as [Hc|Hc].
  - rewrite decide_False by (rewrite Hc; done).
    rewrite numInputsOf_custom by done.
    destruct (customGates !! templateKey g) eqn:Hdef; [|done].
    destruct Hres. intros _. by rewrite Hdef.
  - destruct Hres. by intros ?.
Qed.

Lemma stepsTo_shape ref g g' :
  stepsTo customGates wireList ref g g' → sameShape g g'.
Proof. intros (v & _ & ->). apply sameShape_with_value. Qed.

Lemma mapM_stepGate ref l stepped :
  mapM (stepGate customGates ref wireList) l = Return stepped →
  Forall2 (stepsTo customGates wireList ref) l stepped.*1
  ∧ (existsb snd stepped = false ↔ stepped.*1 = l).
Proof.
  rewrite mapM_Return. induction 1 as [|g [g' ch] l stepped Hg _ [IH1 IH2]].
  - split; [constructor|done].
  - apply stepGate_Return in Hg as (v & Hv & -> & ->).
    rewrite fmap_cons. cbn [existsb snd fst]. split.
    + constructor; [by exists v|done].
    + rewrite orb_false_iff, IH2. case_bool_decide as Hne.
      * split; [by intros [? _]|]. intros [= Hg' _].
        destruct Hne. by rewrite <- Hg' at 1.
      * rewrite <- Hne, with_value_same. split; [by intros [_ ->]|].
        by intros [= ->].
Qed.

Lemma simulationPass_Return gs gs' ch :
  simulationPass customGates wireList gs = Return (gs', ch) →
  Forall2 (stepsTo customGates wireList gs) gs gs' ∧ (ch = false ↔ gs' = gs).
Proof.
  unfold simulationPass.
  destruct (mapM _ gs) as [stepped|e] eqn:Hm; simpl; [|done].
  intros [= <- <-]. by apply mapM_stepGate.
Qed.

(** The pass returns as soon as every gate is resolvable... *)
Lemma simulationPass_total gs :
  Forall (resolvable customGates) gs →
  ∃ gs' ch, simulationPass customGates wireList gs = Return (gs', ch).
Proof.
  intros Hres. unfold simulationPass.
  assert (∃ stepped, mapM (stepGate customGates gs wireList) gs = Return stepped)
    as [stepped ->]; [|simpl; eauto].
  generalize gs at 1 as ref. intros ref.
  induction Hres as [|g l Hg _ [stepped IH]]; [by exists []|].
  destruct (nextValue_resolvable ref g Hg) as [v Hv].
  rewrite mapM_completion_cons, stepGate_nextValue, Hv, IH. simpl. eauto.
Qed.

(** ... and throws as soon as one is not. *)
Lemma simulationPass_Throw gs :
  ¬ Forall (resolvable customGates) gs →
  ∃ e, simulationPass customGates wireList gs = Throw e.
Proof.
  intros Hres. apply not_Forall_Exists in Hres; [|apply _].
  apply Exists_exists in Hres as (g & Hin & Hg).
  destruct (mapM_Throw (stepGate customGates gs wireList) gs g TypeError Hin)
    as [e He].
  { by rewrite stepGate_nextValue, nextValue_unresolvable. }
  exists e. unfold simulationPass. by rewrite He.
Qed.

Lemma Forall2_sameShape_resolvable gs gs' :
  Forall2 sameShape gs gs' →
  Forall (resolvable customGates) gs → Forall (resolvable customGates) gs'.
Proof.
  induction 1 as [|a b l k Hab _ IH]; [done|].
  intros [Ha Hl]%Forall_cons. constructor; [|by apply IH].
  by eapply resolvable_shape.
Qed.

Lemma simulationPass_shape gs gs' ch :
  simulationPass customGates wireList gs = Return (gs', ch) →
  Forall2 sameShape gs gs'.
Proof.
  intros [H _]%simulationPass_Return.
  eapply Forall2_impl; [exact H|]. apply stepsTo_shape.
Qed.

End Pass.

(** ** The bounded loop of [runSimulation] *)

Section Loop.

Variable customGates : gmap string Template.t.
Variable wireList : list Wire.t.

Lemma Forall2_sameShape_refl gs : Forall2 sameShape gs gs.
Proof. reflexivity. Qed.

Lemma Forall2_sameShape_trans gs1 gs2 gs3 :
  Forall2 sameShape gs1 gs2 → Forall2 sameShape gs2 gs3 →
  Forall2 sameShape gs1 gs3.
Proof.
  intros H12 H23. by etrans.
Qed.

(** Whatever the loop returns came out of a pass, over a list of the
    shape it started from; the counter grew by at least one and by at
    most the budget; and stopping short of the budget means that last
    pass changed nothing. *)
Lemma simulationLoop_Return remaining iterations gs result n :
  simulationLoop customGates (S remaining) iterations wireList gs
    = Return (result, n) →
  ∃ prev ch,
    Forall2 sameShape gs prev
    ∧ simulationPass customGates wireList prev = Return (result, ch)
    ∧ iterations < n ≤ iterations + S remaining
    ∧ (n < iterations + S remaining → ch = false).
Proof.
  revert iterations gs.
  induction remaining as [|remaining IH]; intros iterations gs; simpl.
  - destruct (simulationPass customGates wireList gs) as [[next ch]|e] eqn:Hp;
      [|done].
    destruct ch; intros [= <- <-]; exists gs; eexists;
      (split; [apply Forall2_sameShape_refl|]); (split; [exact Hp|]);
      (split; [lia|intros ?; first [done|lia]]).
  - destruct (simulationPass customGates wireList gs) as [[next ch]|e] eqn:Hp;
      [|done].
    destruct ch.
    + intros Hloop. apply IH in Hloop as (prev & ch & Hshape & Hpass & Hn & Hstop).
      exists prev, ch. split; [|split; [done|split; [lia|intros ?; apply Hstop; lia]]].
      eapply Forall2_sameShape_trans; [|exact Hshape].
      by eapply simulationPass_shape.
    + intros [= <- <-]. exists gs, false.
      split; [apply Forall2_sameShape_refl|]. split; [done|]. split; [lia|done].
Qed.

(** The loop always comes back when every gate is resolvable. *)
Lemma simulationLoop_total remaining iterations gs :
  Forall (resolvable customGates) gs →
  ∃ result n,
    simulationLoop customGates remaining iterations wireList gs
      = Return (result, n).
Proof.
  revert iterations gs.
  induction remaining as [|remaining IH]; intros iterations gs Hres; simpl.
  - eauto.
  - destruct (simulationPass_total customGates wireList gs Hres)
      as (next & ch & Hp).
    rewrite Hp. destruct ch; [|eauto]. apply IH.
    eapply Forall2_sameShape_resolvable; [|exact Hres].
    by eapply simulationPass_shape.
Qed.

Lemma simulationLoop_Throw remaining iterations gs :
  ¬ Forall (resolvable customGates) gs →
  ∃ e, simulationLoop customGates (S remaining) iterations wireList gs = Throw e.
Proof.
  intros Hres. simpl.
  destruct (simulationPass_Throw customGates wireList gs Hres) as [e ->]. eauto.
Qed.

Lemma runSimulation_Return gs result :
  runSimulation customGates gs wireList = Return result →
  ∃ prev ch n,
    Forall2 sameShape gs prev
    ∧ simulationPass customGates wireList prev = Return (result, ch)
    ∧ runSimulationCounted customGates gs wireList = Return (result, n)
    ∧ 1 ≤ n ≤ MAX_ITERATIONS
    ∧ (n < MAX_ITERATIONS → ch = false).
Proof.
  unfold runSimulation.
  destruct (runSimulationCounted customGates gs wireList) as [[r n]|e] eqn:Hrun;
    [|done].
  intros [= <-]. unfold runSimulationCounted in Hrun.
  apply simulationLoop_Return in Hrun as (prev & ch & Hshape & Hpass & Hn & Hstop).
  exists prev, ch, n. unfold MAX_ITERATIONS in *. repeat split; try done; lia.
Qed.

Lemma runSimulation_total gs :
  Forall (resolvable customGates) gs →
  ∃ result, runSimulation customGates gs wireList = Return result.
Proof.
  intros Hres. unfold runSimulation, runSimulationCounted.
  destruct (simulationLoop_total MAX_ITERATIONS 0 gs Hres) as (r & n & ->).
  simpl. eauto.
Qed.

Lemma runSimulation_Throw gs :
  ¬ Forall (resolvable customGates) gs →
  ∃ e, runSimulation customGates gs wireList = Throw e.
Proof.
  intros Hres. unfold runSimulation, runSimulationCounted.
  destruct (simulationLoop_Throw 49 0 gs Hres) as [e He].
  change MAX_ITERATIONS with 50. rewrite He. simpl. eauto.
Qed.

Lemma runSimulation_shape gs result :
  runSimulation customGates gs wireList = Return result →
  Forall2 sameShape gs result.
Proof.
  intros (prev & ch & n & Hshape & Hpass & _)%runSimulation_Return.
  eapply Forall2_sameShape_trans; [exact Hshape|].
  by eapply simulationPass_shape.
Qed.

End Loop.

(** ** Wiring *)

Lemma NoDup_fmap_eq {A B} (f : A → B) (l : list A) x y :
  NoDup (f <$> l) → x ∈ l → y ∈ l → f x = f y → x = y.
Proof.
  induction l as [|a l IH]; [by intros _ ?%elem_of_nil|].
  rewrite fmap_cons, NoDup_cons.
  intros [Ha Hl] [->|Hx]%elem_of_cons [->|Hy]%elem_of_cons Hf; [done| | |by apply IH].
  - destruct Ha. rewrite Hf. by apply list_elem_of_fmap_2.
  - destruct Ha. rewrite <- Hf. by apply list_elem_of_fmap_2.
Qed.

Lemma drives_inputWiresOf wireList w g i :
  w ∈ wireList → drives w g i → w ∈ inputWiresOf wireList g.
Proof.
  unfold drives, inputWiresOf. intros Hin Hto.
  apply list_elem_of_filter. split; [|done]. by rewrite Hto.
Qed.

(** Under fan-in at most one, the wire found for a port is the wire that
    drives it. *)
Lemma find_driver wireList w g i :
  fanInAtMostOne wireList → w ∈ wireList → drives w g i →
  ∃ k, list_find (λ w', Endpoint.portIndex (Wire.to w') = i)
                 (inputWiresOf wireList g) = Some (k, w).
Proof.
  intros Hfan Hin Hto.
  destruct (list_find_elem_of (λ w', Endpoint.portIndex (Wire.to w') = i)
              (inputWiresOf wireList g) w) as [[k w'] Hfind].
  { by eapply drives_inputWiresOf. }
  { by rewrite Hto. }
  exists k. rewrite Hfind. do 2 f_equal.
  apply list_find_Some in Hfind as (Hk & Hport & _).
  apply list_elem_of_lookup_2, list_elem_of_filter in Hk as [Hgate Hin'].
  eapply (NoDup_fmap_eq Wire.to); [exact Hfan|done..|].
  rewrite Hto. destruct (Wire.to w'); simpl in *. by subst.
Qed.

Lemma find_no_driver wireList g i :
  (∀ w, w ∈ wireList → ¬ drives w g i) →
  list_find (λ w', Endpoint.portIndex (Wire.to w') = i)
            (inputWiresOf wireList g) = None.
Proof.
  intros Hnone. apply list_find_None, Forall_forall.
  intros w [Hgate Hin]%list_elem_of_filter Hport.
  apply (Hnone w Hin). unfold drives.
  destruct (Wire.to w); simpl in *. by subst.
Qed.

Lemma two_drivers_length wireList w0 w1 g :
  w0 ∈ wireList → w1 ∈ wireList → drives w0 g 0 → drives w1 g 1 →
  2 ≤ length (inputWiresOf wireList g).
Proof.
  intros Hin0 Hin1 Hto0 Hto1.
  pose proof (drives_inputWiresOf _ _ _ _ Hin0 Hto0) as H0.
  pose proof (drives_inputWiresOf _ _ _ _ Hin1 Hto1) as H1.
  assert (w0 ≠ w1) as Hne.
  { intros ->. unfold drives in *. congruence. }
  destruct (inputWiresOf wireList g) as [|a [|b l]]; simpl; [|exfalso|lia].
  - by apply elem_of_nil in H0.
  - apply list_elem_of_singleton in H0, H1. congruence.
Qed.

Lemma one_driver_length wireList w g i :
  w ∈ wireList → drives w g i → 1 ≤ length (inputWiresOf wireList g).
Proof.
  intros Hin Hto. pose proof (drives_inputWiresOf _ _ _ _ Hin Hto) as H.
  destruct (inputWiresOf wireList g); simpl; [by apply elem_of_nil in H|lia].
Qed.

(** ** Kind-specific formulas *)

Section Formulas.

Variable customGates : gmap string Template.t.
Variable wireList : list Wire.t.
Variable gs : list Gate.t.

Hypothesis fanIn : fanInAtMostOne wireList.

Local Abbreviation signal := (sourceValue gs).

Lemma resolveInputs_two g w0 w1 :
  w0 ∈ wireList → w1 ∈ wireList → drives w0 g 0 → drives w1 g 1 →
  resolveInputs gs (inputWiresOf wireList g) 2 = [signal w0; signal w1].
Proof.
  intros Hin0 Hin1 Hto0 Hto1. unfold resolveInputs. simpl.
  destruct (find_driver wireList w0 g 0 fanIn Hin0 Hto0) as [k0 ->].
  by destruct (find_driver wireList w1 g 1 fanIn Hin1 Hto1) as [k1 ->].
Qed.

Lemma resolveInputs_one g w0 :
  w0 ∈ wireList → drives w0 g 0 →
  resolveInputs gs (inputWiresOf wireList g) 1 = [signal w0].
Proof.
  intros Hin0 Hto0. unfold resolveInputs. simpl.
  by destruct (find_driver wireList w0 g 0 fanIn Hin0 Hto0) as [k0 ->].
Qed.

Lemma nextValue_primitive g d :
  Gate.type g ≠ INPUT →
  GATE_DIMENSIONS (Gate.type g) = Some d →
  nextValue customGates wireList gs g =
  Return
    (if bool_decide (Gate.type g ≠ OUTPUT)
        && bool_decide (length (inputWiresOf wireList g) < Dimensions.inputs d)
     then false
     else newValueOf (Gate.type g)
            (resolveInputs gs (inputWiresOf wireList g) (Dimensions.inputs d))).
Proof.
  intros Hin Hd. unfold nextValue. rewrite decide_False by done.
  destruct (numInputsOf_primitive customGates g) as (d' & Hd' & ->).
  { intros Hc. by rewrite Hc in Hd. }
  by replace d' with d by congruence.
Qed.

Lemma nextValue_AND g w0 w1 :
  Gate.type g = AND →
  w0 ∈ wireList → w1 ∈ wireList → drives w0 g 0 → drives w1 g 1 →
  nextValue customGates wireList gs g = Return (signal w0 && signal w1).
Proof.
  intros Hty Hin0 Hin1 Hto0 Hto1.
  rewrite (nextValue_primitive g (Dimensions.mk 80 100 2 1)) by by rewrite Hty.
  pose proof (two_drivers_length _ _ _ _ Hin0 Hin1 Hto0 Hto1).
  cbn [Dimensions.inputs].
  rewrite (bool_decide_eq_false_2 (_ < 2)), andb_false_r by lia.
  rewrite (resolveInputs_two g w0 w1), Hty by done. simpl.
  by rewrite andb_true_r.
Qed.

Lemma nextValue_OR g w0 w1 :
  Gate.type g = OR →
  w0 ∈ wireList → w1 ∈ wireList → drives w0 g 0 → drives w1 g 1 →
  nextValue customGates wireList gs g = Return (signal w0 || signal w1).
Proof.
  intros Hty Hin0 Hin1 Hto0 Hto1.
  rewrite (nextValue_primitive g (Dimensions.mk 80 100 2 1)) by by rewrite Hty.
  pose proof (two_drivers_length _ _ _ _ Hin0 Hin1 Hto0 Hto1).
  cbn [Dimensions.inputs].
  rewrite (bool_decide_eq_false_2 (_ < 2)), andb_false_r by lia.
  rewrite (resolveInputs_two g w0 w1), Hty by done. simpl.
  by rewrite orb_false_r.
Qed.

Lemma nextValue_NOT g w0 :
  Gate.type g = NOT → w0 ∈ wireList → drives w0 g 0 →
  nextValue customGates wireList gs g = Return (negb (signal w0)).
Proof.
  intros Hty Hin0 Hto0.
  rewrite (nextValue_primitive g (Dimensions.mk 80 60 1 1)) by by rewrite Hty.
  pose proof (one_driver_length _ _ _ _ Hin0 Hto0).
  cbn [Dimensions.inputs].
  rewrite (bool_decide_eq_false_2 (_ < 1)), andb_false_r by lia.
  by rewrite (resolveInputs_one g w0), Hty.
Qed.

Lemma nextValue_OUTPUT g w0 :
  Gate.type g = OUTPUT → w0 ∈ wireList → drives w0 g 0 →
  nextValue customGates wireList gs g = Return (signal w0).
Proof.
  intros Hty Hin0 Hto0.
  rewrite (nextValue_primitive g (Dimensions.mk 100 50 1 0)) by by rewrite Hty.
  cbn [Dimensions.inputs].
  rewrite (bool_decide_eq_false_2 (_ ≠ OUTPUT)) by auto.
  rewrite (resolveInputs_one g w0), Hty by done. simpl.
  by rewrite orb_false_r.
Qed.

Lemma nextValue_OUTPUT_unwired g :
  Gate.type g = OUTPUT → (∀ w, w ∈ wireList → ¬ drives w g 0) →
  nextValue customGates wireList gs g = Return false.
Proof.
  intros Hty Hnone.
  rewrite (nextValue_primitive g (Dimensions.mk 100 50 1 0)) by by rewrite Hty.
  cbn [Dimensions.inputs].
  rewrite (bool_decide_eq_false_2 (_ ≠ OUTPUT)) by auto.
  unfold resolveInputs. cbn [seq fmap list_fmap].
  by rewrite find_no_driver, Hty.
Qed.

(** The under-connection guard: fewer incoming wires than declared
    inputs, and the gate is not an OUTPUT. *)
Lemma nextValue_underwired g d :
  Gate.type g ≠ OUTPUT →
  GATE_DIMENSIONS (Gate.type g) = Some d →
  length (inputWiresOf wireList g) < Dimensions.inputs d →
  nextValue customGates wireList gs g = Return false.
Proof.
  intros Hout Hd Hlen.
  rewrite (nextValue_primitive g d); [|intros Hin|done].
  - by rewrite !bool_decide_eq_true_2.
  - rewrite Hin in Hd. injection Hd as <-. simpl in Hlen. lia.
Qed.

Lemma nextValue_wiredFormula g v :
  wiredFormula wireList gs g v → nextValue customGates wireList gs g = Return v.
Proof.
  destruct 1; eauto using nextValue_AND, nextValue_OR, nextValue_NOT,
    nextValue_OUTPUT, nextValue_OUTPUT_unwired.
Qed.

End Formulas.

Lemma simulationPass_lookup customGates wireList gs gs' ch i g :
  simulationPass customGates wireList gs = Return (gs', ch) →
  gs !! i = Some g →
  ∃ v, nextValue customGates wireList gs g = Return v
       ∧ gs' !! i = Some (Gate.with_value g v).
Proof.
  intros [Hstep _]%simulationPass_Return Hi.
  destruct (Forall2_lookup_l _ _ _ _ _ Hstep Hi) as (g' & Hi' & v & Hv & ->).
  eauto.
Qed.

(** In a pass of the flat engine over wiring with fan-in at most one, a
    gate whose declared input ports are all wired gets the value of its
    formula on the signals its wires carry at the start of the pass: an AND
    gate the conjunction of its two inputs, an OR gate their disjunction, a
    NOT gate the negation of its input 0; an OUTPUT gate gets the signal of
    its one driver, and [false] when port 0 has no wire. *)
Lemma pass_applies_formula customGates wireList gs gs' ch i g v :
  fanInAtMostOne wireList →
  simulationPass customGates wireList gs = Return (gs', ch) →
  gs !! i = Some g →
  wiredFormula wireList gs g v →
  gs' !! i = Some (Gate.with_value g v).
Proof.
  intros Hfan Hpass Hi Hformula.
  destruct (simulationPass_lookup _ _ _ _ _ _ _ Hpass Hi) as (v' & Hv' & ->).
  apply (nextValue_wiredFormula customGates) in Hformula; [|done].
  congruence.
Qed.

(** On a list that a pass leaves alone, every such gate holds the value
    of its formula on the signals as they are. *)
Lemma settled_gate_formula customGates wireList gs i g v :
  fanInAtMostOne wireList →
  simulationPass customGates wireList gs = Return (gs, false) →
  gs !! i = Some g →
  wiredFormula wireList gs g v →
  Gate.value g = v.
Proof.
  intros Hfan Hpass Hi Hformula.
  destruct (simulationPass_lookup _ _ _ _ _ _ _ Hpass Hi) as (v' & Hv' & Hi').
  apply (nextValue_wiredFormula customGates) in Hformula; [|done].
  assert (v' = v) as -> by congruence.
  rewrite Hi in Hi'. injection Hi' as ->. by destruct g.
Qed.

(** The truth tables, through the whole effect: the gate and the OUTPUT
    behind it show the conjunction, the disjunction and the negation. *)
Lemma truth_tables a b :
  Examples.values
    (logicSimulation ∅ (AppState.mk (Examples.andGates a b) Examples.andWires))
    = Return [a; b; a && b; a && b]
  ∧ Examples.values
      (logicSimulation ∅ (AppState.mk (Examples.orGates a b) Examples.orWires))
    = Return [a; b; a || b; a || b]
  ∧ Examples.values
      (logicSimulation ∅ (AppState.mk (Examples.notGates a) Examples.notWires))
    = Return [a; negb a; negb a].
Proof. by destruct a, b; vm_compute. Qed.


(** ** The under-connection guard across a whole run *)

Section Underwired.

Variable customGates : gmap string Template.t.
Variable wireList : list Wire.t.

(** A value that every pass assigns to position [i], whatever the other
    gates hold, is the value at [i] when [runSimulation] returns. *)
Lemma runSimulation_constant gs result i g v :
  runSimulation customGates gs wireList = Return result →
  gs !! i = Some g →
  (∀ ref p, sameShape g p → nextValue customGates wireList ref p = Return v) →
  result !! i = Some (Gate.with_value g v).
Proof.
  intros (prev & ch & n & Hshape & Hpass & _)%runSimulation_Return Hi Hconst.
  destruct (Forall2_lookup_l _ _ _ _ _ Hshape Hi) as (p & Hp & Hgp).
  destruct (simulationPass_lookup _ _ _ _ _ _ _ Hpass Hp) as (v' & Hv' & ->).
  rewrite (Hconst prev p Hgp) in Hv'. injection Hv' as <-.
  f_equal. symmetry. by apply sameShape_with_value_eq.
Qed.

Lemma underwired_forced_false gs result i g d :
  runSimulation customGates gs wireList = Return result →
  gs !! i = Some g →
  Gate.type g ≠ OUTPUT →
  GATE_DIMENSIONS (Gate.type g) = Some d →
  length (inputWiresOf wireList g) < Dimensions.inputs d →
  result !! i = Some (Gate.with_value g false).
Proof.
  intros Hrun Hi Hout Hd Hlen.
  eapply runSimulation_constant; [done..|].
  intros ref p Hgp. apply (nextValue_underwired _ _ _ p d).
  - by rewrite <- (sameShape_type _ _ Hgp).
  - by rewrite <- (sameShape_type _ _ Hgp).
  - by rewrite <- (inputWiresOf_shape _ _ _ Hgp).
Qed.

End Underwired.

(** C2.  A primitive gate other than an OUTPUT with fewer incoming wires
    than its declared number of inputs (two for AND and OR, one for NOT)
    comes out of [runSimulation] with value [false], whatever values the
    gates held before and whatever the wires that are present carry. *)
Theorem underwired_gate_is_false customGates wireList gs i g d :
  Forall (resolvable customGates) gs →
  gs !! i = Some g →
  Gate.type g ≠ OUTPUT →
  GATE_DIMENSIONS (Gate.type g) = Some d →
  length (inputWiresOf wireList g) < Dimensions.inputs d →
  ∃ result,
    runSimulation customGates gs wireList = Return result
    ∧ result !! i = Some (Gate.with_value g false).
Proof.
  intros Hres Hi Hout Hd Hlen.
  destruct (runSimulation_total customGates wireList gs Hres) as [result Hrun].
  exists result. split; [done|]. by eapply underwired_forced_false.
Qed.

Lemma underwired_gate_is_false_witness :
  ∃ result,
    runSimulation ∅ (Examples.andGates true true) Examples.halfWiredAnd
      = Return result
    ∧ result !! 2 = Some (Examples.gate "and" AND false).
Proof.
  apply (underwired_gate_is_false ∅ Examples.halfWiredAnd
           (Examples.andGates true true) 2 (Examples.gate "and" AND false)
           (Dimensions.mk 80 100 2 1)).
  - by_evaluation.
  - reflexivity.
  - discriminate.
  - reflexivity.
  - vm_compute. lia.
Defined.

(** C3 fails on the code: a NOT gate without any wire is caught by the
    under-connection guard and comes out [false], not [true]. *)
Lemma unconnected_NOT_is_not_true :
  runSimulation ∅ (Examples.loneNot false) [] = Return (Examples.loneNot false)
  ∧ runSimulation ∅ (Examples.loneNot true) [] = Return (Examples.loneNot false)
  ∧ Gate.value <$> Examples.loneNot false ≠ [true].
Proof. split; [|split]; [vm_compute; reflexivity..|discriminate]. Qed.

(** C3, amended.  A NOT gate with no incoming wire comes out of
    [runSimulation] with value [false]: the under-connection guard fires
    before the negation is ever computed. *)
Theorem unconnected_NOT_is_false customGates wireList gs i g :
  Forall (resolvable customGates) gs →
  gs !! i = Some g →
  Gate.type g = NOT →
  inputWiresOf wireList g = [] →
  ∃ result,
    runSimulation customGates gs wireList = Return result
    ∧ result !! i = Some (Gate.with_value g false).
Proof.
  intros Hres Hi Hty Hnone.
  destruct (runSimulation_total customGates wireList gs Hres) as [result Hrun].
  exists result. split; [done|].
  eapply (underwired_forced_false _ _ _ _ _ _ (Dimensions.mk 80 60 1 1));
    [done..| |by rewrite Hty|rewrite Hnone; simpl; lia].
  by rewrite Hty.
Qed.

Lemma unconnected_NOT_is_false_witness :
  ∃ result,
    runSimulation ∅ (Examples.loneNot true) [] = Return result
    ∧ result !! 0 = Some (Examples.gate "not" NOT false).
Proof.
  apply (unconnected_NOT_is_false ∅ [] (Examples.loneNot true) 0
           (Examples.gate "not" NOT true)).
  - by_evaluation.
  - reflexivity.
  - reflexivity.
  - reflexivity.
Defined.

(** ** The expander sweep *)

#[global] Instance sameKind_equiv : Equivalence sameKind.
Proof.
  unfold sameKind. split.
  - by intros a.
  - intros a b (-> & -> & ->). done.
  - intros a b c (-> & -> & ->) (-> & -> & ->). done.
Qed.

Lemma sameShape_sameKind a b : sameShape a b → sameKind a b.
Proof. intros H. unfold sameKind. repeat split; eauto with shape. Qed.

Lemma sameKind_with_ports g ivs ovs : sameKind g (Gate.with_ports g ivs ovs).
Proof. by destruct g. Qed.

Lemma with_ports_same g ivs ovs :
  Gate.with_ports g ivs ovs = g ↔
  Gate.inputValues g = Some ivs ∧ Gate.outputValues g = Some ovs.
Proof.
  destruct g; simpl. split.
  - by intros [= -> ->].
  - by intros [-> ->].
Qed.

Lemma sameKind_with_value g v : sameKind g (Gate.with_value g v).
Proof. by destruct g. Qed.

Lemma Forall2_sameShape_sameKind gs gs' :
  Forall2 sameShape gs gs' → Forall2 sameKind gs gs'.
Proof. intros H. eapply Forall2_impl; [exact H|apply sameShape_sameKind]. Qed.

Section Expander.

Variable customGates : gmap string Template.t.
Variable wires : list Wire.t.

Lemma resolvable_kind a b :
  sameKind a b → resolvable customGates a → resolvable customGates b.
Proof. unfold resolvable, templateKey. by intros (_ & -> & ->). Qed.

Lemma seedInput_kind gs inputDef v : Forall2 sameKind gs (seedInput gs inputDef v).
Proof.
  unfold seedInput.
  destruct (list_find _ gs) as [[k ig]|] eqn:Hfind; [|reflexivity].
  apply list_find_Some in Hfind as (Hk & _ & _).
  rewrite <- (list_insert_id gs k ig) at 1 by done.
  apply Forall2_insert; [reflexivity|apply sameKind_with_value].
Qed.

Lemma innerGates_kind template newInputValues :
  Forall2 sameKind (Template.gates template) (innerGates template newInputValues).
Proof.
  unfold innerGates, seedInputs.
  assert (Forall2 sameKind (Template.gates template) (instantiateGates template))
    as Hinst.
  { unfold instantiateGates. apply Forall2_fmap_r, Forall_Forall2_diag, Forall_forall.
    intros g _. apply sameKind_with_value. }
  revert Hinst. generalize (instantiateGates template) as gs.
  induction (zip (Template.inputs template) newInputValues) as [|[d v] l IH];
    intros gs Hgs; simpl; [done|].
  apply IH. etrans; [exact Hgs|]. apply seedInput_kind.
Qed.

Lemma Forall2_sameKind_resolvable gs gs' :
  Forall2 sameKind gs gs' →
  Forall (resolvable customGates) gs → Forall (resolvable customGates) gs'.
Proof.
  induction 1 as [|a b l k Hab _ IH]; [done|].
  intros [Ha Hl]%Forall_cons. constructor; [|by apply IH].
  by eapply resolvable_kind.
Qed.

Lemma expandable_kind a b :
  sameKind a b → expandable customGates a → expandable customGates b.
Proof. unfold expandable, templateKey. by intros (_ & -> & ->). Qed.

Lemma expandGate_primitive tempGates g :
  Gate.type g ≠ CUSTOM →
  expandGate customGates tempGates wires g = Return (g, false).
Proof. intros H. unfold expandGate. by rewrite decide_True. Qed.

Lemma expandGate_missing tempGates g :
  customGates !! templateKey g = None →
  inherited (templateKey g) = false →
  expandGate customGates tempGates wires g = Return (g, false).
Proof.
  intros H Hown. unfold expandGate. rewrite H, Hown. by destruct (decide _).
Qed.

Lemma expandGate_inherited tempGates g :
  Gate.type g = CUSTOM →
  customGates !! templateKey g = None →
  inherited (templateKey g) = true →
  expandGate customGates tempGates wires g = Throw TypeError.
Proof.
  intros Hty H Hproto. unfold expandGate. rewrite H, Hproto.
  by rewrite decide_False by (by intros []).
Qed.

Lemma expandGate_template tempGates g template :
  Gate.type g = CUSTOM →
  customGates !! templateKey g = Some template →
  expandGate customGates tempGates wires g =
  let newInputValues := newInputValuesOf tempGates wires template g in
  simulatedInternalGates ←
    runSimulation customGates (innerGates template newInputValues)
      (instantiateWires template);
  let newOutputValues := newOutputValuesOf template simulatedInternalGates in
  Return (Gate.with_ports g newInputValues newOutputValues,
          bool_decide (Gate.inputValues g ≠ Some newInputValues)
          || bool_decide (Gate.outputValues g ≠ Some newOutputValues)).
Proof.
  intros Hty Hdef. unfold expandGate. rewrite Hdef.
  by rewrite decide_False by (by intros []).
Qed.

(** The sweep touches nothing but the two port arrays, and flags a change
    exactly when it altered a gate. *)
Lemma expandGate_Return tempGates g g' ch :
  expandGate customGates tempGates wires g = Return (g', ch) →
  sameKind g g' ∧ Gate.value g' = Gate.value g ∧ (ch = false ↔ g' = g).
Proof.
  destruct (decide (Gate.type g = CUSTOM)) as [Hty|Hty].
  - destruct (customGates !! templateKey g) as [template|] eqn:Hdef.
    + rewrite (expandGate_template _ _ template) by done. simpl.
      destruct (runSimulation _ _ _) as [sim|e]; simpl; [|done].
      intros [= <- <-]. split; [apply sameKind_with_ports|]. split; [by destruct g|].
      rewrite orb_false_iff, !bool_decide_eq_false, with_ports_same. split.
      * intros [Hi Ho]. by apply dec_stable in Hi, Ho.
      * intros [Hi Ho]. auto.
    + destruct (inherited (templateKey g)) eqn:Hproto.
      * by rewrite expandGate_inherited.
      * rewrite expandGate_missing by done. intros [= <- <-]. done.
  - rewrite expandGate_primitive by done. intros [= <- <-]. done.
Qed.

Lemma expandGate_total tempGates g :
  resolvable customGates g →
  expandable customGates g →
  ∃ g' ch, expandGate customGates tempGates wires g = Return (g', ch).
Proof.
  intros Hres Hexp.
  destruct (decide (Gate.type g = CUSTOM)) as [Hty|Hty];
    [|rewrite expandGate_primitive by done; eauto].
  destruct (Hres Hty) as [template Hdef].
  rewrite (expandGate_template _ _ template) by done. simpl.
  destruct (runSimulation_total customGates (instantiateWires template)
              (innerGates template (newInputValuesOf tempGates wires template g)))
    as [sim ->]; [|simpl; eauto].
  eapply Forall2_sameKind_resolvable; [apply innerGates_kind|]. by apply Hexp.
Qed.

Lemma mapM_expandGate ref l expanded :
  mapM (expandGate customGates ref wires) l = Return expanded →
  Forall2 (λ g g', sameKind g g' ∧ Gate.value g' = Gate.value g) l expanded.*1
  ∧ (existsb snd expanded = false ↔ expanded.*1 = l).
Proof.
  rewrite mapM_Return. induction 1 as [|g [g' ch] l expanded Hg _ [IH1 IH2]].
  - split; [constructor|done].
  - apply expandGate_Return in Hg as (Hkind & Hval & Hch).
    rewrite fmap_cons. cbn [existsb snd fst]. split.
    + by constructor.
    + rewrite orb_false_iff, IH2, Hch. split; [by intros [-> ->]|].
      by intros [= -> ->].
Qed.

Lemma expandSweep_Return tempGates next ch :
  expandSweep customGates wires tempGates = Return (next, ch) →
  Forall2 (λ g g', sameKind g g' ∧ Gate.value g' = Gate.value g) tempGates next
  ∧ (ch = false ↔ next = tempGates).
Proof.
  unfold expandSweep.
  destruct (mapM _ tempGates) as [expanded|e] eqn:Hm; simpl; [|done].
  intros [= <- <-]. by apply (mapM_expandGate tempGates).
Qed.

Lemma expandSweep_kind tempGates next ch :
  expandSweep customGates wires tempGates = Return (next, ch) →
  Forall2 sameKind tempGates next.
Proof.
  intros [H _]%expandSweep_Return. eapply Forall2_impl; [exact H|]. by intros ?? [].
Qed.

Lemma expandSweep_total tempGates :
  Forall (resolvable customGates) tempGates →
  Forall (expandable customGates) tempGates →
  ∃ next ch, expandSweep customGates wires tempGates = Return (next, ch).
Proof.
  intros Hres Hexp. unfold expandSweep.
  assert (∃ expanded,
            mapM (expandGate customGates tempGates wires) tempGates = Return expanded)
    as [expanded ->]; [|simpl; eauto].
  generalize tempGates at 1 as ref. intros ref. revert Hres.
  induction Hexp as [|g l Hg _ IH]; intros Hres; [by exists []|].
  apply Forall_cons in Hres as [Hr Hres]. destruct (IH Hres) as [expanded Hl].
  destruct (expandGate_total ref g Hr Hg) as (g' & ch & Hg').
  rewrite mapM_completion_cons, Hg', Hl. eauto.
Qed.

Lemma expandGate_recomputedPorts tempGates g :
  expandGate customGates tempGates wires g =
  ports ← recomputedPorts customGates wires tempGates g;
  Return (match ports with
          | None => (g, false)
          | Some (ivs, ovs) =>
              (Gate.with_ports g ivs ovs,
               bool_decide (Gate.inputValues g ≠ Some ivs)
               || bool_decide (Gate.outputValues g ≠ Some ovs))
          end).
Proof.
  unfold expandGate, recomputedPorts, innerGates.
  destruct (decide (Gate.type g ≠ CUSTOM)); [done|].
  destruct (customGates !! templateKey g) as [template|];
    [|by destruct (inherited _)]. simpl.
  by destruct (runSimulation _ _ _).
Qed.

Lemma quiet_mapM ref l expanded :
  Forall2 (λ g y, expandGate customGates ref wires g = Return y) l expanded →
  expanded.*1 = l ↔
  ∀ g ivs ovs,
    g ∈ l →
    recomputedPorts customGates wires ref g = Return (Some (ivs, ovs)) →
    Gate.inputValues g = Some ivs ∧ Gate.outputValues g = Some ovs.
Proof.
  induction 1 as [|g [g' c] l expanded Hg _ IH].
  - split; [|done]. by intros _ g ivs ovs ?%elem_of_nil.
  - rewrite expandGate_recomputedPorts in Hg. rewrite fmap_cons. simpl. split.
    + intros [= -> Hl] g0 ivs ovs [->|Hin]%elem_of_cons Hports.
      * rewrite Hports in Hg. simpl in Hg. injection Hg as Hg _.
        by apply with_ports_same.
      * by apply (proj1 IH Hl g0).
    + intros Hall. f_equal.
      * destruct (recomputedPorts customGates wires ref g) as [[[ivs ovs]|]|e]
          eqn:Hports; simpl in Hg; [|by injection Hg as <- _|discriminate Hg].
        injection Hg as <- _. apply with_ports_same, Hall; [left|done].
      * apply IH. intros g0 ivs ovs Hin. apply Hall. by right.
Qed.

(** The sweep alters no gate exactly when every composite gate with a
    template already holds the port arrays the sweep computes for it. *)
Lemma quiet_sweep tempGates swept ch :
  expandSweep customGates wires tempGates = Return (swept, ch) →
  swept = tempGates ↔
  ∀ g ivs ovs,
    g ∈ tempGates →
    recomputedPorts customGates wires tempGates g = Return (Some (ivs, ovs)) →
    Gate.inputValues g = Some ivs ∧ Gate.outputValues g = Some ovs.
Proof.
  unfold expandSweep.
  destruct (mapM _ tempGates) as [expanded|e] eqn:Hm; simpl; [|done].
  intros [= <- <-]. apply mapM_Return in Hm. by apply quiet_mapM.
Qed.

(** The two ways a gate comes out of the sweep. *)
Lemma expandGate_cases tempGates g g' ch :
  expandGate customGates tempGates wires g = Return (g', ch) →
  ((Gate.type g ≠ CUSTOM ∨ customGates !! templateKey g = None) ∧ g' = g)
  ∨ (Gate.type g = CUSTOM
     ∧ ∃ template simulated,
         customGates !! templateKey g = Some template
         ∧ runSimulation customGates
             (innerGates template (newInputValuesOf tempGates wires template g))
             (instantiateWires template) = Return simulated
         ∧ g' = Gate.with_ports g (newInputValuesOf tempGates wires template g)
                  (newOutputValuesOf template simulated)).
Proof.
  destruct (decide (Gate.type g = CUSTOM)) as [Hty|Hty].
  - destruct (customGates !! templateKey g) as [template|] eqn:Hdef.
    + rewrite (expandGate_template _ _ template) by done. simpl.
      destruct (runSimulation _ _ _) as [simulated|e] eqn:Hsim; simpl; [|done].
      intros [= <- _]. right. split; [done|]. by exists template, simulated.
    + destruct (inherited (templateKey g)) eqn:Hproto;
        [by rewrite expandGate_inherited|].
      rewrite expandGate_missing by done. intros [= <- _]. left.
      split; [by right|done].
  - rewrite expandGate_primitive by done. intros [= <- _]. left. split; [by left|done].
Qed.

Lemma mapM_flagged {A B C} (f : A → completion (B * C)) (l : list A) k :
  mapM f l = Return k → Forall2 (λ x y, ∃ c, f x = Return (y, c)) l k.*1.
Proof.
  rewrite mapM_Return. induction 1 as [|x [y c] l k Hx _ IH]; [constructor|].
  rewrite fmap_cons. constructor; [by exists c|done].
Qed.

Lemma expandSweep_gates tempGates next ch :
  expandSweep customGates wires tempGates = Return (next, ch) →
  Forall2 (λ g g', ∃ c, expandGate customGates tempGates wires g = Return (g', c))
    tempGates next.
Proof.
  unfold expandSweep.
  destruct (mapM _ tempGates) as [expanded|e] eqn:Hm; simpl; [|done].
  intros [= <- _]. by apply mapM_flagged.
Qed.

End Expander.

(** ** The main loop *)

Section MainLoop.

Variable customGates : gmap string Template.t.
Variable wires : list Wire.t.

Lemma mainRound_Return tempGates next ch :
  mainRound customGates wires tempGates = Return (next, ch) ↔
  ∃ swept,
    expandSweep customGates wires tempGates = Return (swept, ch)
    ∧ runSimulation customGates swept wires = Return next.
Proof.
  unfold mainRound.
  destruct (expandSweep customGates wires tempGates) as [[swept ch']|e].
  - destruct (runSimulation customGates swept wires) as [sim|e] eqn:Hrun.
    + split.
      * intros [= <- <-]. eauto.
      * intros (swept' & [= <- <-] & Hrun'). congruence.
    + split; [done|]. intros (swept' & [= <- <-] & Hrun'). congruence.
  - split; [done|]. by intros (swept' & [=] & _).
Qed.

Lemma Forall2_sameKind_expandable gs gs' :
  Forall2 sameKind gs gs' →
  Forall (expandable customGates) gs → Forall (expandable customGates) gs'.
Proof.
  induction 1 as [|a b l k Hab _ IH]; [done|].
  intros [Ha Hl]%Forall_cons. constructor; [|by apply IH].
  by eapply expandable_kind.
Qed.

Lemma mainRound_kind tempGates next ch :
  mainRound customGates wires tempGates = Return (next, ch) →
  Forall2 sameKind tempGates next.
Proof.
  intros (swept & Hsweep & Hrun)%mainRound_Return.
  etrans; [by eapply expandSweep_kind|].
  by eapply Forall2_sameShape_sameKind, runSimulation_shape.
Qed.

Lemma mainRound_total tempGates :
  Forall (resolvable customGates) tempGates →
  Forall (expandable customGates) tempGates →
  ∃ next ch, mainRound customGates wires tempGates = Return (next, ch).
Proof.
  intros Hres Hexp.
  destruct (expandSweep_total customGates wires tempGates Hres Hexp)
    as (swept & ch & Hsweep).
  destruct (runSimulation_total customGates wires swept) as [next Hrun].
  { eapply Forall2_sameKind_resolvable; [|exact Hres]. by eapply expandSweep_kind. }
  exists next, ch. apply mainRound_Return. eauto.
Qed.

(** A composite gate without a template makes the round throw: if the
    sweep gets through, the call of [runSimulation] that follows does not. *)
Lemma mainRound_Throw tempGates :
  ¬ Forall (resolvable customGates) tempGates →
  ∃ e, mainRound customGates wires tempGates = Throw e.
Proof.
  intros Hres. unfold mainRound.
  destruct (expandSweep customGates wires tempGates) as [[swept ch]|e] eqn:Hsweep;
    [|eauto].
  destruct (runSimulation_Throw customGates wires swept) as [e ->]; [|eauto].
  intros Hswept. apply Hres.
  eapply Forall2_sameKind_resolvable; [|exact Hswept].
  symmetry. by eapply expandSweep_kind.
Qed.

(** Whatever the main loop returns came out of a round that started from
    gates of the same kinds; [mainIterations] grew by at least one and at
    most the budget, and stopping short of the budget means the sweep of
    that last round flagged no change. *)
Lemma mainLoop_Return remaining mainIterations tempGates result n :
  mainLoop customGates (S remaining) mainIterations wires tempGates
    = Return (result, n) →
  ∃ prev ch,
    Forall2 sameKind tempGates prev
    ∧ mainRound customGates wires prev = Return (result, ch)
    ∧ mainIterations < n ≤ mainIterations + S remaining
    ∧ (n < mainIterations + S remaining → ch = false).
Proof.
  revert mainIterations tempGates.
  induction remaining as [|remaining IH]; intros mainIterations tempGates; simpl.
  - destruct (mainRound customGates wires tempGates) as [[next ch]|e] eqn:Hr;
      [|done].
    destruct ch; intros [= <- <-]; exists tempGates; eexists;
      (split; [reflexivity|]); (split; [exact Hr|]);
      (split; [lia|intros ?; first [done|lia]]).
  - destruct (mainRound customGates wires tempGates) as [[next ch]|e] eqn:Hr;
      [|done].
    destruct ch.
    + intros Hloop. apply IH in Hloop as (prev & ch & Hkind & Hround & Hn & Hstop).
      exists prev, ch.
      split; [|split; [done|split; [lia|intros ?; apply Hstop; lia]]].
      etrans; [|exact Hkind]. by eapply mainRound_kind.
    + intros [= <- <-]. exists tempGates, false.
      split; [reflexivity|]. split; [done|]. split; [lia|done].
Qed.

Lemma mainLoop_total remaining mainIterations tempGates :
  Forall (resolvable customGates) tempGates →
  Forall (expandable customGates) tempGates →
  ∃ result n,
    mainLoop customGates remaining mainIterations wires tempGates
      = Return (result, n).
Proof.
  revert mainIterations tempGates.
  induction remaining as [|remaining IH]; intros mainIterations tempGates Hres Hexp;
    simpl; [eauto|].
  destruct (mainRound_total tempGates Hres Hexp) as (next & ch & Hr).
  rewrite Hr. destruct ch; [|eauto].
  pose proof (mainRound_kind _ _ _ Hr) as Hkind.
  apply IH.
  - by eapply Forall2_sameKind_resolvable.
  - by eapply Forall2_sameKind_expandable.
Qed.

Lemma mainLoop_Throw remaining mainIterations tempGates :
  ¬ Forall (resolvable customGates) tempGates →
  ∃ e, mainLoop customGates (S remaining) mainIterations wires tempGates = Throw e.
Proof.
  intros Hres. simpl. destruct (mainRound_Throw tempGates Hres) as [e ->]. eauto.
Qed.

End MainLoop.

(** ** The whole effect *)

Section Effect.

Variable customGates : gmap string Template.t.

Lemma logicSimulation_Return s s' :
  logicSimulation customGates s = Return s' ↔
  ∃ n, logicSimulationCounted customGates s = Return (AppState.gates s', n)
       ∧ AppState.wires s' = AppState.wires s.
Proof.
  unfold logicSimulation.
  destruct (logicSimulationCounted customGates s) as [[r n]|e]; simpl.
  - split.
    + intros [= <-]. eauto.
    + intros (n' & [= -> ->] & Hw). destruct s'; simpl in *. by subst.
  - split; [done|]. by intros (n' & [=] & _).
Qed.

(** The effect returns whenever every composite gate on the canvas, and
    every composite gate inside the templates the canvas uses, has its
    template in the library; it then took between one and ten rounds and
    kept the gates' kinds, so that every gate has a boolean value. *)
Lemma logicSimulation_total s :
  Forall (resolvable customGates) (AppState.gates s) →
  Forall (expandable customGates) (AppState.gates s) →
  ∃ result n,
    logicSimulationCounted customGates s = Return (result, n)
    ∧ 1 ≤ n ≤ MAX_MAIN_ITERATIONS
    ∧ Forall2 sameKind (AppState.gates s) result.
Proof.
  intros Hres Hexp. unfold logicSimulationCounted.
  destruct (mainLoop_total customGates (AppState.wires s) MAX_MAIN_ITERATIONS 0
              (AppState.gates s) Hres Hexp) as (result & n & Hloop).
  exists result, n. split; [done|].
  apply mainLoop_Return in Hloop as (prev & ch & Hkind & Hround & Hn & _).
  split; [unfold MAX_MAIN_ITERATIONS; lia|].
  etrans; [exact Hkind|]. by eapply mainRound_kind.
Qed.

Lemma logicSimulation_Throw s :
  ¬ Forall (resolvable customGates) (AppState.gates s) →
  ∃ e, logicSimulation customGates s = Throw e.
Proof.
  intros Hres. unfold logicSimulation, logicSimulationCounted.
  destruct (mainLoop_Throw customGates (AppState.wires s) 9 0 (AppState.gates s) Hres)
    as [e He].
  change MAX_MAIN_ITERATIONS with 10. rewrite He. simpl. eauto.
Qed.

(** The under-connection guard seen from outside: an under-wired primitive
    gate other than an OUTPUT is [false] in the state the effect returns. *)
Lemma effect_underwired s s' i g d :
  logicSimulation customGates s = Return s' →
  AppState.gates s !! i = Some g →
  Gate.type g ≠ OUTPUT →
  GATE_DIMENSIONS (Gate.type g) = Some d →
  length (inputWiresOf (AppState.wires s) g) < Dimensions.inputs d →
  ∃ g', AppState.gates s' !! i = Some g' ∧ sameKind g g' ∧ Gate.value g' = false.
Proof.
  intros (n & Hrun & _)%logicSimulation_Return Hi Hout Hd Hlen.
  apply mainLoop_Return in Hrun as (prev & ch & Hkind & Hround & _).
  apply mainRound_Return in Hround as (swept & Hsweep & Hsim).
  apply expandSweep_kind in Hsweep.
  assert (Forall2 sameKind (AppState.gates s) swept) as Hks by by etrans.
  destruct (Forall2_lookup_l _ _ _ _ _ Hks Hi) as (p & Hp & Hgp).
  pose proof Hgp as (Hid & Hty & _).
  exists (Gate.with_value p false). split; [|split].
  - eapply underwired_forced_false; [exact Hsim|exact Hp| | |].
    + by rewrite <- Hty.
    + by rewrite <- Hty.
    + unfold inputWiresOf in *. by rewrite <- Hid.
  - etrans; [exact Hgp|apply sameKind_with_value].
  - by destruct p.
Qed.

End Effect.

(** ** Composite gates whose template is gone *)

(** C4 does not hold of the code.  The loops are bounded, but the effect
    throws instead of returning whenever the canvas holds a composite gate
    whose template is not in the library: the sweep skips the gate, and the
    call of [runSimulation] that follows reads [GATE_DIMENSIONS['CUSTOM'].inputs]. *)
Theorem missing_template_throws customGates s g :
  g ∈ AppState.gates s →
  Gate.type g = CUSTOM →
  customGates !! templateKey g = None →
  ∃ e, logicSimulation customGates s = Throw e.
Proof.
  intros Hin Hty Hdef. apply logicSimulation_Throw.
  rewrite Forall_forall. intros Hall.
  destruct (Hall g Hin Hty) as [template Htemplate]. congruence.
Qed.

Lemma missing_template_throws_witness :
  ∃ e, logicSimulation ∅ Broken.orphanCanvas = Throw e.
Proof.
  apply (missing_template_throws ∅ Broken.orphanCanvas Broken.orphan).
  - by_evaluation.
  - reflexivity.
  - reflexivity.
Defined.

(** What does hold of C4: feedback never keeps the loops from ending.  A
    NOT gate fed back into itself flips on each of the fifty passes and the
    effect returns after a single round. *)
Lemma feedback_NOT_returns v :
  runSimulationCounted ∅ (Examples.loneNot v) Examples.feedbackWire
    = Return (Examples.loneNot v, MAX_ITERATIONS)
  ∧ logicSimulationCounted ∅
      (AppState.mk (Examples.loneNot v) Examples.feedbackWire)
    = Return (Examples.loneNot v, 1).
Proof. destruct v; split; vm_compute; reflexivity. Qed.


Lemma stepGate_unresolvable customGates ref wireList g :
  Gate.type g = CUSTOM →
  customGates !! templateKey g = None →
  stepGate customGates ref wireList g = Throw TypeError.
Proof.
  intros Hty Hdef. unfold stepGate, numInputsOf.
  rewrite decide_False by (by rewrite Hty). by rewrite Hty, Hdef.
Qed.

(** A composite gate whose template has a composite gate without template
    inside makes the sweep throw. *)
Lemma expandGate_Throw customGates tempGates wires g template :
  Gate.type g = CUSTOM →
  customGates !! templateKey g = Some template →
  ¬ Forall (resolvable customGates) (Template.gates template) →
  ∃ e, expandGate customGates tempGates wires g = Throw e.
Proof.
  intros Hty Hdef Hinner. rewrite (expandGate_template _ _ _ _ _ Hty Hdef). simpl.
  destruct (runSimulation_Throw customGates (instantiateWires template)
              (innerGates template (newInputValuesOf tempGates wires template g)))
    as [e ->]; [|by eexists].
  intros Hres. apply Hinner.
  eapply Forall2_sameKind_resolvable; [|exact Hres].
  symmetry. apply innerGates_kind.
Qed.

Lemma mainRound_Throw_inside customGates wires tempGates :
  ¬ Forall (expandable customGates) tempGates →
  ∃ e, mainRound customGates wires tempGates = Throw e.
Proof.
  intros Hexp.
  assert (∃ g template,
            g ∈ tempGates ∧ Gate.type g = CUSTOM
            ∧ customGates !! templateKey g = Some template
            ∧ ¬ Forall (resolvable customGates) (Template.gates template))
    as (g & template & Hin & Hty & Hdef & Hinner).
  { induction tempGates as [|g gs IH]; [by destruct Hexp|].
    destruct (decide (Gate.type g = CUSTOM)) as [Hty|Hty].
    - destruct (customGates !! templateKey g) as [template|] eqn:Hdef.
      + destruct (decide (Forall (resolvable customGates) (Template.gates template)))
          as [Hinner|Hinner].
        * destruct IH as (g' & t' & Hin & H).
          { intros Hgs. apply Hexp. constructor; [|done].
            intros _ t Ht. congruence. }
          exists g', t'. split; [by right|done].
        * exists g, template. split; [by left|done].
      + destruct IH as (g' & t' & Hin & H).
        { intros Hgs. apply Hexp. constructor; [|done].
          intros _ t Ht. congruence. }
        exists g', t'. split; [by right|done].
    - destruct IH as (g' & t' & Hin & H).
      { intros Hgs. apply Hexp. constructor; [|done]. by intros ?. }
      exists g', t'. split; [by right|done]. }
  destruct (expandGate_Throw customGates tempGates wires g template Hty Hdef Hinner)
    as [e He].
  destruct (mapM_Throw (expandGate customGates tempGates wires) tempGates g e Hin He)
    as [e' He'].
  exists e'. unfold mainRound, expandSweep. by rewrite He'.
Qed.

(** The effect returns exactly when every composite gate on the canvas,
    and every composite gate inside the templates the canvas uses, has its
    template in the library. *)
Lemma logicSimulation_returns_iff customGates s :
  (∃ s', logicSimulation customGates s = Return s')
  ↔ Forall (resolvable customGates) (AppState.gates s)
    ∧ Forall (expandable customGates) (AppState.gates s).
Proof.
  split.
  - intros [s' Hs'].
    destruct (decide (Forall (resolvable customGates) (AppState.gates s)))
      as [Hres|Hres].
    + split; [done|].
      assert (¬ ¬ Forall (expandable customGates) (AppState.gates s)) as Hnn.
      { intros Hexp.
        destruct (mainRound_Throw_inside customGates (AppState.wires s) _ Hexp)
          as [e He].
        unfold logicSimulation, logicSimulationCounted in Hs'.
        change MAX_MAIN_ITERATIONS with 10 in Hs'. simpl in Hs'.
        by rewrite He in Hs'. }
      apply Forall_forall. intros g Hg Hty template Hdef.
      destruct (decide (Forall (resolvable customGates) (Template.gates template)))
        as [|Hinner]; [done|].
      destruct Hnn. intros Hall.
      rewrite Forall_forall in Hall. by apply Hinner, (Hall g Hg Hty).
    + destruct (logicSimulation_Throw customGates s Hres) as [e He]. congruence.
  - intros [Hres Hexp].
    destruct (logicSimulation_total customGates s Hres Hexp) as (r & n & Hr & _).
    eexists. unfold logicSimulation. by rewrite Hr.
Qed.

(** C6 does not hold of the code, by the defect of C4.  A composite gate
    whose template is not in the library makes the effect throw, so that
    no state is returned in which the gate could be inert.  Where it
    throws depends on the name.  A name that [Object.prototype] has gets
    past the guard [!template], and the sweep throws at
    [template.inputs.map].  Any other name is stopped by the guard, which
    returns the gate as it is, port arrays included, and the pass of
    [runSimulation] that follows throws on the gate at
    [GATE_DIMENSIONS['CUSTOM'].inputs]. *)
Theorem missing_template_is_a_failure customGates s g :
  g ∈ AppState.gates s →
  Gate.type g = CUSTOM →
  customGates !! templateKey g = None →
  logicSimulation customGates s = Throw TypeError
  ∧ (∀ tempGates,
       expandGate customGates tempGates (AppState.wires s) g
       = if inherited (templateKey g) then Throw TypeError else Return (g, false))
  ∧ (∀ internalTempGates,
       stepGate customGates internalTempGates (AppState.wires s) g = Throw TypeError).
Proof.
  intros Hin Hty Hdef. split; [|split].
  - destruct (logicSimulation_Throw customGates s) as [[] He]; [|done].
    rewrite Forall_forall. intros Hall.
    destruct (Hall g Hin Hty) as [template Htemplate]. congruence.
  - intros tempGates. destruct (inherited (templateKey g)) eqn:Hproto.
    + by apply expandGate_inherited.
    + by apply expandGate_missing.
  - intros ref. by apply stepGate_unresolvable.
Qed.

Lemma missing_template_is_a_failure_witness :
  logicSimulation ∅ Broken.orphanCanvas = Throw TypeError
  ∧ expandGate ∅ [Broken.orphan] [] Broken.orphan = Return (Broken.orphan, false)
  ∧ stepGate ∅ [Broken.orphan] [] Broken.orphan = Throw TypeError.
Proof.
  destruct (missing_template_is_a_failure ∅ Broken.orphanCanvas Broken.orphan)
    as (Hthrow & Hsweep & Hpass).
  - by_evaluation.
  - reflexivity.
  - reflexivity.
  - split; [exact Hthrow|]. split.
    + exact (Hsweep [Broken.orphan]).
    + exact (Hpass [Broken.orphan]).
Defined.

(** The same with a name of [Object.prototype]: the sweep itself throws. *)
Lemma inherited_name_throws_in_sweep :
  inherited (templateKey Broken.namesake) = true
  ∧ expandSweep ∅ [] [Broken.namesake] = Throw TypeError
  ∧ logicSimulation ∅ (AppState.mk [Broken.namesake] []) = Throw TypeError.
Proof. repeat split; vm_compute; reflexivity. Qed.

(** ** The scalar value of a composite gate *)

Lemma nextValue_CUSTOM customGates wireList ref g v :
  Gate.type g = CUSTOM →
  nextValue customGates wireList ref g = Return v → v = false.
Proof.
  intros Hty. unfold nextValue.
  rewrite decide_False by (by rewrite Hty).
  destruct (numInputsOf customGates g) as [n|e]; simpl; [|done].
  intros [= <-]. rewrite Hty. simpl. by destruct (bool_decide _).
Qed.

(** C9.  In the state the effect returns, the scalar [value] of every
    composite gate is [false]: each pass of [runSimulation] either trips the
    under-connection guard on it or finds no formula for its type. *)
Theorem composite_value_is_false customGates s s' g :
  logicSimulation customGates s = Return s' →
  g ∈ AppState.gates s' →
  Gate.type g = CUSTOM →
  Gate.value g = false.
Proof.
  intros (n & Hrun & _)%logicSimulation_Return Hin Hty.
  apply mainLoop_Return in Hrun as (prev & ch & _ & Hround & _).
  apply mainRound_Return in Hround as (swept & _ & Hsim).
  apply runSimulation_Return in Hsim as (prev' & ch' & n' & _ & Hpass & _).
  apply simulationPass_Return in Hpass as [Hstep _].
  apply list_elem_of_lookup in Hin as [i Hi].
  destruct (Forall2_lookup_r _ _ _ _ _ Hstep Hi) as (p & _ & v & Hv & ->).
  assert (Gate.type p = CUSTOM) as Hp by (by destruct p).
  apply (nextValue_CUSTOM _ _ _ _ _ Hp) in Hv. subst v. by destruct p.
Qed.

(** ** A NAND built as a composite gate *)

Lemma nand_template_saved :
  handleSaveCustomGate "NAND" Nand.selection Nand.drawing = Some Nand.template.
Proof. vm_compute. reflexivity. Qed.

(** C7.  An instance of the template "NAND" (two INPUTs into an AND, a NOT
    behind it, an OUTPUT) whose two input ports are driven with [a] and
    [b] yields the output [false] for (true, true) and [true] for the three
    other combinations, on its output port and on an OUTPUT gate wired to it. *)
Theorem nand_truth_table (a b : bool) :
  ∃ s',
    logicSimulation Nand.library (Nand.canvas a b) = Return s'
    ∧ Nand.instanceOutputs s' = Some [negb (a && b)]
    ∧ Nand.lampValue s' = Some (negb (a && b)).
Proof. destruct a, b; eexists; (split; [vm_compute; reflexivity|]); by vm_compute. Qed.

Lemma composite_value_is_false_witness :
  ∃ s' g,
    Gate.value <$> AppState.gates (Nand.markedCanvas true false)
      = [true; false; false; true]
    ∧ logicSimulation Nand.library (Nand.markedCanvas true false) = Return s'
    ∧ AppState.gates s' !! 3 = Some g
    ∧ Gate.type g = CUSTOM
    ∧ Gate.value g = false.
Proof.
  eexists _, _. split; [reflexivity|]. split; [vm_compute; reflexivity|].
  split; [reflexivity|]. split; [reflexivity|].
  eapply (composite_value_is_false Nand.library (Nand.markedCanvas true false)).
  - vm_compute; reflexivity.
  - apply list_elem_of_lookup. exists 3. reflexivity.
  - reflexivity.
Defined.

(** ** When the main loop stops *)

(** C8 fails on the code.  On the chain [Stale.canvas] the first round
    changes the NOT gate, yet the loop stops after it, with the buffer and
    the OUTPUT gate still [false]; the loop of the specification goes on
    for three rounds and ends with both [true]. *)
Lemma main_loop_ignores_flat_changes :
  ∃ final final',
    logicSimulationCounted Stale.library Stale.canvas = Return (final, 1)
    ∧ specifiedMainLoop Stale.library MAX_MAIN_ITERATIONS 0
        (AppState.wires Stale.canvas) (AppState.gates Stale.canvas)
      = Return (final', 3)
    ∧ final ≠ AppState.gates Stale.canvas
    ∧ Gate.value <$> final = [false; true; false; false]
    ∧ Gate.value <$> final' = [false; true; false; true].
Proof.
  eexists _, _. split; [vm_compute; reflexivity|].
  split; [vm_compute; reflexivity|]. split; [discriminate|].
  split; reflexivity.
Qed.

Lemma mainLoop_outerRun customGates wires remaining rounds tempGates final n :
  mainLoop customGates remaining rounds wires tempGates = Return (final, n)
  ∧ 0 < remaining
  ↔ outerRun customGates wires remaining rounds tempGates final n.
Proof.
  split.
  - intros [Hloop Hpos]. revert rounds tempGates Hloop.
    induction remaining as [|remaining IH]; intros rounds tempGates; [lia|].
    simpl.
    destruct (mainRound customGates wires tempGates) as [[next ch]|e] eqn:Hround;
      [|done].
    apply mainRound_Return in Hround as (swept & Hsweep & Hrun).
    pose proof (expandSweep_Return _ _ _ _ _ Hsweep) as [_ Hch].
    destruct ch.
    + destruct remaining as [|remaining].
      * intros [= <- <-]. eapply outer_stop; eauto.
      * intros Hloop. eapply outer_again; [done..| |apply IH; [lia|done]].
        intros Heq. by apply Hch in Heq.
    + intros [= <- <-]. eapply outer_stop; [done..|]. left. by apply Hch.
  - induction 1 as [remaining rounds tempGates swept ch next Hsweep Hrun Hstop
                   |remaining rounds tempGates swept ch next final n
                      Hsweep Hrun Hne _ [IH Hpos]].
    + split; [|lia]. simpl.
      assert (mainRound customGates wires tempGates = Return (next, ch)) as ->.
      { apply mainRound_Return. eauto. }
      pose proof (expandSweep_Return _ _ _ _ _ Hsweep) as [_ Hch].
      destruct Hstop as [Heq| ->].
      * apply Hch in Heq. by subst ch.
      * by destruct ch.
    + split; [|lia]. simpl.
      assert (mainRound customGates wires tempGates = Return (next, ch)) as ->.
      { apply mainRound_Return. eauto. }
      pose proof (expandSweep_Return _ _ _ _ _ Hsweep) as [_ Hch].
      destruct ch; [done|]. destruct Hne. by apply Hch.
Qed.

Lemma outerRun_rounds customGates wires remaining rounds tempGates final n :
  outerRun customGates wires remaining rounds tempGates final n →
  rounds < n ≤ rounds + remaining.
Proof. induction 1; lia. Qed.

(** C8, amended.  The main loop alternates one expander sweep with one run
    of the flat engine over the outer gates, and it stops after the first
    round whose sweep altered no gate (every composite gate already held
    the recomputed [inputValues] and [outputValues], lemma [quiet_sweep])
    or when ten rounds are used up; the changes the flat engine makes are
    not looked at. *)
Theorem main_loop_stops_on_quiet_sweep customGates s final n :
  logicSimulationCounted customGates s = Return (final, n) ↔
  outerRun customGates (AppState.wires s) MAX_MAIN_ITERATIONS 0
    (AppState.gates s) final n.
Proof.
  rewrite <- mainLoop_outerRun. unfold logicSimulationCounted, MAX_MAIN_ITERATIONS.
  split; [intros H; split; [done|lia]|by intros [H _]].
Qed.

(** ** Feedback-free canvases settle *)

Section Layered.

Variable customGates : gmap string Template.t.
Variable wireList : list Wire.t.

(** A layering of the canvas: every wire runs from a lower layer to a
    higher one, so that the wiring has no cycle. *)
Variable rank : string → nat.

Hypothesis layered :
  ∀ w, w ∈ wireList →
    rank (Endpoint.gateId (Wire.from w)) < rank (Endpoint.gateId (Wire.to w)).

Lemma sourceValue_cons a l w :
  sourceValue (a :: l) w =
  if decide (Gate.id a = Endpoint.gateId (Wire.from w))
  then gateOutput a (Endpoint.portIndex (Wire.from w))
  else sourceValue l w.
Proof.
  unfold sourceValue. cbn [list_find].
  destruct (decide (Gate.id a = _)); [done|].
  by destruct (list_find _ l) as [[? ?]|].
Qed.

Lemma sourceValue_agree k A B w :
  agreeBelow rank k A B →
  rank (Endpoint.gateId (Wire.from w)) < k →
  sourceValue A w = sourceValue B w.
Proof.
  intros Hagree Hrank.
  induction Hagree as [|a b A B [Hshape Heq] _ IH]; [done|].
  rewrite !sourceValue_cons, <- (sameShape_id _ _ Hshape).
  destruct (decide (Gate.id a = _)) as [Hid|Hid]; [|done].
  rewrite Heq; [done|]. left. by rewrite Hid.
Qed.

Lemma resolveInputs_agree k A B inputWires numInputs :
  agreeBelow rank k A B →
  (∀ w, w ∈ inputWires → rank (Endpoint.gateId (Wire.from w)) < k) →
  resolveInputs A inputWires numInputs = resolveInputs B inputWires numInputs.
Proof.
  intros Hagree Hrank. unfold resolveInputs.
  apply list_fmap_ext. intros _ i _.
  destruct (list_find _ inputWires) as [[j w]|] eqn:Hfind; [|done].
  apply list_find_Some in Hfind as (Hj & _).
  eapply sourceValue_agree; [done|].
  by eapply Hrank, list_elem_of_lookup_2.
Qed.

Lemma nextValue_agree k A B a b :
  agreeBelow rank k A B → sameShape a b →
  Gate.type a ≠ INPUT → rank (Gate.id a) ≤ k →
  nextValue customGates wireList A a = nextValue customGates wireList B b.
Proof.
  intros Hagree Hshape Hin Hrank. unfold nextValue.
  rewrite <- (sameShape_type _ _ Hshape), <- (numInputsOf_shape _ _ _ Hshape),
    <- (inputWiresOf_shape _ _ _ Hshape).
  rewrite !decide_False by done.
  destruct (numInputsOf customGates a) as [n|e]; simpl; [|done].
  rewrite (resolveInputs_agree k A B); [done..|].
  intros w [Hto Hw]%list_elem_of_filter.
  specialize (layered w Hw). rewrite Hto in layered. lia.
Qed.

(** What a pass does to two related lists, each read against its own
    reference list. *)
Lemma stepsTo_agree k refA refB A B A' B' :
  agreeBelow rank k refA refB → agreeBelow rank k A B →
  Forall2 (stepsTo customGates wireList refA) A A' →
  Forall2 (stepsTo customGates wireList refB) B B' →
  agreeBelow rank (S k) A' B'.
Proof.
  intros Href Hab. revert A' B'.
  induction Hab as [|a b A0 B0 [Hshape Heq] _ IH]; intros A' B' HA HB.
  - inversion HA. inversion HB. constructor.
  - inversion HA as [|? a' ? A1 (va & Hva & ->) HA1]; subst.
    inversion HB as [|? b' ? B1 (vb & Hvb & ->) HB1]; subst.
    constructor; [|by apply IH]. split.
    + etrans; [symmetry; apply sameShape_with_value|].
      etrans; [exact Hshape|]. apply sameShape_with_value.
    + assert (Gate.id (Gate.with_value a va) = Gate.id a) as -> by by destruct a.
      assert (Gate.type (Gate.with_value a va) = Gate.type a) as -> by by destruct a.
      intros Hcase.
      destruct (decide (Gate.type a = INPUT)) as [Hin|Hin].
      * rewrite <- (Heq (or_intror Hin)) in *.
        unfold nextValue in Hva, Hvb. rewrite decide_True in Hva, Hvb by done.
        congruence.
      * destruct Hcase as [Hrank|]; [|done].
        rewrite (nextValue_agree k refA refB a b) in Hva by (done || lia).
        replace vb with va by congruence.
        by apply sameShape_with_value_eq.
Qed.

Lemma agreeBelow_pass gs next ch :
  simulationPass customGates wireList gs = Return (next, ch) →
  agreeBelow rank 0 gs next.
Proof.
  intros [Hstep _]%simulationPass_Return.
  eapply Forall2_impl; [exact Hstep|].
  intros a b (v & Hv & ->). split; [apply sameShape_with_value|].
  intros [?|Hin]; [lia|].
  unfold nextValue in Hv. rewrite decide_True in Hv by done.
  injection Hv as <-. by rewrite with_value_same.
Qed.

Lemma agreeBelow_eq k A B :
  agreeBelow rank k A B → Forall (λ g, rank (Gate.id g) < k) A → A = B.
Proof.
  induction 1 as [|a b A B [_ Heq] _ IH]; [done|].
  intros [Ha HA]%Forall_cons. f_equal; auto.
Qed.

(** Once the passes have climbed past every layer, the list is a fixed
    point of the pass; the loop ends on such a list if its budget reaches
    beyond the highest layer. *)
Lemma simulationLoop_settles remaining k iterations gs :
  Forall (resolvable customGates) gs →
  (∀ next ch, simulationPass customGates wireList gs = Return (next, ch) →
              agreeBelow rank k gs next) →
  Forall (λ g, rank (Gate.id g) < k + remaining) gs →
  ∃ result n,
    simulationLoop customGates remaining iterations wireList gs = Return (result, n)
    ∧ simulationPass customGates wireList result = Return (result, false)
    ∧ Forall2 sameShape gs result.
Proof.
  revert k iterations gs.
  induction remaining as [|remaining IH]; intros k iterations gs Hres Hagree Hrank.
  - destruct (simulationPass_total customGates wireList gs Hres) as (next & ch & Hp).
    exists gs, iterations. split; [done|]. split; [|reflexivity].
    assert (gs = next) as <-.
    { eapply agreeBelow_eq; [by eapply Hagree|].
      eapply Forall_impl; [exact Hrank|]. simpl. intros; lia. }
    apply simulationPass_Return in Hp as Hp'. destruct Hp' as [_ Hch].
    by replace ch with false in Hp by (symmetry; by apply Hch).
  - simpl.
    destruct (simulationPass_total customGates wireList gs Hres) as (next & ch & Hp).
    rewrite Hp.
    pose proof (simulationPass_shape _ _ _ _ _ Hp) as Hshape.
    destruct ch.
    + destruct (IH (S k) (S iterations) next) as (result & n & Hloop & Hfix & Hsh).
      * by eapply Forall2_sameShape_resolvable.
      * intros next' ch' Hp'.
        pose proof (Hagree _ _ Hp) as Hk.
        apply simulationPass_Return in Hp as [Hstep _].
        apply simulationPass_Return in Hp' as [Hstep' _].
        by eapply stepsTo_agree.
      * clear -Hshape Hrank.
        induction Hshape as [|a b l l' Hab _ IHl]; [done|].
        apply Forall_cons in Hrank as [Ha Hl]. constructor; [|by apply IHl].
        rewrite <- (sameShape_id _ _ Hab). lia.
      * exists result, n. split; [done|]. split; [done|]. by etrans.
    + exists next, (S iterations). split; [done|]. split; [|done].
      apply simulationPass_Return in Hp as Hp'. destruct Hp' as [_ Hch].
      assert (next = gs) as -> by by apply Hch. done.
Qed.

End Layered.

#[global] Instance sameSwitches_preorder : PreOrder sameSwitches.
Proof.
  split.
  - intros gs. unfold sameSwitches. induction gs as [|g gs IH]; [constructor|].
    constructor; [|exact IH]. by split.
  - intros A B C HAB HBC. eapply Forall2_trans; [|exact HAB|exact HBC].
    intros a b c [Hab Ha] [Hbc Hb]. split; [by trans b|].
    intros Hin. pose proof (Ha Hin) as <-. by apply Hb.
Qed.

(** A wire fed by switches only carries the same signal in both lists. *)
Lemma sourceValue_switches A B w :
  sameSwitches A B →
  (∀ fg, fg ∈ A → Gate.id fg = Endpoint.gateId (Wire.from w) →
         Gate.type fg = INPUT) →
  sourceValue A w = sourceValue B w.
Proof.
  intros Hsame. induction Hsame as [|a b A B [Hkind Heq] _ IH]; intros Hsrc; [done|].
  rewrite !sourceValue_cons. destruct Hkind as (Hid & _).
  rewrite <- Hid.
  destruct (decide (Gate.id a = _)) as [Ha|Ha].
  - rewrite Heq; [done|]. apply Hsrc; [left|done].
  - apply IH. intros fg Hfg. apply Hsrc. by right.
Qed.

Section Sweep.
Variable customGates : gmap string Template.t.
Variable wires : list Wire.t.

Lemma newInputValuesOf_switches A B template a b :
  sameSwitches A B → Gate.id a = Gate.id b →
  (∀ w fg, w ∈ wires → Endpoint.gateId (Wire.to w) = Gate.id a →
     fg ∈ A → Gate.id fg = Endpoint.gateId (Wire.from w) →
     Gate.type fg = INPUT) →
  newInputValuesOf A wires template a = newInputValuesOf B wires template b.
Proof.
  intros Hsame Hid Hsrc. unfold newInputValuesOf. rewrite <- Hid.
  apply list_fmap_ext. intros _ i _.
  destruct (list_find _ wires) as [[j w]|] eqn:Hfind; [|done].
  apply list_find_Some in Hfind as (Hj & [Hto _] & _).
  apply sourceValue_switches; [done|].
  intros fg Hfg Hfrom. eapply Hsrc; [|done..]. by eapply list_elem_of_lookup_2.
Qed.

Lemma recomputedPorts_switches A B a b :
  sameSwitches A B → sameKind a b →
  (∀ w fg, w ∈ wires → Endpoint.gateId (Wire.to w) = Gate.id a →
     fg ∈ A → Gate.id fg = Endpoint.gateId (Wire.from w) →
     Gate.type fg = INPUT) →
  recomputedPorts customGates wires A a = recomputedPorts customGates wires B b.
Proof.
  intros Hsame (Hid & Hty & Hname) Hsrc. unfold recomputedPorts, templateKey.
  rewrite <- Hty, <- Hname.
  destruct (decide (Gate.type a ≠ CUSTOM)); [done|].
  destruct (customGates !! _) as [template|]; [|done].
  by rewrite (newInputValuesOf_switches A B template a b).
Qed.

End Sweep.

Section Switches.

Variable customGates : gmap string Template.t.
Variable wires : list Wire.t.

Lemma simulationPass_switches gs next ch :
  simulationPass customGates wires gs = Return (next, ch) → sameSwitches gs next.
Proof.
  intros Hpass%(agreeBelow_pass _ _ (λ _, 0)).
  eapply Forall2_impl; [exact Hpass|].
  intros a b [Hshape Heq]. split; [by apply sameShape_sameKind|auto].
Qed.

Lemma simulationLoop_switches remaining iterations gs result n :
  simulationLoop customGates remaining iterations wires gs = Return (result, n) →
  sameSwitches gs result.
Proof.
  revert iterations gs.
  induction remaining as [|remaining IH]; intros iterations gs; simpl.
  - by intros [= <- <-].
  - destruct (simulationPass customGates wires gs) as [[next ch]|e] eqn:Hpass;
      [|done].
    apply simulationPass_switches in Hpass. destruct ch.
    + intros Hloop%IH. by trans next.
    + by intros [= <- <-].
Qed.

Lemma runSimulation_switches gs result :
  runSimulation customGates gs wires = Return result → sameSwitches gs result.
Proof.
  unfold runSimulation, runSimulationCounted.
  destruct (simulationLoop _ _ _ _ _) as [[r n]|e] eqn:Hloop; [|done].
  intros [= <-]. by eapply simulationLoop_switches.
Qed.

Lemma expandSweep_switches gs next ch :
  expandSweep customGates wires gs = Return (next, ch) → sameSwitches gs next.
Proof.
  unfold expandSweep.
  destruct (mapM _ gs) as [expanded|e] eqn:Hm; simpl; [|done].
  intros [= <- <-]. apply mapM_Return in Hm.
  apply Forall2_fmap_r. eapply Forall2_impl; [exact Hm|].
  intros g [g' c] Hg. simpl. split.
  - by apply expandGate_Return in Hg as [? _].
  - intros Hin. rewrite expandGate_primitive in Hg by (by rewrite Hin).
    by injection Hg as <- _.
Qed.

End Switches.

(** On a list that a pass leaves alone, [runSimulation] is that one pass. *)
Lemma runSimulation_fixpoint customGates wires gs :
  simulationPass customGates wires gs = Return (gs, false) →
  runSimulation customGates gs wires = Return gs.
Proof.
  intros Hfix. unfold runSimulation, runSimulationCounted, MAX_ITERATIONS.
  simpl. by rewrite Hfix.
Qed.

Section Settled.

Variable customGates : gmap string Template.t.
Variable wires : list Wire.t.
Variable gs : list Gate.t.
Variable rank : string → nat.

Hypothesis layered :
  ∀ w, w ∈ wires →
    rank (Endpoint.gateId (Wire.from w)) < rank (Endpoint.gateId (Wire.to w)).
Hypothesis shallow : Forall (λ g, rank (Gate.id g) < MAX_ITERATIONS) gs.
Hypothesis templates : Forall (resolvable customGates) gs.
Hypothesis innerTemplates : Forall (expandable customGates) gs.

(** Every wire into a composite gate comes from a switch. *)
Hypothesis switched :
  ∀ g w fg,
    g ∈ gs → Gate.type g = CUSTOM →
    w ∈ wires → Endpoint.gateId (Wire.to w) = Gate.id g →
    fg ∈ gs → Gate.id fg = Endpoint.gateId (Wire.from w) →
    Gate.type fg = INPUT.

(** The first round ends in a list that neither a sweep nor a pass alters. *)
Lemma first_round_settles :
  ∃ settled ch,
    mainRound customGates wires gs = Return (settled, ch)
    ∧ mainRound customGates wires settled = Return (settled, false).
Proof.
  destruct (expandSweep_total customGates wires gs templates innerTemplates)
    as (swept & ch & Hsweep).
  pose proof (expandSweep_kind _ _ _ _ _ Hsweep) as Hkind.
  destruct (simulationLoop_settles customGates wires rank layered
              MAX_ITERATIONS 0 0 swept)
    as (settled & n & Hloop & Hfix & Hshape).
  { by eapply Forall2_sameKind_resolvable. }
  { intros next c. apply agreeBelow_pass. }
  { clear -Hkind shallow. induction Hkind as [|a b l l' Hab _ IH]; [done|].
    apply Forall_cons in shallow as [Ha Hl]. constructor; [|by apply IH].
    destruct Hab as (<- & _). simpl in *. lia. }
  assert (runSimulation customGates swept wires = Return settled) as Hrun.
  { unfold runSimulation, runSimulationCounted. by rewrite Hloop. }
  exists settled, ch. split; [apply mainRound_Return; eauto|].
  apply mainRound_Return. exists settled.
  split; [|by apply runSimulation_fixpoint].
  assert (sameSwitches gs settled) as Hsw.
  { trans swept; [by eapply expandSweep_switches|by eapply runSimulation_switches]. }
  unfold expandSweep.
  assert (mapM (expandGate customGates settled wires) settled
          = Return ((λ g, (g, false)) <$> settled)) as ->.
  { apply mapM_Return, Forall2_fmap_r, Forall_Forall2_diag, Forall_lookup.
    intros i g1 Hi1.
    destruct (Forall2_lookup_r _ _ _ _ _ Hshape Hi1) as (g' & Hi' & Hshape').
    unfold expandSweep in Hsweep.
    destruct (mapM _ gs) as [expanded|e] eqn:Hm; simpl in Hsweep; [|done].
    injection Hsweep as <- <-.
    rewrite list_lookup_fmap in Hi'.
    destruct (expanded !! i) as [[g'' c]|] eqn:Hie; simpl in Hi'; [|done].
    injection Hi' as ->.
    apply mapM_Return in Hm.
    destruct (Forall2_lookup_r _ _ _ _ _ Hm Hie) as (g & Hi & Hg).
    assert (sameKind g g1) as Hk.
    { trans g'; [by apply expandGate_Return in Hg as [? _]|].
      by apply sameShape_sameKind. }
    destruct (decide (Gate.type g = CUSTOM)) as [Hty|Hty].
    - rewrite expandGate_recomputedPorts in Hg |- *.
      rewrite <- (recomputedPorts_switches customGates wires gs settled g g1);
        [|done..|].
      + destruct (recomputedPorts customGates wires gs g) as [[[ivs ovs]|]|e];
          simpl in *; [|done..].
        injection Hg as <- <-.
        assert (Gate.with_ports g1 ivs ovs = g1) as Hsame.
        { apply with_ports_same.
          destruct g, g1. unfold sameShape in Hshape'. simpl in *.
          by injection Hshape' as _ _ _ _ _ <- <-. }
        rewrite Hsame. apply with_ports_same in Hsame as [-> ->].
        by rewrite !bool_decide_eq_false_2 by auto.
      + intros w fg Hw Hto Hfg Hfrom.
        eapply (switched g w fg); try done. by eapply list_elem_of_lookup_2.
    - apply expandGate_primitive. by destruct Hk as (_ & <- & _). }
  simpl. f_equal. f_equal.
  - rewrite <- list_fmap_compose. apply list_fmap_id.
  - clear. by induction settled.
Qed.

End Settled.

Lemma mainLoop_unfold customGates remaining mainIterations wires tempGates :
  mainLoop customGates (S remaining) mainIterations wires tempGates =
  match mainRound customGates wires tempGates with
  | Throw e => Throw e
  | Return (next, changedInMainLoop) =>
      if changedInMainLoop
      then mainLoop customGates remaining (S mainIterations) wires next
      else Return (next, S mainIterations)
  end.
Proof. reflexivity. Qed.

(** ** Running the effect twice *)

(** C5 fails on the code.  The chain switch, NOT, buffer, OUTPUT has no
    feedback, yet running the effect on its own result changes the buffer
    and the OUTPUT gate. *)
Lemma second_run_changes_acyclic_canvas :
  ∃ s1 s2,
    logicSimulation Stale.library Stale.canvas = Return s1
    ∧ logicSimulation Stale.library s1 = Return s2
    ∧ s1 ≠ s2
    ∧ Gate.value <$> AppState.gates s1 = [false; true; false; false]
    ∧ Gate.value <$> AppState.gates s2 = [false; true; false; true].
Proof.
  eexists _, _. split; [vm_compute; reflexivity|].
  split; [vm_compute; reflexivity|]. split; [discriminate|].
  split; reflexivity.
Qed.

(** Nor is one run enough for a row of computed gates longer than the
    pass budget: fifty NOT gates behind a switch come out settled, the
    fifty-first still holds the value the canvas started with, and a
    second run moves it. *)
Lemma second_run_changes_deep_chain :
  (∃ s1,
     logicSimulation ∅ (Chain.dark 50) = Return s1
     ∧ logicSimulation ∅ s1 = Return s1)
  ∧ ∃ s1 s2,
      logicSimulation ∅ (Chain.dark 51) = Return s1
      ∧ logicSimulation ∅ s1 = Return s2
      ∧ AppState.gates s1 ≠ AppState.gates s2.
Proof.
  split.
  - eexists. split; [vm_compute; reflexivity|]. vm_compute. reflexivity.
  - eexists _, _. split; [vm_compute; reflexivity|].
    split; [vm_compute; reflexivity|]. by_evaluation.
Qed.

(** Nor for a row of composite gates longer than the round budget: ten
    buffers behind a switch come out settled after ten rounds, the
    eleventh still holds the port arrays the canvas started with, and a
    second run moves them. *)
Lemma second_run_changes_long_relay :
  (∃ s1,
     logicSimulationCounted Stale.library (Relay.canvas 10)
       = Return (AppState.gates s1, MAX_MAIN_ITERATIONS)
     ∧ logicSimulation Stale.library s1 = Return s1)
  ∧ ∃ s1 s2,
      logicSimulation Stale.library (Relay.canvas 11) = Return s1
      ∧ logicSimulation Stale.library s1 = Return s2
      ∧ AppState.gates s1 ≠ AppState.gates s2.
Proof.
  split.
  - eexists (AppState.mk _ (AppState.wires (Relay.canvas 10))).
    split; [vm_compute; reflexivity|]. vm_compute. reflexivity.
  - eexists _, _. split; [vm_compute; reflexivity|].
    split; [vm_compute; reflexivity|]. by_evaluation.
Qed.

Lemma elem_of_sameKind gs gs' g' :
  Forall2 sameKind gs gs' → g' ∈ gs' → ∃ g, g ∈ gs ∧ sameKind g g'.
Proof.
  intros Hkind [i Hi]%list_elem_of_lookup.
  destruct (Forall2_lookup_r _ _ _ _ _ Hkind Hi) as (g & Hg & Hgg).
  exists g. split; [by eapply list_elem_of_lookup_2|done].
Qed.

Lemma computed_kind a b : sameKind a b → computed a → computed b.
Proof. unfold computed. by intros (_ & <- & _). Qed.

Lemma flatLayers_kind rank depth wires gs gs' :
  Forall2 sameKind gs gs' →
  flatLayers rank depth wires gs → flatLayers rank depth wires gs'.
Proof.
  intros Hkind [Hrise Hdepth]. split.
  - intros w g' fg' Hw Hg Hfg Hto Hfrom Hc Hfc.
    destruct (elem_of_sameKind _ _ _ Hkind Hg) as (g & Hg0 & Hk).
    destruct (elem_of_sameKind _ _ _ Hkind Hfg) as (fg & Hfg0 & Hfk).
    pose proof Hk as (Hid & _). pose proof Hfk as (Hfid & _).
    rewrite <- Hid, <- Hfid. rewrite <- Hid in Hto. rewrite <- Hfid in Hfrom.
    apply (Hrise w g fg); try done.
    + eapply computed_kind; [symmetry; exact Hk|done].
    + eapply computed_kind; [symmetry; exact Hfk|done].
  - intros g' Hg Hc.
    destruct (elem_of_sameKind _ _ _ Hkind Hg) as (g & Hg0 & Hk).
    pose proof Hk as (Hid & _). rewrite <- Hid. apply Hdepth; [done|].
    eapply computed_kind; [symmetry; exact Hk|done].
Qed.

Lemma compositeLayers_kind level depth wires gs gs' :
  Forall2 sameKind gs gs' →
  compositeLayers level depth wires gs → compositeLayers level depth wires gs'.
Proof.
  intros Hkind [Hfed Hdepth]. split.
  - intros w g' fg' Hw Hg Hfg Hto Hfrom Hty.
    destruct (elem_of_sameKind _ _ _ Hkind Hg) as (g & Hg0 & Hk).
    destruct (elem_of_sameKind _ _ _ Hkind Hfg) as (fg & Hfg0 & Hfk).
    pose proof Hk as (Hid & Hty' & _). pose proof Hfk as (Hfid & Hfty & _).
    rewrite <- Hid, <- Hfid, <- Hfty. rewrite <- Hid in Hto. rewrite <- Hfid in Hfrom.
    apply (Hfed w g fg); try done. congruence.
  - intros g' Hg Hty.
    destruct (elem_of_sameKind _ _ _ Hkind Hg) as (g & Hg0 & Hk).
    pose proof Hk as (Hid & Hty' & _). rewrite <- Hid. apply Hdepth; [done|congruence].
Qed.

Section Depth.

Variable customGates : gmap string Template.t.
Variable wires : list Wire.t.
Variable rank : string → nat.

Lemma sourceValue_settled k A B w :
  settledBelow rank k A B →
  (∀ fg, fg ∈ A → Gate.id fg = Endpoint.gateId (Wire.from w) →
         computed fg → rank (Gate.id fg) < k) →
  sourceValue A w = sourceValue B w.
Proof.
  intros Hagree.
  induction Hagree as [|a b A B [Hshape Heq] _ IH]; intros Hsrc; [done|].
  rewrite !sourceValue_cons, <- (sameShape_id _ _ Hshape).
  destruct (decide (Gate.id a = _)) as [Hid|Hid].
  - unfold gateOutput. rewrite <- (sameShape_type _ _ Hshape).
    destruct (decide (Gate.type a = CUSTOM)) as [Hty|Hcustom].
    { by rewrite Hty, (sameShape_outputValues _ _ Hshape). }
    assert (a = b) as <-; [|done]. apply Heq.
    destruct (decide (Gate.type a = INPUT)) as [Hty|Hinput]; [by left|].
    right. right. split; [done|]. apply Hsrc; [left|done|done].
  - apply IH. intros fg Hfg. apply Hsrc. by right.
Qed.

Lemma nextValue_settled k A B a b :
  settledBelow rank k A B → sameShape a b → Gate.type a ≠ INPUT →
  (∀ w fg, w ∈ wires → Endpoint.gateId (Wire.to w) = Gate.id a → fg ∈ A →
     Gate.id fg = Endpoint.gateId (Wire.from w) →
     computed fg → rank (Gate.id fg) < k) →
  nextValue customGates wires A a = nextValue customGates wires B b.
Proof.
  intros Hagree Hshape Hin Hsrc. unfold nextValue.
  rewrite <- (sameShape_type _ _ Hshape), <- (numInputsOf_shape _ _ _ Hshape),
    <- (inputWiresOf_shape _ _ _ Hshape).
  rewrite !decide_False by done.
  destruct (numInputsOf customGates a) as [n|e]; simpl; [|done].
  assert (resolveInputs A (inputWiresOf wires a) n
          = resolveInputs B (inputWiresOf wires a) n) as ->; [|done].
  unfold resolveInputs. apply list_fmap_ext. intros _ i _.
  destruct (list_find _ (inputWiresOf wires a)) as [[j w]|] eqn:Hfind; [|done].
  apply list_find_Some in Hfind as (Hj & _).
  apply list_elem_of_lookup_2, list_elem_of_filter in Hj as [Hto Hw].
  eapply sourceValue_settled; [done|]. intros fg Hfg Hid Hc. by eapply Hsrc.
Qed.

(** What a pass does to two related lists, each read against its own
    reference list. *)
Lemma stepsTo_settled k refA refB A B A' B' :
  settledBelow rank k refA refB → settledBelow rank k A B →
  (∀ a w fg, a ∈ A → computed a → rank (Gate.id a) < S k →
     w ∈ wires → Endpoint.gateId (Wire.to w) = Gate.id a → fg ∈ refA →
     Gate.id fg = Endpoint.gateId (Wire.from w) →
     computed fg → rank (Gate.id fg) < k) →
  Forall2 (stepsTo customGates wires refA) A A' →
  Forall2 (stepsTo customGates wires refB) B B' →
  settledBelow rank (S k) A' B'.
Proof.
  intros Href Hab. revert A' B'.
  induction Hab as [|a b A0 B0 [Hshape Heq] _ IH]; intros A' B' Hsrc HA HB.
  - inversion HA. inversion HB. constructor.
  - inversion HA as [|? a' ? A1 (va & Hva & ->) HA1]; subst.
    inversion HB as [|? b' ? B1 (vb & Hvb & ->) HB1]; subst.
    constructor.
    2:{ apply IH; [|done..]. intros a0 w fg Ha0. apply Hsrc. by right. }
    split.
    + etrans; [symmetry; apply sameShape_with_value|].
      etrans; [exact Hshape|]. apply sameShape_with_value.
    + assert (Gate.id (Gate.with_value a va) = Gate.id a) as -> by by destruct a.
      assert (Gate.type (Gate.with_value a va) = Gate.type a) as Hty'
        by by destruct a.
      unfold computed. rewrite Hty'. intros Hcase.
      assert (va = vb) as <-; [|by apply sameShape_with_value_eq].
      destruct (decide (Gate.type a = INPUT)) as [Hin|Hin].
      { rewrite <- (Heq (or_introl Hin)) in *.
        unfold nextValue in Hva, Hvb. rewrite decide_True in Hva, Hvb by done.
        congruence. }
      destruct (decide (Gate.type a = CUSTOM)) as [Hcu|Hcu].
      { apply nextValue_CUSTOM in Hva; [|done].
        apply nextValue_CUSTOM in Hvb; [|by rewrite <- (sameShape_type _ _ Hshape)].
        congruence. }
      destruct Hcase as [?|[[? _]|[_ Hrank]]]; [done..|].
      rewrite (nextValue_settled k refA refB a b) in Hva; [congruence|done..|].
      intros w fg Hw Hto Hfg Hfrom Hc.
      apply (Hsrc a w fg); [by left|by split|done..].
Qed.

Lemma settledBelow_pass gs next ch :
  simulationPass customGates wires gs = Return (next, ch) →
  settledBelow rank 0 gs next.
Proof.
  intros [Hstep _]%simulationPass_Return.
  eapply Forall2_impl; [exact Hstep|].
  intros a b (v & Hv & ->). split; [apply sameShape_with_value|].
  intros [Hin|[[_ ?]|[_ ?]]]; [|lia..].
  unfold nextValue in Hv. rewrite decide_True in Hv by done.
  injection Hv as <-. by rewrite with_value_same.
Qed.

Lemma settledBelow_eq k A B :
  settledBelow rank k A B → 0 < k →
  (∀ g, g ∈ A → computed g → rank (Gate.id g) < k) → A = B.
Proof.
  induction 1 as [|a b A B [_ Heq] _ IH]; [done|].
  intros Hk Hrank. f_equal.
  - apply Heq.
    destruct (decide (Gate.type a = INPUT)) as [?|Hin]; [by left|].
    destruct (decide (Gate.type a = CUSTOM)) as [?|Hcu]; [by right; left|].
    right. right. split; [done|]. apply Hrank; [left|done].
  - apply IH; [done|]. intros g Hg. apply Hrank. by right.
Qed.

(** Once the passes have climbed past every layer, the list is a fixed
    point of the pass; the loop ends on such a list if its budget reaches
    the highest layer. *)
Lemma simulationLoop_settled remaining k iterations gs :
  Forall (resolvable customGates) gs →
  0 < k + remaining →
  flatLayers rank (k + remaining) wires gs →
  (∀ next ch, simulationPass customGates wires gs = Return (next, ch) →
              settledBelow rank k gs next) →
  ∃ result n,
    simulationLoop customGates remaining iterations wires gs = Return (result, n)
    ∧ simulationPass customGates wires result = Return (result, false)
    ∧ Forall2 sameShape gs result.
Proof.
  revert k iterations gs.
  induction remaining as [|remaining IH]; intros k iterations gs Hres Hk Hflat Hagree.
  - destruct (simulationPass_total customGates wires gs Hres) as (next & ch & Hp).
    exists gs, iterations. split; [done|]. split; [|reflexivity].
    assert (gs = next) as <-.
    { eapply settledBelow_eq; [by eapply Hagree|lia|].
      destruct Hflat as [_ Hdepth]. intros g Hg Hc.
      specialize (Hdepth g Hg Hc). lia. }
    apply simulationPass_Return in Hp as Hp'. destruct Hp' as [_ Hch].
    by replace ch with false in Hp by (symmetry; by apply Hch).
  - simpl.
    destruct (simulationPass_total customGates wires gs Hres) as (next & ch & Hp).
    rewrite Hp.
    pose proof (simulationPass_shape _ _ _ _ _ Hp) as Hshape.
    destruct ch.
    + destruct (IH (S k) (S iterations) next) as (result & n & Hloop & Hfix & Hsh).
      * by eapply Forall2_sameShape_resolvable.
      * lia.
      * replace (S k + remaining) with (k + S remaining) by lia.
        eapply flatLayers_kind; [|exact Hflat].
        by apply Forall2_sameShape_sameKind.
      * intros next' ch' Hp'.
        pose proof (Hagree _ _ Hp) as Hk0.
        apply simulationPass_Return in Hp as [Hstep _].
        apply simulationPass_Return in Hp' as [Hstep' _].
        eapply stepsTo_settled; [exact Hk0|exact Hk0| |exact Hstep|exact Hstep'].
        destruct Hflat as [Hrise _].
        intros a w fg Ha Hc Hrank Hw Hto Hfg Hfrom Hfc.
        specialize (Hrise w a fg Hw Ha Hfg Hto (eq_sym Hfrom) Hc Hfc). lia.
      * exists result, n. split; [done|]. split; [done|]. by etrans.
    + exists next, (S iterations). split; [done|]. split; [|done].
      apply simulationPass_Return in Hp as Hp'. destruct Hp' as [_ Hch].
      assert (next = gs) as -> by by apply Hch. done.
Qed.

(** On a canvas whose computed gates lie in at most as many layers as
    there are passes, [runSimulation] returns a list that one more pass
    leaves alone. *)
Lemma runSimulation_settled gs result :
  flatLayers rank MAX_ITERATIONS wires gs →
  runSimulation customGates gs wires = Return result →
  simulationPass customGates wires result = Return (result, false).
Proof.
  intros Hflat Hrun.
  assert (Forall (resolvable customGates) gs) as Hres.
  { destruct (decide (Forall (resolvable customGates) gs)) as [|Hno]; [done|].
    destruct (runSimulation_Throw customGates wires gs Hno) as [e He]. congruence. }
  destruct (simulationLoop_settled MAX_ITERATIONS 0 0 gs Hres)
    as (r & n & Hloop & Hfix & _).
  { unfold MAX_ITERATIONS. lia. }
  { done. }
  { intros next c. apply settledBelow_pass. }
  unfold runSimulation, runSimulationCounted in Hrun. rewrite Hloop in Hrun.
  by injection Hrun as <-.
Qed.

End Depth.

Section Rounds.

Variable customGates : gmap string Template.t.
Variable wires : list Wire.t.
Variable level : string → nat.

Lemma sourceValue_stable k A B w :
  stableBelow level k A B →
  (∀ fg, fg ∈ A → Gate.id fg = Endpoint.gateId (Wire.from w) →
     Gate.type fg = INPUT ∨ (Gate.type fg = CUSTOM ∧ level (Gate.id fg) < k)) →
  sourceValue A w = sourceValue B w.
Proof.
  intros Hst.
  induction Hst as [|a b A B (Hkind & Hin & Hports) _ IH]; intros Hsrc; [done|].
  rewrite !sourceValue_cons. destruct Hkind as (Hid & Hty & _). rewrite <- Hid.
  destruct (decide (Gate.id a = _)) as [Ha|Ha].
  - unfold gateOutput. rewrite <- Hty.
    destruct (Hsrc a) as [Hi|[Hc Hl]]; [by left|done| |].
    + by rewrite <- (Hin Hi).
    + rewrite Hc. by destruct (Hports Hc Hl) as [_ ->].
  - apply IH. intros fg Hfg. apply Hsrc. by right.
Qed.

Lemma recomputedPorts_stable k A B a b :
  stableBelow level k A B → sameKind a b →
  (∀ w fg, w ∈ wires → Endpoint.gateId (Wire.to w) = Gate.id a → fg ∈ A →
     Gate.id fg = Endpoint.gateId (Wire.from w) →
     Gate.type fg = INPUT ∨ (Gate.type fg = CUSTOM ∧ level (Gate.id fg) < k)) →
  recomputedPorts customGates wires A a = recomputedPorts customGates wires B b.
Proof.
  intros Hst (Hid & Hty & Hname) Hsrc. unfold recomputedPorts, templateKey.
  rewrite <- Hty, <- Hname.
  destruct (decide (Gate.type a ≠ CUSTOM)); [done|].
  destruct (customGates !! _) as [template|]; [|done].
  assert (newInputValuesOf A wires template a = newInputValuesOf B wires template b)
    as ->; [|done].
  unfold newInputValuesOf. rewrite <- Hid.
  apply list_fmap_ext. intros _ i _.
  destruct (list_find _ wires) as [[j w]|] eqn:Hfind; [|done].
  apply list_find_Some in Hfind as (Hj & [Hto _] & _).
  eapply sourceValue_stable; [done|].
  intros fg Hfg Hfrom. eapply Hsrc; [|done..]. by eapply list_elem_of_lookup_2.
Qed.

(** What the sweep makes of a composite gate that has its template. *)
Lemma expandGate_ports tempGates g g' ch :
  expandGate customGates tempGates wires g = Return (g', ch) →
  Gate.type g = CUSTOM → resolvable customGates g →
  ∃ ivs ovs,
    recomputedPorts customGates wires tempGates g = Return (Some (ivs, ovs))
    ∧ g' = Gate.with_ports g ivs ovs.
Proof.
  rewrite expandGate_recomputedPorts. intros Hexp Hty [template Hdef]%(λ H, H Hty).
  unfold recomputedPorts in *. rewrite decide_False in * by (by intros []).
  rewrite Hdef in *. simpl in *.
  destruct (runSimulation _ _ _) as [sim|e]; simpl in *; [|done].
  injection Hexp as <- _. eauto.
Qed.

Lemma recomputedPorts_CUSTOM tempGates g ports :
  recomputedPorts customGates wires tempGates g = Return (Some ports) →
  Gate.type g = CUSTOM.
Proof.
  unfold recomputedPorts. destruct (decide (Gate.type g ≠ CUSTOM)) as [|Hty]; [done|].
  intros _. by apply dec_stable in Hty.
Qed.

(** A round run on two lists that agree on the composite gates below
    layer [k] gives lists that agree below layer [S k]. *)
Lemma mainRound_stable depth k A B A' B' ca cb :
  compositeLayers level depth wires A →
  Forall (resolvable customGates) A →
  stableBelow level k A B →
  mainRound customGates wires A = Return (A', ca) →
  mainRound customGates wires B = Return (B', cb) →
  stableBelow level (S k) A' B'.
Proof.
  intros [Hfed _] Hres Hst (SA & HsweepA & HrunA)%mainRound_Return
    (SB & HsweepB & HrunB)%mainRound_Return.
  apply expandSweep_gates in HsweepA, HsweepB.
  apply runSimulation_switches in HrunA as HswA.
  apply runSimulation_switches in HrunB as HswB.
  apply runSimulation_shape in HrunA, HrunB.
  apply Forall2_same_length_lookup_2.
  { rewrite <- (Forall2_length _ _ _ HrunA), <- (Forall2_length _ _ _ HrunB),
      <- (Forall2_length _ _ _ HsweepA), <- (Forall2_length _ _ _ HsweepB).
    by eapply Forall2_length. }
  intros i a' b' Ha' Hb'.
  destruct (Forall2_lookup_r _ _ _ _ _ HrunA Ha') as (sa & Hsa & Hshape_a).
  destruct (Forall2_lookup_r _ _ _ _ _ HrunB Hb') as (sb & Hsb & Hshape_b).
  destruct (Forall2_lookup_r _ _ _ _ _ HsweepA Hsa) as (a & Ha & ca' & HexpA).
  destruct (Forall2_lookup_r _ _ _ _ _ HsweepB Hsb) as (b & Hb & cb' & HexpB).
  destruct (Forall2_lookup_lr _ _ _ _ _ _ Hst Ha Hb) as (Hkind & Hin & Hports).
  pose proof (expandGate_Return _ _ _ _ _ _ HexpA) as (HkA & _).
  pose proof (expandGate_Return _ _ _ _ _ _ HexpB) as (HkB & _).
  assert (sameKind a a') as Haa' by (trans sa; [done|by apply sameShape_sameKind]).
  assert (sameKind b b') as Hbb' by (trans sb; [done|by apply sameShape_sameKind]).
  pose proof Haa' as (Hid' & Hty' & _).
  rewrite <- Hid', <- Hty'.
  split; [|split].
  - trans a; [by symmetry|]. by trans b.
  - intros Hty.
    destruct Hkind as (_ & Htyb & _).
    assert (sa = a) as ->.
    { rewrite expandGate_primitive in HexpA by (by rewrite Hty). by injection HexpA. }
    assert (sb = b) as ->.
    { rewrite expandGate_primitive in HexpB by (by rewrite <- Htyb, Hty).
      by injection HexpB. }
    destruct (Forall2_lookup_lr _ _ _ _ _ _ HswA Hsa Ha') as [_ HA].
    destruct (Forall2_lookup_lr _ _ _ _ _ _ HswB Hsb Hb') as [_ HB].
    rewrite <- (HA Hty), <- HB by (by rewrite <- Htyb). by apply Hin.
  - intros Hty Hlevel.
    assert (resolvable customGates a) as Hra.
    { rewrite Forall_forall in Hres. by eapply Hres, list_elem_of_lookup_2. }
    destruct (expandGate_ports _ _ _ _ HexpA Hty Hra) as (ivs & ovs & HpA & ->).
    destruct (expandGate_ports _ _ _ _ HexpB) as (ivs' & ovs' & HpB & ->).
    { destruct Hkind as (_ & <- & _). done. }
    { by eapply resolvable_kind. }
    rewrite <- (recomputedPorts_stable k A B a b), HpA in HpB; [|done..|].
    + injection HpB as <- <-.
      destruct (sameShape_ports _ _ Hshape_a) as [<- <-].
      destruct (sameShape_ports _ _ Hshape_b) as [<- <-].
      by destruct a, b.
    + intros w fg Hw Hto Hfg Hfrom.
      destruct (Hfed w a fg) as [?|[? ?]]; try done.
      * by eapply list_elem_of_lookup_2.
      * by left.
      * right. split; [done|]. lia.
Qed.

(** A round keeps the kinds and the switches. *)
Lemma mainRound_stable_0 A A' ca :
  mainRound customGates wires A = Return (A', ca) → stableBelow level 0 A A'.
Proof.
  intros (SA & Hsweep & Hrun)%mainRound_Return.
  apply expandSweep_switches in Hsweep. apply runSimulation_switches in Hrun.
  assert (sameSwitches A A') as Hsw by (by trans SA).
  eapply Forall2_impl; [exact Hsw|].
  intros a b [Hkind Hin]. split; [done|]. split; [done|]. lia.
Qed.

(** A list that a pass leaves alone, and whose composite gates hold the
    port arrays the next round gives them, is left alone by that round. *)
Lemma mainRound_fixed depth k T T' c :
  Forall (resolvable customGates) T →
  compositeLayers level depth wires T → depth ≤ k →
  stableBelow level k T T' →
  simulationPass customGates wires T = Return (T, false) →
  mainRound customGates wires T = Return (T', c) →
  T' = T ∧ c = false.
Proof.
  intros Hres [_ Hdepth] Hk Hst Hfix (S & Hsweep & Hrun)%mainRound_Return.
  assert (S = T) as ->.
  { apply (quiet_sweep _ _ _ _ _ Hsweep).
    intros g ivs ovs [i Hi]%list_elem_of_lookup Hports.
    pose proof (recomputedPorts_CUSTOM _ _ _ Hports) as Hty.
    apply expandSweep_gates in Hsweep.
    destruct (Forall2_lookup_l _ _ _ _ _ Hsweep Hi) as (s & Hs & c' & Hexp).
    apply runSimulation_shape in Hrun.
    destruct (Forall2_lookup_l _ _ _ _ _ Hrun Hs) as (t' & Ht' & Hshape).
    destruct (Forall2_lookup_lr _ _ _ _ _ _ Hst Hi Ht') as (_ & _ & Heq).
    destruct Heq as [-> ->]; [done| |].
    { eapply Nat.lt_le_trans; [|exact Hk].
      apply Hdepth; [by eapply list_elem_of_lookup_2|done]. }
    destruct (sameShape_ports _ _ Hshape) as [<- <-].
    destruct (expandGate_ports _ _ _ _ Hexp Hty) as (ivs' & ovs' & Hp & ->).
    { rewrite Forall_forall in Hres. by eapply Hres, list_elem_of_lookup_2. }
    rewrite Hports in Hp. injection Hp as <- <-. by destruct g. }
  apply expandSweep_Return in Hsweep as [_ Hch].
  rewrite (runSimulation_fixpoint _ _ _ Hfix) in Hrun. injection Hrun as <-.
  split; [done|]. by apply Hch.
Qed.

End Rounds.

Section Idempotence.

Variable customGates : gmap string Template.t.
Variable wires : list Wire.t.
Variable rank level : string → nat.
Variable gs : list Gate.t.

Hypothesis templates : Forall (resolvable customGates) gs.
Hypothesis innerTemplates : Forall (expandable customGates) gs.
Hypothesis flat : flatLayers rank MAX_ITERATIONS wires gs.
Hypothesis composite : compositeLayers level MAX_MAIN_ITERATIONS wires gs.

(** Every round ends in a list that a pass leaves alone. *)
Lemma round_settled T T' c :
  Forall2 sameKind gs T →
  mainRound customGates wires T = Return (T', c) →
  simulationPass customGates wires T' = Return (T', false).
Proof.
  intros Hkind (S & Hsweep & Hrun)%mainRound_Return.
  apply (runSimulation_settled customGates wires rank S); [|done].
  eapply flatLayers_kind; [|exact flat].
  trans T; [done|]. by eapply expandSweep_kind.
Qed.

Lemma round_total T :
  Forall2 sameKind gs T →
  ∃ T' c, mainRound customGates wires T = Return (T', c).
Proof.
  intros Hkind. apply mainRound_total.
  - by eapply Forall2_sameKind_resolvable.
  - by eapply Forall2_sameKind_expandable.
Qed.

Lemma stable_round_fixed k P T c :
  Forall2 sameKind gs P →
  mainRound customGates wires P = Return (T, c) →
  stableBelow level k P T → MAX_MAIN_ITERATIONS ≤ S k →
  mainRound customGates wires T = Return (T, false).
Proof.
  intros Hkind Hround Hst Hk.
  assert (Forall2 sameKind gs T) as HkT.
  { trans P; [done|]. by eapply mainRound_kind. }
  destruct (round_total T HkT) as (T' & c' & Hnext).
  destruct (mainRound_fixed customGates wires level MAX_MAIN_ITERATIONS (S k) T T' c')
    as [-> ->]; try done.
  - by eapply Forall2_sameKind_resolvable.
  - by eapply compositeLayers_kind.
  - eapply (mainRound_stable customGates wires level MAX_MAIN_ITERATIONS k P T);
      try done.
    + by eapply compositeLayers_kind.
    + by eapply Forall2_sameKind_resolvable.
  - exact (round_settled P T c Hkind Hround).
Qed.

(** A round whose sweep altered nothing ends in a list that the next
    round leaves alone. *)
Lemma quiet_round_fixed P T :
  Forall2 sameKind gs P →
  mainRound customGates wires P = Return (T, false) →
  mainRound customGates wires T = Return (T, false).
Proof.
  intros Hkind Hround.
  apply (stable_round_fixed MAX_MAIN_ITERATIONS P T false); [done..| |lia].
  apply mainRound_Return in Hround as (S & Hsweep & Hrun).
  apply expandSweep_Return in Hsweep as [_ Hch].
  assert (S = P) as -> by by apply Hch.
  apply runSimulation_switches in Hrun as Hsw.
  apply runSimulation_shape in Hrun.
  apply Forall2_same_length_lookup_2; [by eapply Forall2_length|].
  intros i a b Ha Hb.
  destruct (Forall2_lookup_lr _ _ _ _ _ _ Hsw Ha Hb) as [Hk Hin].
  pose proof (Forall2_lookup_lr _ _ _ _ _ _ Hrun Ha Hb) as Hshape.
  split; [done|]. split; [done|]. intros _ _. by apply sameShape_ports.
Qed.

(** After the first round the main loop ends in a list that one more
    round leaves alone: it stops after a quiet sweep, or it has made as
    many rounds as the composite gates have layers. *)
Lemma mainLoop_settles remaining k n A B c :
  Forall2 sameKind gs A →
  mainRound customGates wires A = Return (B, c) →
  stableBelow level k A B →
  MAX_MAIN_ITERATIONS ≤ S (k + remaining) →
  ∃ final m,
    mainLoop customGates remaining n wires B = Return (final, m)
    ∧ mainRound customGates wires final = Return (final, false).
Proof.
  revert k n A B c.
  induction remaining as [|remaining IH]; intros k n A B c Hkind Hround Hst Hk.
  - exists B, n. split; [done|].
    eapply stable_round_fixed; [done..|lia].
  - assert (Forall2 sameKind gs B) as HkB.
    { trans A; [done|]. by eapply mainRound_kind. }
    destruct (round_total B HkB) as (C & cb & Hnext).
    rewrite mainLoop_unfold, Hnext. destruct cb.
    + apply (IH (S k) (S n) B C true); [done..| |lia].
      eapply (mainRound_stable customGates wires level MAX_MAIN_ITERATIONS k A B);
        try done.
      * by eapply compositeLayers_kind.
      * by eapply Forall2_sameKind_resolvable.
    + exists C, (S n). split; [done|]. by eapply quiet_round_fixed.
Qed.

(** The main loop ends in a list that one more round leaves alone. *)
Lemma mainLoop_fixed :
  ∃ final m,
    mainLoop customGates MAX_MAIN_ITERATIONS 0 wires gs = Return (final, m)
    ∧ mainRound customGates wires final = Return (final, false).
Proof.
  destruct (round_total gs) as (T & c & Hround); [reflexivity|].
  change MAX_MAIN_ITERATIONS with (S 9) at 1. rewrite mainLoop_unfold, Hround.
  destruct c.
  - apply (mainLoop_settles 9 0 1 gs T true); [reflexivity|done| |].
    + by eapply mainRound_stable_0.
    + unfold MAX_MAIN_ITERATIONS. lia.
  - exists T, 1. split; [done|]. by eapply quiet_round_fixed.
Qed.

End Idempotence.

(** The two layerings, checked wire by wire and gate by gate. *)
Lemma flatLayers_Forall rank depth wires gs :
  Forall (λ w, Forall (λ g, Forall (λ fg,
    Endpoint.gateId (Wire.to w) = Gate.id g →
    Endpoint.gateId (Wire.from w) = Gate.id fg →
    computed g → computed fg → rank (Gate.id fg) < rank (Gate.id g)) gs) gs) wires →
  Forall (λ g, computed g → rank (Gate.id g) < depth) gs →
  flatLayers rank depth wires gs.
Proof.
  intros Hrise Hdepth. split; [|by rewrite Forall_forall in Hdepth].
  intros w g fg Hw Hg Hfg.
  rewrite Forall_forall in Hrise. specialize (Hrise w Hw).
  rewrite Forall_forall in Hrise. specialize (Hrise g Hg).
  rewrite Forall_forall in Hrise. by apply Hrise.
Qed.

Lemma compositeLayers_Forall level depth wires gs :
  Forall (λ w, Forall (λ g, Forall (λ fg,
    Endpoint.gateId (Wire.to w) = Gate.id g →
    Endpoint.gateId (Wire.from w) = Gate.id fg →
    Gate.type g = CUSTOM →
    Gate.type fg = INPUT
    ∨ (Gate.type fg = CUSTOM ∧ level (Gate.id fg) < level (Gate.id g))) gs) gs)
    wires →
  Forall (λ g, Gate.type g = CUSTOM → level (Gate.id g) < depth) gs →
  compositeLayers level depth wires gs.
Proof.
  intros Hfed Hdepth. split; [|by rewrite Forall_forall in Hdepth].
  intros w g fg Hw Hg Hfg.
  rewrite Forall_forall in Hfed. specialize (Hfed w Hw).
  rewrite Forall_forall in Hfed. specialize (Hfed g Hg).
  rewrite Forall_forall in Hfed. by apply Hfed.
Qed.

(** C5, amended.  Take a canvas without feedback on which no composite
    gate is wired to the output of a gate that the flat engine computes
    (an AND, OR, NOT or OUTPUT gate): the wires between computed gates run
    up through at most fifty layers, one for each pass of [runSimulation],
    and the wires into composite gates come from switches or from
    composite gates of a lower layer, of which there are at most ten, one
    for each round of the main loop.  If every composite gate has its
    template, and the composite gates inside that template theirs, the
    effect is idempotent: it returns, and run on its own result it returns
    that result again. *)
Theorem feedback_free_idempotent customGates s (rank level : string → nat) :
  Forall (resolvable customGates) (AppState.gates s) →
  Forall (expandable customGates) (AppState.gates s) →
  flatLayers rank MAX_ITERATIONS (AppState.wires s) (AppState.gates s) →
  compositeLayers level MAX_MAIN_ITERATIONS (AppState.wires s) (AppState.gates s) →
  ∃ s',
    logicSimulation customGates s = Return s'
    ∧ logicSimulation customGates s' = Return s'.
Proof.
  intros Hres Hexp Hflat Hcomposite.
  destruct (mainLoop_fixed customGates (AppState.wires s) rank level
              (AppState.gates s) Hres Hexp Hflat Hcomposite)
    as (final & m & Hloop & Hfixed).
  exists (AppState.mk final (AppState.wires s)).
  unfold logicSimulation, logicSimulationCounted. split.
  - by rewrite Hloop.
  - simpl AppState.gates. simpl AppState.wires.
    change MAX_MAIN_ITERATIONS with (S 9).
    by rewrite mainLoop_unfold, Hfixed.
Qed.

Lemma feedback_free_idempotent_witness :
  ∃ s',
    logicSimulation Stale.library (Relay.canvas 2) = Return s'
    ∧ logicSimulation Stale.library s' = Return s'
    ∧ Gate.value <$> AppState.gates s' = [true; false; false; true]
    ∧ Gate.outputValues <$> AppState.gates s'
      = [None; Some [true]; Some [true]; None].
Proof.
  destruct (feedback_free_idempotent Stale.library (Relay.canvas 2) (λ _, 0)
              (λ id, if decide (id = "BUF-2") then 1 else 0))
    as (s' & Hfirst & Hsecond).
  - by_evaluation.
  - repeat constructor; intros Hty; try discriminate Hty.
    all: intros template [= <-]; by_evaluation.
  - apply flatLayers_Forall; by_evaluation.
  - apply compositeLayers_Forall; by_evaluation.
  - exists s'. split; [done|]. split; [done|].
    vm_compute in Hfirst. injection Hfirst as <-. split; reflexivity.
Defined.

(** ** The formulas on the list that comes back *)




(** * The editor *)

(** ** Undo and redo *)

Lemma last_take_snoc {A} (l : list A) x :
  last l = Some x → (take (length l - 1) l ++ [x])%list = l.
Proof.
  intros Hlast. destruct l as [|y l] using rev_ind; [done|].
  rewrite last_snoc in Hlast. injection Hlast as ->.
  rewrite length_app. simpl.
  replace (length l + 1 - 1) with (length l) by lia.
  by rewrite take_app_length.
Qed.

Lemma undo_timeline h : timeline (undo h) = timeline h.
Proof.
  unfold undo, timeline.
  destruct (last (History.past h)) as [previous|] eqn:Hlast; [|done]. simpl.
  pose proof (last_take_snoc _ _ Hlast) as Hpast.
  remember (take (length (History.past h) - 1) (History.past h)) as newPast.
  rewrite <- Hpast. by rewrite <- app_assoc.
Qed.

Lemma redo_timeline h : timeline (redo h) = timeline h.
Proof.
  unfold redo, timeline.
  destruct (History.future h) as [|next rest] eqn:Hfuture; simpl.
  - by rewrite Hfuture.
  - by rewrite <- app_assoc.
Qed.

(** X1.  [undo] followed by [redo] gives back the history it started from,
    whenever there was a state to go back to. *)
Theorem undo_then_redo h : History.past h ≠ [] → redo (undo h) = h.
Proof.
  intros Hpast. unfold undo.
  destruct (last (History.past h)) as [previous|] eqn:Hlast.
  - unfold redo. simpl. rewrite (last_take_snoc _ _ Hlast). by destruct h.
  - apply last_None in Hlast. done.
Qed.

Lemma undo_then_redo_witness :
  let h :=
    History.mk [AppState.mk [] []] (AppState.mk [newGate "A" AND (0, 0)%Z] []) [] in
  redo (undo h) = h.
Proof. apply undo_then_redo. simpl. discriminate. Defined.

(** X2.  [redo] followed by [undo] gives back the history it started from,
    whenever there was a state to go forward to. *)
Theorem redo_then_undo h : History.future h ≠ [] → undo (redo h) = h.
Proof.
  intros Hfuture. unfold redo.
  destruct (History.future h) as [|next rest] eqn:Hf; [done|].
  unfold undo. simpl. rewrite last_snoc, length_app. simpl.
  replace (length (History.past h) + 1 - 1) with (length (History.past h)) by lia.
  rewrite take_app_length. destruct h; simpl in *. by subst.
Qed.

Lemma redo_then_undo_witness :
  let h :=
    History.mk [] (AppState.mk [] []) [AppState.mk [newGate "A" AND (0, 0)%Z] []] in
  undo (redo h) = h.
Proof. apply redo_then_undo. simpl. discriminate. Defined.

(** X3.  [undo] and [redo] only move the present along the timeline: the
    sequence of states, past then present then future, stays as it is.  At
    the ends of the timeline they do nothing: [undo] with an empty past
    and [redo] with an empty future return the history they were given. *)
Theorem undo_redo_keep_timeline h present states :
  timeline (undo h) = timeline h
  ∧ timeline (redo h) = timeline h
  ∧ undo (History.mk [] present states) = History.mk [] present states
  ∧ redo (History.mk states present []) = History.mk states present [].
Proof. split; [apply undo_timeline|]. split; [apply redo_timeline|done]. Qed.

(** X4.  An edit made through [setState] that changes the printed state
    can be undone and leaves nothing to redo: [undo] brings back the state
    before the edit and keeps the edited state as the only one to redo,
    whatever was there to redo before the edit, and [redo] then returns to
    the edited state. *)
Theorem edit_then_undo (sameJSON : AppState.t → AppState.t → bool) newState h :
  sameJSON (newState (History.present h)) (History.present h) = false →
  let edited := setState sameJSON newState false h in
  canUndo edited = true
  ∧ canRedo edited = false
  ∧ undo edited
    = History.mk (History.past h) (History.present h) [newState (History.present h)]
  ∧ redo (undo edited) = edited.
Proof.
  intros Hdiffers edited.
  assert (edited = History.mk (History.past h ++ [History.present h])%list
                     (newState (History.present h)) []) as ->.
  { unfold edited, setState. by rewrite Hdiffers. }
  assert (undo (History.mk (History.past h ++ [History.present h])%list
                  (newState (History.present h)) [])
          = History.mk (History.past h) (History.present h)
              [newState (History.present h)]) as Hundo.
  { unfold undo. simpl. rewrite last_snoc, length_app. simpl.
    replace (length (History.past h) + 1 - 1) with (length (History.past h)) by lia.
    by rewrite take_app_length. }
  split; [|split; [done|split; [done|by rewrite Hundo]]].
  unfold canUndo. simpl. apply bool_decide_eq_true. rewrite length_app. simpl. lia.
Qed.

Lemma edit_then_undo_witness :
  let before := AppState.mk [Examples.gate "in" INPUT false] [] in
  let h := History.mk [] before [AppState.mk [] []] in
  let edited := setState equalStates (handleInputToggle "in") false h in
  canUndo edited = true
  ∧ canRedo edited = false
  ∧ undo edited = History.mk [] before [handleInputToggle "in" before]
  ∧ redo (undo edited) = edited.
Proof.
  apply (edit_then_undo equalStates (handleInputToggle "in")
           (History.mk [] (AppState.mk [Examples.gate "in" INPUT false] [])
              [AppState.mk [] []])).
  vm_compute. reflexivity.
Defined.

(** X5.  Dragging is never recorded.  The moves of a drag go through
    [setPresentState], and the [setState(s => ({...s}), true)] that ends
    the drag returns the history it was given, whatever the comparison of
    the printed states says: after the gesture the past and the future
    are those from before it. *)
Theorem drag_is_not_recorded (sameJSON : AppState.t → AppState.t → bool)
    (moves : list (AppState.t → AppState.t)) hasDragged h :
  handleGateDragEnd sameJSON hasDragged h = h
  ∧ handleGateDragEnd sameJSON hasDragged
      (foldl (λ current move, setPresentState move current) h moves)
    = History.mk (History.past h)
        (foldl (λ s move, move s) (History.present h) moves)
        (History.future h).
Proof.
  assert (∀ k, handleGateDragEnd sameJSON hasDragged k = k) as Hend.
  { intros k. unfold handleGateDragEnd, setState.
    destruct hasDragged; [|done].
    destruct (sameJSON _ _); [done|]. by destruct k. }
  split; [apply Hend|]. rewrite Hend.
  revert h. induction moves as [|move moves IH]; intros h; simpl.
  - by destruct h.
  - by rewrite IH.
Qed.

(** ** Clicking gates *)

(** X7.  A click with the shift key on a gate of an editable canvas
    toggles the gate in the selection: the gate is selected afterwards
    exactly when it was not before, every other gate keeps its place in or
    out of the selection, and no id is selected twice. *)
Theorem shift_click_toggles_selection gateId s selectedGateIds :
  is_Some (list_find (λ g, Gate.id g = gateId) (AppState.gates s)) →
  NoDup selectedGateIds →
  let selected := (handleGateClick false false true gateId s selectedGateIds).2 in
  NoDup selected
  ∧ (gateId ∈ selected ↔ gateId ∉ selectedGateIds)
  ∧ (∀ id, id ≠ gateId → id ∈ selected ↔ id ∈ selectedGateIds).
Proof.
  intros [[k gate] Hfind] Hnd. unfold handleGateClick. rewrite Hfind. simpl.
  destruct (bool_decide (gateId ∈ selectedGateIds)) eqn:Hin.
  - apply bool_decide_eq_true in Hin. split; [by apply NoDup_filter|]. split.
    + rewrite list_elem_of_filter. split; [by intros [? _]|done].
    + intros id Hne. rewrite list_elem_of_filter. tauto.
  - apply bool_decide_eq_false in Hin. split.
    { apply NoDup_app. split; [done|]. split; [|apply NoDup_singleton].
      intros id Hid ->%list_elem_of_singleton. done. }
    split.
    + rewrite elem_of_app, list_elem_of_singleton. tauto.
    + intros id Hne. rewrite elem_of_app, list_elem_of_singleton. tauto.
Qed.

Lemma shift_click_toggles_selection_witness :
  let s := AppState.mk (Examples.andGates true false) Examples.andWires in
  let selected := (handleGateClick false false true "and" s ["a"; "and"]).2 in
  NoDup selected
  ∧ ("and" ∈ selected ↔ "and" ∉ ["a"; "and"])
  ∧ (∀ id, id ≠ "and" → id ∈ selected ↔ id ∈ ["a"; "and"]).
Proof.
  apply (shift_click_toggles_selection "and"
           (AppState.mk (Examples.andGates true false) Examples.andWires) ["a"; "and"]).
  - vm_compute. eauto.
  - by_evaluation.
Defined.

(** ** Drawing wires *)

Lemma port_free_notin (wires : list Wire.t) (to : Endpoint.t) :
  list_find (λ w, Endpoint.gateId (Wire.to w) = Endpoint.gateId to
                  ∧ Endpoint.portIndex (Wire.to w) = Endpoint.portIndex to) wires
  = None ↔
  to ∉ Wire.to <$> wires.
Proof.
  rewrite list_find_None, Forall_forall, list_elem_of_fmap. split.
  - intros Hnone (w & -> & Hw). by apply (Hnone w Hw).
  - intros Hnot w Hw [Hg Hp]. apply Hnot. exists w. split; [|done].
    destruct to, (Wire.to w); simpl in *. by subst.
Qed.

Lemma handlePortClick_fanIn id from to s :
  fanInAtMostOne (AppState.wires s) →
  fanInAtMostOne (AppState.wires (handlePortClick id from to s)).
Proof.
  intros Hfan. unfold handlePortClick.
  destruct (list_find _ (AppState.wires s)) as [[k w]|] eqn:Hfind; [done|].
  apply port_free_notin in Hfind. unfold fanInAtMostOne in *. simpl.
  rewrite fmap_app. apply NoDup_app. split; [done|]. split.
  - intros e He [->|[]%elem_of_nil]%elem_of_cons. done.
  - simpl. apply NoDup_singleton.
Qed.

(** X8.  Clicking ports never gives an input port a second wire: when no
    two wires of the canvas end at the same port, the same holds after any
    click on a port that returns; and a click on a port never changes the
    gates. *)
Theorem port_click_keeps_fan_in customGates wireId gateId portType portIndex ui ui' :
  fanInAtMostOne (AppState.wires (Ui.state ui)) →
  onPortClick customGates wireId gateId portType portIndex ui = Return ui' →
  fanInAtMostOne (AppState.wires (Ui.state ui'))
  ∧ AppState.gates (Ui.state ui') = AppState.gates (Ui.state ui).
Proof.
  intros Hfan. unfold onPortClick. destruct portType.
  - destruct (Ui.connecting ui) as [from|]; [|by intros [= <-]].
    destruct (list_find _ (AppState.wires (Ui.state ui))) as [[k w]|] eqn:Hfind;
      [by intros [= <-]|].
    intros [= <-]. simpl. split; [by apply handlePortClick_fanIn|].
    unfold handlePortClick. simpl. by rewrite Hfind.
  - destruct (list_find _ (AppState.gates (Ui.state ui))) as [[k gate]|];
      [|by intros [= <-]].
    destruct (portCount _ _ _); [|done]. by intros [= <-].
Qed.

Lemma port_click_keeps_fan_in_witness :
  let ui := Ui.mk (AppState.mk (Examples.andGates true false) Examples.halfWiredAnd)
              (Some (Endpoint.mk "b" 0)) in
  ∃ ui',
    onPortClick ∅ "w9" "and" inputPort 1 ui = Return ui'
    ∧ AppState.wires (Ui.state ui')
      = (Examples.halfWiredAnd ++ [Examples.wire "w9" "b" 0 "and" 1])%list
    ∧ fanInAtMostOne (AppState.wires (Ui.state ui'))
    ∧ AppState.gates (Ui.state ui') = AppState.gates (Ui.state ui).
Proof.
  eexists. split; [vm_compute; reflexivity|]. split; [reflexivity|].
  apply (port_click_keeps_fan_in ∅ "w9" "and" inputPort 1
           (Ui.mk (AppState.mk (Examples.andGates true false) Examples.halfWiredAnd)
              (Some (Endpoint.mk "b" 0)))).
  - by_evaluation.
  - vm_compute. reflexivity.
Defined.

(** X9.  A wire can be started from an output port exactly when the gate
    has its template: a click on an output port of the first gate with the
    clicked id starts a wire there, except that on a composite gate whose
    template is not in the library the click throws a [TypeError] and
    nothing is started. *)
Theorem output_port_click_needs_template customGates wireId gateId portIndex ui
    k gate :
  list_find (λ g, Gate.id g = gateId) (AppState.gates (Ui.state ui))
    = Some (k, gate) →
  onPortClick customGates wireId gateId outputPort portIndex ui
  = if decide (resolvable customGates gate)
    then Return (Ui.mk (Ui.state ui) (Some (Endpoint.mk gateId portIndex)))
    else Throw TypeError.
Proof.
  intros Hfind. unfold onPortClick, portCount, resolvable. rewrite Hfind.
  destruct gate as [id ty position value name customGateName ivs ovs].
  cbn [Gate.type Gate.customGateName].
  destruct (decide _) as [Hres|Hres].
  - destruct ty; try done. simpl. by destruct (Hres eq_refl) as [template ->].
  - destruct ty; try (exfalso; apply Hres; by intros [=]). simpl.
    destruct (customGates !! _) as [template|] eqn:Hdef; [|done].
    exfalso. apply Hres. intros _. by exists template.
Qed.

Lemma output_port_click_needs_template_witness :
  onPortClick ∅ "w" "XOR-1" outputPort 0 (Ui.mk Broken.orphanCanvas None)
  = if decide (resolvable ∅ Broken.orphan)
    then Return (Ui.mk Broken.orphanCanvas (Some (Endpoint.mk "XOR-1" 0)))
    else Throw TypeError.
Proof.
  apply (output_port_click_needs_template ∅ "w" "XOR-1" 0
           (Ui.mk Broken.orphanCanvas None) 0 Broken.orphan).
  vm_compute. reflexivity.
Defined.

(** ** Taking a wire off *)

Lemma filter_keeps_all {A} (P : A → Prop) `{∀ x, Decision (P x)} (l : list A) :
  Forall P l → filter P l = l.
Proof.
  induction 1 as [|x l Hx _ IH]; [done|].
  by rewrite filter_cons_True, IH.
Qed.

Lemma filter_other_ids (wires : list Wire.t) (w : Wire.t) :
  NoDup (Wire.id <$> wires) → w ∈ wires →
  wires ≡ₚ w :: filter (λ x, Wire.id x ≠ Wire.id w) wires.
Proof.
  induction wires as [|x wires IH]; intros Hnd Hin; [by apply elem_of_nil in Hin|].
  rewrite fmap_cons in Hnd. apply NoDup_cons in Hnd as [Hx Hnd].
  apply elem_of_cons in Hin as [->|Hin].
  - rewrite filter_cons_False by (intros H; by apply H).
    f_equiv. rewrite filter_keeps_all; [done|].
    apply Forall_forall. intros y Hy Heq. apply Hx. rewrite <- Heq.
    apply list_elem_of_fmap. by exists y.
  - assert (Wire.id x ≠ Wire.id w) as Hne.
    { intros Heq. apply Hx. rewrite Heq. apply list_elem_of_fmap. by exists w. }
    rewrite filter_cons_True by done.
    rewrite (IH Hnd Hin) at 1. apply Permutation_swap.
Qed.

Lemma wire_at_port (wires : list Wire.t) (w : Wire.t) gateId portIndex :
  fanInAtMostOne wires → w ∈ wires →
  Wire.to w = Endpoint.mk gateId portIndex →
  ∃ k, list_find (λ x, Endpoint.gateId (Wire.to x) = gateId
                       ∧ Endpoint.portIndex (Wire.to x) = portIndex) wires
       = Some (k, w).
Proof.
  intros Hfan Hin Hto.
  destruct (list_find _ wires) as [[k x]|] eqn:Hfind.
  - exists k. do 2 f_equal.
    apply list_find_Some in Hfind as (Hk & [Hg Hp] & _).
    apply list_elem_of_lookup in Hin as [j Hj].
    assert (Wire.to x = Wire.to w) as Heq.
    { rewrite Hto. destruct (Wire.to x); simpl in *. by subst. }
    assert (k = j) as ->; [|congruence].
    apply (NoDup_lookup _ _ _ (Wire.to w) Hfan).
    + by rewrite list_lookup_fmap, Hk; simpl; rewrite Heq.
    + by rewrite list_lookup_fmap, Hj.
  - exfalso. rewrite list_find_None, Forall_forall in Hfind.
    apply (Hfind w Hin). by rewrite Hto.
Qed.

(** X10.  A double click on a wired input port takes the wire off and
    starts no new one.  On a canvas where wire ids are unique and no port
    has two wires, the wire at the port is removed and every other
    connection is kept; the handler then throws a [TypeError], because it
    asks the port's [<circle>] for [createSVGPoint], and the wire that was
    or was not being drawn is left as it was. *)
Theorem double_click_drops_the_wire gateId portIndex (w : Wire.t) (ui : Ui.t) :
  fanInAtMostOne (AppState.wires (Ui.state ui)) →
  NoDup (Wire.id <$> AppState.wires (Ui.state ui)) →
  w ∈ AppState.wires (Ui.state ui) →
  Wire.to w = Endpoint.mk gateId portIndex →
  ∃ after,
    onPortDoubleClick gateId portIndex ui = (after, Throw TypeError)
    ∧ Ui.connecting after = Ui.connecting ui
    ∧ AppState.gates (Ui.state after) = AppState.gates (Ui.state ui)
    ∧ (Endpoint.mk gateId portIndex ∉ Wire.to <$> AppState.wires (Ui.state after))
    ∧ connections (Ui.state ui)
      ≡ₚ (Wire.from w, Wire.to w) :: connections (Ui.state after).
Proof.
  intros Hfan Hnd Hin Hto.
  destruct (wire_at_port _ _ _ _ Hfan Hin Hto) as [k Hfind].
  pose proof (filter_other_ids _ _ Hnd Hin) as Hperm.
  eexists. split.
  { unfold onPortDoubleClick, handlePortDoubleClick. rewrite Hfind. reflexivity. }
  simpl. split; [done|]. split; [done|]. split.
  - unfold fanInAtMostOne in Hfan. rewrite Hperm, fmap_cons, Hto in Hfan.
    by apply NoDup_cons in Hfan as [? _].
  - unfold connections. simpl. rewrite Hperm at 1. by rewrite fmap_cons.
Qed.

Lemma double_click_drops_the_wire_witness :
  let ui :=
    Ui.mk (AppState.mk (Examples.andGates true false) Examples.andWires) None in
  ∃ after,
    onPortDoubleClick "and" 1 ui = (after, Throw TypeError)
    ∧ Ui.connecting after = Ui.connecting ui
    ∧ AppState.gates (Ui.state after) = AppState.gates (Ui.state ui)
    ∧ (Endpoint.mk "and" 1 ∉ Wire.to <$> AppState.wires (Ui.state after))
    ∧ connections (Ui.state ui)
      ≡ₚ (Endpoint.mk "b" 0, Endpoint.mk "and" 1) :: connections (Ui.state after).
Proof.
  apply (double_click_drops_the_wire "and" 1 (Examples.wire "w2" "b" 0 "and" 1)
           (Ui.mk (AppState.mk (Examples.andGates true false) Examples.andWires) None)).
  - by_evaluation.
  - by_evaluation.
  - by_evaluation.
  - reflexivity.
Defined.

(** ** Deleting the selection *)

(** X11.  Deleting the selection removes exactly the selected gates and
    the wires that touch one of them, and so leaves no wire behind whose
    gate is gone: a canvas without dangling wires stays one. *)
Theorem delete_leaves_no_dangling_wire (selectedGateIds : list string)
    (s : AppState.t) :
  noDanglingWire s →
  noDanglingWire (deleteSelected selectedGateIds s)
  ∧ (∀ g, g ∈ AppState.gates (deleteSelected selectedGateIds s) ↔
          g ∈ AppState.gates s ∧ (Gate.id g ∉ selectedGateIds))
  ∧ (∀ w, w ∈ AppState.wires (deleteSelected selectedGateIds s) ↔
          w ∈ AppState.wires s
          ∧ (Endpoint.gateId (Wire.from w) ∉ selectedGateIds)
          ∧ (Endpoint.gateId (Wire.to w) ∉ selectedGateIds)).
Proof.
  intros Hclosed.
  assert (∀ g, g ∈ AppState.gates (deleteSelected selectedGateIds s) ↔
          g ∈ AppState.gates s ∧ (Gate.id g ∉ selectedGateIds)) as Hgates.
  { intros g. unfold deleteSelected. simpl. rewrite list_elem_of_filter. tauto. }
  assert (∀ w, w ∈ AppState.wires (deleteSelected selectedGateIds s) ↔
          w ∈ AppState.wires s
          ∧ (Endpoint.gateId (Wire.from w) ∉ selectedGateIds)
          ∧ (Endpoint.gateId (Wire.to w) ∉ selectedGateIds)) as Hwires.
  { intros w. unfold deleteSelected. simpl. rewrite list_elem_of_filter. tauto. }
  split; [|done].
  assert (∀ id, id ∉ selectedGateIds → id ∈ Gate.id <$> AppState.gates s →
                id ∈ Gate.id <$> AppState.gates (deleteSelected selectedGateIds s))
    as Hkept.
  { intros id Hid (g & -> & Hg)%list_elem_of_fmap.
    apply list_elem_of_fmap. exists g. split; [done|]. by apply Hgates. }
  unfold noDanglingWire in *. rewrite Forall_forall in *.
  intros w [Hw [Hfrom Hto]]%Hwires.
  destruct (Hclosed w Hw) as [Hsource Htarget]. split; by apply Hkept.
Qed.

Lemma delete_leaves_no_dangling_wire_witness :
  let s := AppState.mk (Examples.andGates true false) Examples.andWires in
  noDanglingWire (deleteSelected ["b"] s)
  ∧ (∀ g, g ∈ AppState.gates (deleteSelected ["b"] s) ↔
          g ∈ AppState.gates s ∧ (Gate.id g ∉ ["b"]))
  ∧ (∀ w, w ∈ AppState.wires (deleteSelected ["b"] s) ↔
          w ∈ AppState.wires s
          ∧ (Endpoint.gateId (Wire.from w) ∉ ["b"])
          ∧ (Endpoint.gateId (Wire.to w) ∉ ["b"])).
Proof.
  apply (delete_leaves_no_dangling_wire ["b"]
           (AppState.mk (Examples.andGates true false) Examples.andWires)).
  by_evaluation.
Defined.

(** ** Saving a selection as a composite gate *)

Lemma insertByKey_perm {A} (key : A → Z) x (l : list A) :
  insertByKey key x l ≡ₚ x :: l.
Proof.
  induction l as [|y l IH]; simpl; [done|].
  case_bool_decide; [done|]. rewrite IH. apply Permutation_swap.
Qed.

Lemma sortByKey_perm {A} (key : A → Z) (l : list A) : sortByKey key l ≡ₚ l.
Proof.
  unfold sortByKey. induction l as [|x l IH]; simpl; [done|].
  by rewrite insertByKey_perm, IH.
Qed.

Lemma handleSaveCustomGate_Some name selectedGateIds s template :
  handleSaveCustomGate name selectedGateIds s = Some template →
  let selection := filter (λ g, Gate.id g ∈ selectedGateIds) (AppState.gates s) in
  let internalGates :=
    filter (λ g, Gate.type g ≠ INPUT ∧ Gate.type g ≠ OUTPUT) selection in
  let allInternalIds :=
    ((Gate.id <$> internalGates)
     ++ (PortDef.originalId <$> Template.inputs template)
     ++ (PortDef.originalId <$> Template.outputs template))%list in
  ∃ relocate : Gate.t → Gate.t,
    (∀ g, sameKind g (relocate g))
    ∧ Template.gates template
      = relocate
        <$> (internalGates
             ++ filter (λ g, Gate.type g = INPUT ∨ Gate.type g = OUTPUT) selection)%list
    ∧ PortDef.originalId <$> Template.inputs template
      ≡ₚ Gate.id <$> filter (λ g, Gate.type g = INPUT) selection
    ∧ PortDef.originalId <$> Template.outputs template
      ≡ₚ Gate.id <$> filter (λ g, Gate.type g = OUTPUT) selection
    ∧ Template.wires template
      = (λ w, Wire.mk "" (Wire.from w) (Wire.to w))
        <$> filter (λ w, Endpoint.gateId (Wire.from w) ∈ allInternalIds
                         ∧ Endpoint.gateId (Wire.to w) ∈ allInternalIds)
                   (AppState.wires s)
    ∧ Template.inputs template ≠ [] ∧ Template.outputs template ≠ [].
Proof.
  unfold handleSaveCustomGate.
  case_bool_decide as Hname; [done|]. case_bool_decide as Hports; [done|].
  intros [= <-]. cbn [Template.gates Template.wires Template.inputs Template.outputs
                       Template.name].
  eexists. split; [|split; [reflexivity|]].
  { intros g. by unfold sameKind. }
  split; [|split; [|split; [reflexivity|]]].
  - rewrite sortByKey_perm, <- list_fmap_compose. done.
  - rewrite sortByKey_perm, <- list_fmap_compose. done.
  - split; intros Hnil; apply Hports; [by left|by right].
Qed.

Lemma fmap_id_relocate (relocate : Gate.t → Gate.t) (l : list Gate.t) :
  (∀ g, sameKind g (relocate g)) → Gate.id <$> (relocate <$> l) = Gate.id <$> l.
Proof.
  intros Hkind. rewrite <- list_fmap_compose. apply list_fmap_ext.
  intros _ g _. simpl. symmetry. apply Hkind.
Qed.

Lemma filter_type_relocate (relocate : Gate.t → Gate.t) ty (l : list Gate.t) :
  (∀ g, sameKind g (relocate g)) →
  filter (λ g, Gate.type g = ty) (relocate <$> l)
  = relocate <$> filter (λ g, Gate.type g = ty) l.
Proof.
  intros Hkind. induction l as [|g l IH]; [done|].
  rewrite fmap_cons, !filter_cons, IH.
  destruct (Hkind g) as (_ & <- & _). by destruct (decide (Gate.type g = ty)).
Qed.

(** X12.  A template saved from a selection is closed: it has at least
    one input and one output port, every port stands for an INPUT or
    OUTPUT gate of the template, every wire of the template runs between
    gates of the template, and every gate of the template was selected. *)
Theorem saved_template_is_closed name selectedGateIds s template :
  handleSaveCustomGate name selectedGateIds s = Some template →
  closedTemplate template
  ∧ Template.inputs template ≠ []
  ∧ Template.outputs template ≠ []
  ∧ Forall (λ g, Gate.id g ∈ selectedGateIds) (Template.gates template).
Proof.
  intros Hsave.
  destruct (handleSaveCustomGate_Some _ _ _ _ Hsave)
    as (relocate & Hkind & Hgates & Hinputs & Houtputs & Hwires & Hin & Hout).
  set (selection := filter (λ g, Gate.id g ∈ selectedGateIds) (AppState.gates s)) in *.
  assert (∀ ty, ty = INPUT ∨ ty = OUTPUT →
            ∀ id, id ∈ Gate.id <$> filter (λ g, Gate.type g = ty) selection →
                  id ∈ Gate.id <$> filter (λ g, Gate.type g = ty)
                                          (Template.gates template))
    as Hport.
  { intros ty Hty id (g & -> & [Hg Hsel]%list_elem_of_filter)%list_elem_of_fmap.
    rewrite Hgates, filter_type_relocate, fmap_id_relocate by done.
    apply list_elem_of_fmap. exists g. split; [done|].
    rewrite filter_app. apply elem_of_app. right.
    apply list_elem_of_filter. split; [done|].
    apply list_elem_of_filter. split; [|done]. rewrite Hg. tauto. }
  assert (∀ ty id,
            id ∈ Gate.id <$> filter (λ g, Gate.type g = ty) (Template.gates template) →
            id ∈ Gate.id <$> Template.gates template) as Hweaken.
  { intros ty id (g & -> & [_ Hg]%list_elem_of_filter)%list_elem_of_fmap.
    apply list_elem_of_fmap. by exists g. }
  assert (∀ id,
            id ∈ ((Gate.id <$> filter (λ g, Gate.type g ≠ INPUT ∧ Gate.type g ≠ OUTPUT)
                                 selection)
                  ++ (PortDef.originalId <$> Template.inputs template)
                  ++ (PortDef.originalId <$> Template.outputs template))%list →
            id ∈ Gate.id <$> Template.gates template) as Hinside.
  { intros id. rewrite !elem_of_app, Hinputs, Houtputs. intros [Hid|[Hid|Hid]].
    - rewrite Hgates, fmap_id_relocate, fmap_app, elem_of_app by done. by left.
    - apply (Hweaken INPUT), (Hport INPUT); [by left|done].
    - apply (Hweaken OUTPUT), (Hport OUTPUT); [by right|done]. }
  split; [|split; [done|split; [done|]]].
  - unfold closedTemplate. split; [|split].
    + rewrite Hwires. apply Forall_fmap, Forall_forall.
      intros w [[Hfrom Hto] _]%list_elem_of_filter. simpl. split; by apply Hinside.
    + apply Forall_forall. intros d Hd. apply (Hport INPUT); [by left|].
      rewrite <- Hinputs. apply list_elem_of_fmap. by exists d.
    + apply Forall_forall. intros d Hd. apply (Hport OUTPUT); [by right|].
      rewrite <- Houtputs. apply list_elem_of_fmap. by exists d.
  - rewrite Hgates. apply Forall_fmap, Forall_forall. intros g Hg. simpl.
    destruct (Hkind g) as (<- & _).
    apply elem_of_app in Hg as [Hg|Hg];
      apply list_elem_of_filter in Hg as [_ Hg];
      by apply list_elem_of_filter in Hg as [Hg _].
Qed.

Lemma saved_template_is_closed_witness :
  closedTemplate Nand.template
  ∧ Template.inputs Nand.template ≠ []
  ∧ Template.outputs Nand.template ≠ []
  ∧ Forall (λ g, Gate.id g ∈ Nand.selection) (Template.gates Nand.template).
Proof.
  apply (saved_template_is_closed "NAND" Nand.selection Nand.drawing).
  vm_compute. reflexivity.
Defined.

Lemma insertByKey_sorted {A} (key : A → Z) x (l : list A) :
  StronglySorted (λ a b, (key a ≤ key b)%Z) l →
  StronglySorted (λ a b, (key a ≤ key b)%Z) (insertByKey key x l).
Proof.
  induction 1 as [|y l Hsorted IH Hy]; simpl; [repeat constructor|].
  case_bool_decide as Hle.
  - constructor; [by constructor|]. constructor; [lia|].
    eapply Forall_impl; [exact Hy|]. intros z Hz. simpl in Hz. lia.
  - constructor; [done|]. rewrite insertByKey_perm. constructor; [lia|done].
Qed.

Lemma sortByKey_sorted {A} (key : A → Z) (l : list A) :
  StronglySorted (λ a b, (key a ≤ key b)%Z) (sortByKey key l).
Proof.
  unfold sortByKey. induction l as [|x l IH]; simpl; [constructor|].
  by apply insertByKey_sorted.
Qed.

(** X13.  The ports of a saved template come in the vertical order of
    the gates they stand for: an input port is never listed before one
    that lies higher on the canvas, and the same holds for the output
    ports. *)
Theorem saved_ports_are_ordered_by_height name selectedGateIds s template :
  handleSaveCustomGate name selectedGateIds s = Some template →
  StronglySorted (λ a b, (portY s a ≤ portY s b)%Z) (Template.inputs template)
  ∧ StronglySorted (λ a b, (portY s a ≤ portY s b)%Z) (Template.outputs template).
Proof.
  unfold handleSaveCustomGate.
  case_bool_decide as Hname; [done|]. case_bool_decide as Hports; [done|].
  intros [= <-]. cbn [Template.inputs Template.outputs].
  split; apply (sortByKey_sorted (portY s)).
Qed.

Lemma saved_ports_are_ordered_by_height_witness :
  StronglySorted (λ a b, (portY Nand.drawing a ≤ portY Nand.drawing b)%Z)
    (Template.inputs Nand.template)
  ∧ StronglySorted (λ a b, (portY Nand.drawing a ≤ portY Nand.drawing b)%Z)
      (Template.outputs Nand.template).
Proof.
  apply (saved_ports_are_ordered_by_height "NAND" Nand.selection Nand.drawing).
  vm_compute. reflexivity.
Defined.

(** ** What the wires show *)

Lemma setWireValue_other gates values wire id :
  Wire.id wire ≠ id → setWireValue gates values wire !! id = values !! id.
Proof.
  intros Hne. unfold setWireValue.
  destruct (list_find _ gates) as [[k fromGate]|]; [|done].
  by rewrite lookup_insert_ne.
Qed.

Lemma wireValues_other gates values wires id :
  id ∉ Wire.id <$> wires → foldl (setWireValue gates) values wires !! id = values !! id.
Proof.
  revert values. induction wires as [|x wires IH]; intros values Hid; [done|].
  rewrite fmap_cons in Hid. apply not_elem_of_cons in Hid as [Hx Hid].
  simpl. rewrite IH by done. by apply setWireValue_other.
Qed.

Lemma wireValues_lookup gates values wires w :
  NoDup (Wire.id <$> wires) → w ∈ wires →
  foldl (setWireValue gates) values wires !! Wire.id w
  = setWireValue gates values w !! Wire.id w.
Proof.
  revert values. induction wires as [|x wires IH]; intros values Hnd Hin;
    [by apply elem_of_nil in Hin|].
  rewrite fmap_cons in Hnd. apply NoDup_cons in Hnd as [Hx Hnd]. simpl.
  apply elem_of_cons in Hin as [->|Hin].
  - by apply wireValues_other.
  - assert (Wire.id x ≠ Wire.id w) as Hne.
    { intros Heq. apply Hx. rewrite Heq. apply list_elem_of_fmap. by exists w. }
    rewrite IH by done. unfold setWireValue at 1 3.
    destruct (list_find (λ g, Gate.id g = Endpoint.gateId (Wire.from w)) gates)
      as [[k fromGate]|].
    + by rewrite !lookup_insert_eq.
    + by apply setWireValue_other.
Qed.

(** X14.  What a wire is drawn with is the signal the simulation reads
    off it: on a canvas whose wire ids are unique, the value shown for a
    wire is the output of the wire's source gate, and [false] when the
    source gate is missing. *)
Theorem shown_value_is_source_value (wires : list Wire.t) (gates : list Gate.t) w :
  NoDup (Wire.id <$> wires) → w ∈ wires →
  shownValue (wireValues wires gates) w = sourceValue gates w.
Proof.
  intros Hnd Hin. unfold shownValue, wireValues, sourceValue.
  rewrite (wireValues_lookup gates ∅ wires w Hnd Hin). unfold setWireValue.
  destruct (list_find _ gates) as [[k fromGate]|]; simpl.
  - rewrite lookup_insert_eq. simpl. apply orb_false_r.
  - by rewrite lookup_empty.
Qed.

Lemma shown_value_is_source_value_witness :
  shownValue (wireValues Examples.andWires (Examples.andGates true false))
    (Examples.wire "w1" "a" 0 "and" 0)
  = sourceValue (Examples.andGates true false) (Examples.wire "w1" "a" 0 "and" 0).
Proof.
  apply (shown_value_is_source_value Examples.andWires (Examples.andGates true false)
           (Examples.wire "w1" "a" 0 "and" 0)); by_evaluation.
Defined.

(** * The evaluation as a whole *)

(** ** What an evaluation leaves alone *)

#[global] Instance sameFrame_equiv : Equivalence sameFrame.
Proof.
  unfold sameFrame. split.
  - by intros a.
  - by intros a b.
  - intros a b c. congruence.
Qed.

Lemma sameFrame_type a b : sameFrame a b → Gate.type a = Gate.type b.
Proof. unfold sameFrame. by intros [=]. Qed.

Lemma sameShape_sameFrame a b : sameShape a b → sameFrame a b.
Proof. destruct a, b. unfold sameShape, sameFrame. simpl. intros [=]. by subst. Qed.

Lemma sameFrame_with_ports g ivs ovs : sameFrame g (Gate.with_ports g ivs ovs).
Proof. done. Qed.

#[global] Instance evaluatedFrom_preorder : PreOrder evaluatedFrom.
Proof.
  split.
  - intros a. by repeat split.
  - intros a b c (Hab & Hin & Hprim) (Hbc & Hin' & Hprim').
    pose proof (sameFrame_type _ _ Hab) as Hty. split; [by trans b|]. split.
    + intros Ha. rewrite <- (Hin Ha). apply Hin'. by rewrite <- Hty.
    + intros Ha. trans b; [by apply Hprim|]. apply Hprim'. by rewrite <- Hty.
Qed.

#[global] Instance Forall2_evaluatedFrom_preorder : PreOrder (Forall2 evaluatedFrom).
Proof. apply _. Qed.

Section Frame.

Variable customGates : gmap string Template.t.
Variable wires : list Wire.t.

Lemma expandSweep_evaluatedFrom tempGates next ch :
  expandSweep customGates wires tempGates = Return (next, ch) →
  Forall2 evaluatedFrom tempGates next.
Proof.
  intros Hsweep%expandSweep_gates. eapply Forall2_impl; [exact Hsweep|].
  intros g g' [c [[_ ->]|(Hty & template & simulated & _ & _ & ->)]%expandGate_cases];
    [done|].
  split; [apply sameFrame_with_ports|]. split; intros Hg; by rewrite Hty in Hg.
Qed.

Lemma runSimulation_evaluatedFrom gs result :
  runSimulation customGates gs wires = Return result →
  Forall2 evaluatedFrom gs result.
Proof.
  intros Hrun.
  pose proof (runSimulation_shape _ _ _ _ Hrun) as Hshape.
  pose proof (runSimulation_switches _ _ _ _ Hrun) as Hswitches.
  unfold sameSwitches in Hswitches. clear Hrun.
  revert Hswitches. induction Hshape as [|a b gs result Hab _ IH]; intros Hsw;
    [constructor|].
  apply Forall2_cons in Hsw as [[_ Hin] Hsw]. constructor; [|by apply IH].
  split; [by apply sameShape_sameFrame|]. split; [|done].
  intros Ha. symmetry. by apply Hin.
Qed.

Lemma mainRound_evaluatedFrom tempGates next ch :
  mainRound customGates wires tempGates = Return (next, ch) →
  Forall2 evaluatedFrom tempGates next.
Proof.
  intros (swept & Hsweep & Hrun)%mainRound_Return.
  trans swept; [by eapply expandSweep_evaluatedFrom|].
  by apply runSimulation_evaluatedFrom.
Qed.

(** Whatever every round preserves, the main loop preserves. *)
Lemma mainLoop_invariant (R : relation (list Gate.t)) `{!PreOrder R}
    remaining mainIterations tempGates result n :
  (∀ gs next ch, mainRound customGates wires gs = Return (next, ch) → R gs next) →
  mainLoop customGates remaining mainIterations wires tempGates = Return (result, n) →
  R tempGates result.
Proof.
  intros Hround. revert mainIterations tempGates.
  induction remaining as [|remaining IH]; intros mainIterations tempGates; simpl.
  - by intros [= <- _].
  - destruct (mainRound customGates wires tempGates) as [[next ch]|e] eqn:Hr; [|done].
    destruct ch.
    + intros Hloop. trans next; [by eapply Hround|by eapply IH].
    + intros [= <- _]. by eapply Hround.
Qed.

End Frame.

(** X15.  The evaluation writes only what it computes: it keeps the
    wires, the number and order of the gates, and of every gate the id,
    type, position, name and template name; it leaves a switch exactly as
    it was, changes nothing but the [value] of a primitive gate, and
    nothing but the [value] and the port arrays of a composite gate. *)
Theorem evaluation_frame customGates s s' :
  logicSimulation customGates s = Return s' →
  AppState.wires s' = AppState.wires s
  ∧ Forall2 evaluatedFrom (AppState.gates s) (AppState.gates s').
Proof.
  intros (n & Hloop & Hwires)%logicSimulation_Return. split; [done|].
  unfold logicSimulationCounted in Hloop.
  eapply (mainLoop_invariant customGates (AppState.wires s) (Forall2 evaluatedFrom));
    [|exact Hloop].
  apply mainRound_evaluatedFrom.
Qed.

Lemma evaluation_frame_witness :
  ∃ s',
    logicSimulation Nand.library (Nand.canvas true true) = Return s'
    ∧ AppState.wires s' = AppState.wires (Nand.canvas true true)
    ∧ Forall2 evaluatedFrom (AppState.gates (Nand.canvas true true))
        (AppState.gates s').
Proof.
  eexists. split; [vm_compute; reflexivity|].
  apply (evaluation_frame Nand.library). vm_compute. reflexivity.
Defined.

(** ** The port arrays after an evaluation *)

Lemma newInputValuesOf_length tempGates wires template g :
  length (newInputValuesOf tempGates wires template g)
  = length (Template.inputs template).
Proof. unfold newInputValuesOf. by rewrite length_fmap, length_seq. Qed.

Lemma newOutputValuesOf_length template simulated :
  length (newOutputValuesOf template simulated) = length (Template.outputs template).
Proof. unfold newOutputValuesOf. by rewrite length_fmap. Qed.

(** X16.  After an evaluation every composite gate whose template is in
    the library holds port arrays of the template's sizes: one input value
    per input port and one output value per output port, whatever arrays,
    if any, it held before. *)
Theorem evaluated_ports_fit_template customGates s s' g template :
  logicSimulation customGates s = Return s' →
  g ∈ AppState.gates s' →
  Gate.type g = CUSTOM →
  customGates !! templateKey g = Some template →
  ∃ ivs ovs,
    Gate.inputValues g = Some ivs ∧ Gate.outputValues g = Some ovs
    ∧ length ivs = length (Template.inputs template)
    ∧ length ovs = length (Template.outputs template).
Proof.
  intros (n & Hloop & _)%logicSimulation_Return Hin Hty Hdef.
  unfold logicSimulationCounted, MAX_MAIN_ITERATIONS in Hloop.
  apply mainLoop_Return in Hloop as (prev & ch & _ & Hround & _).
  apply mainRound_Return in Hround as (swept & Hsweep & Hrun).
  apply expandSweep_gates in Hsweep.
  apply runSimulation_shape in Hrun.
  apply list_elem_of_lookup in Hin as [i Hi].
  destruct (Forall2_lookup_r _ _ _ _ _ Hrun Hi) as (g0 & Hg0 & Hshape).
  destruct (Forall2_lookup_r _ _ _ _ _ Hsweep Hg0) as (p & Hp & c & Hexpand).
  destruct (sameShape_ports _ _ Hshape) as [<- <-].
  rewrite <- (sameShape_templateKey _ _ Hshape) in Hdef.
  rewrite <- (sameShape_type _ _ Hshape) in Hty.
  apply expandGate_cases in Hexpand
    as [[Hnone ->]|(_ & template' & simulated & Hdef' & _ & ->)].
  - destruct Hnone as [Hnone|Hnone]; [done|congruence].
  - assert (∀ ivs ovs, templateKey (Gate.with_ports p ivs ovs) = templateKey p)
      as Hkey by done.
    rewrite Hkey, Hdef' in Hdef. injection Hdef as ->.
    eexists _, _. split; [reflexivity|]. split; [reflexivity|].
    by rewrite newInputValuesOf_length, newOutputValuesOf_length.
Qed.

Lemma evaluated_ports_fit_template_witness :
  ∃ s' g ivs ovs,
    logicSimulation Stale.library Stale.canvas = Return s'
    ∧ AppState.gates s' !! 2 = Some g
    ∧ Gate.inputValues g = Some ivs ∧ Gate.outputValues g = Some ovs
    ∧ length ivs = length (Template.inputs Stale.buffer)
    ∧ length ovs = length (Template.outputs Stale.buffer).
Proof.
  eexists _, _.
  destruct (evaluated_ports_fit_template Stale.library Stale.canvas _ _ Stale.buffer
              ltac:(vm_compute; reflexivity)
              ltac:(apply (list_elem_of_lookup_2 _ 2); vm_compute; reflexivity)
              ltac:(reflexivity) ltac:(reflexivity))
    as (ivs & ovs & Hivs & Hovs & Hlen).
  exists ivs, ovs. split; [vm_compute; reflexivity|]. split; [vm_compute; reflexivity|].
  by split.
Defined.

(** ** Wires whose source gate is gone *)






(** ** Stopping before the cap *)

(** X17.  When [runSimulation] stops before its fiftieth pass, the gates
    it returns are settled: one more pass would change none of them, and,
    on a canvas where no port has two wires, every gate whose input ports
    are all wired holds the value of its formula on the signals of the
    returned list. *)
Theorem early_stop_is_settled customGates wireList gs result n :
  runSimulationCounted customGates gs wireList = Return (result, n) →
  n < MAX_ITERATIONS →
  simulationPass customGates wireList result = Return (result, false)
  ∧ (fanInAtMostOne wireList →
     ∀ i g v, result !! i = Some g → wiredFormula wireList result g v →
              Gate.value g = v).
Proof.
  unfold runSimulationCounted, MAX_ITERATIONS. intros Hloop Hn.
  apply simulationLoop_Return in Hloop as (prev & ch & _ & Hpass & _ & Hquiet).
  rewrite (Hquiet ltac:(lia)) in Hpass.
  pose proof (simulationPass_Return _ _ _ _ _ Hpass) as [_ Hsame].
  rewrite (proj1 Hsame eq_refl) in Hpass |- *.
  split; [done|]. intros Hfan i g v Hi Hformula.
  by eapply settled_gate_formula.
Qed.

Lemma early_stop_is_settled_witness :
  ∃ result,
    runSimulationCounted ∅ (Examples.andGates true true) Examples.andWires
      = Return (result, 3)
    ∧ simulationPass ∅ Examples.andWires result = Return (result, false)
    ∧ (fanInAtMostOne Examples.andWires →
       ∀ i g v, result !! i = Some g → wiredFormula Examples.andWires result g v →
                Gate.value g = v).
Proof.
  eexists. split; [vm_compute; reflexivity|].
  apply (early_stop_is_settled ∅ Examples.andWires (Examples.andGates true true) _ 3).
  - vm_compute. reflexivity.
  - unfold MAX_ITERATIONS. lia.
Defined.

(** ** Canvases without composite gates *)

Lemma expandSweep_primitive customGates wires tempGates :
  Forall (λ g, Gate.type g ≠ CUSTOM) tempGates →
  expandSweep customGates wires tempGates = Return (tempGates, false).
Proof.
  intros Hprim. unfold expandSweep.
  assert (mapM (expandGate customGates tempGates wires) tempGates
          = Return ((λ g, (g, false)) <$> tempGates)) as ->.
  { generalize tempGates at 1 as ref. intros ref.
    induction Hprim as [|g l Hg _ IH]; [done|].
    by rewrite mapM_completion_cons, expandGate_primitive, IH. }
  simpl. do 2 f_equal.
  - rewrite <- list_fmap_compose. apply list_fmap_id.
  - clear Hprim. by induction tempGates.
Qed.

(** X18.  On a canvas without composite gates the evaluation is one run
    of the flat engine: it always returns, after exactly one round of the
    main loop, with the gate list [runSimulation] yields for the canvas. *)
Theorem flat_canvas_takes_one_round customGates s :
  Forall (λ g, Gate.type g ≠ CUSTOM) (AppState.gates s) →
  ∃ result,
    runSimulation customGates (AppState.gates s) (AppState.wires s) = Return result
    ∧ logicSimulationCounted customGates s = Return (result, 1).
Proof.
  intros Hprim.
  destruct (runSimulation_total customGates (AppState.wires s) (AppState.gates s))
    as [result Hrun].
  { eapply Forall_impl; [exact Hprim|]. by intros g Hg Hty. }
  exists result. split; [done|].
  unfold logicSimulationCounted, MAX_MAIN_ITERATIONS.
  rewrite mainLoop_unfold. unfold mainRound.
  by rewrite expandSweep_primitive, Hrun.
Qed.

Lemma flat_canvas_takes_one_round_witness :
  ∃ result,
    runSimulation ∅ (Chain.canvas 3).(AppState.gates) (Chain.canvas 3).(AppState.wires)
      = Return result
    ∧ logicSimulationCounted ∅ (Chain.canvas 3) = Return (result, 1).
Proof.
  apply (flat_canvas_takes_one_round ∅ (Chain.canvas 3)). by_evaluation.
Defined.

(** ** Composite gates inside composite gates *)

Lemma seedInput_shape gs inputDef v : Forall2 sameShape gs (seedInput gs inputDef v).
Proof.
  unfold seedInput.
  destruct (list_find _ gs) as [[k ig]|] eqn:Hfind; [|apply Forall2_sameShape_refl].
  apply list_find_Some in Hfind as (Hk & _ & _).
  rewrite <- (list_insert_id gs k ig) at 1 by done.
  apply Forall2_insert; [apply Forall2_sameShape_refl|apply sameShape_with_value].
Qed.

Lemma innerGates_shape template newInputValues :
  Forall2 sameShape (Template.gates template) (innerGates template newInputValues).
Proof.
  unfold innerGates, seedInputs.
  assert (Forall2 sameShape (Template.gates template) (instantiateGates template))
    as Hinst.
  { unfold instantiateGates. apply Forall2_fmap_r, Forall_Forall2_diag, Forall_forall.
    intros g _. apply sameShape_with_value. }
  revert Hinst. generalize (instantiateGates template) as gs.
  induction (zip (Template.inputs template) newInputValues) as [|[d v] l IH];
    intros gs Hgs; simpl; [done|].
  apply IH. eapply Forall2_sameShape_trans; [exact Hgs|]. apply seedInput_shape.
Qed.

Lemma gateOutput_shape a b portIndex :
  sameShape a b → Gate.type a = CUSTOM →
  gateOutput a portIndex = gateOutput b portIndex.
Proof.
  intros Hshape Hty. unfold gateOutput.
  rewrite <- (sameShape_type _ _ Hshape), Hty.
  by rewrite (sameShape_outputValues _ _ Hshape).
Qed.

(** X19.  Composite gates nested in a template are not evaluated.  When
    the sweep simulates the inside of a composite gate, a composite gate
    found there keeps the port arrays stored in the template, so that on
    each of its output ports it gives the value saved with the template,
    whatever drives its inputs. *)
Theorem nested_composites_are_frozen customGates tempGates wires g g' ch template :
  Gate.type g = CUSTOM →
  customGates !! templateKey g = Some template →
  expandGate customGates tempGates wires g = Return (g', ch) →
  ∃ simulated,
    runSimulation customGates
      (innerGates template (newInputValuesOf tempGates wires template g))
      (instantiateWires template) = Return simulated
    ∧ Gate.outputValues g' = Some (newOutputValuesOf template simulated)
    ∧ Forall2 (λ saved inner,
                 Gate.type saved = CUSTOM →
                 Gate.inputValues inner = Gate.inputValues saved
                 ∧ Gate.outputValues inner = Gate.outputValues saved
                 ∧ ∀ portIndex, gateOutput inner portIndex = gateOutput saved portIndex)
        (Template.gates template) simulated.
Proof.
  intros Hty Hdef Hexpand.
  apply expandGate_cases in Hexpand
    as [[Hnone ->]|(_ & template' & simulated & Hdef' & Hrun & ->)].
  { destruct Hnone as [Hnone|Hnone]; [done|congruence]. }
  rewrite Hdef in Hdef'. injection Hdef' as <-.
  exists simulated. split; [done|]. split; [done|].
  pose proof (Forall2_sameShape_trans _ _ _
                (innerGates_shape template _)
                (runSimulation_shape _ _ _ _ Hrun)) as Hshape.
  eapply Forall2_impl; [exact Hshape|].
  intros saved inner Hsame Hcustom.
  destruct (sameShape_ports _ _ Hsame) as [Hivs Hovs].
  split; [done|]. split; [done|]. intros portIndex. symmetry.
  by apply gateOutput_shape.
Qed.

Lemma nested_composites_are_frozen_witness :
  ∃ g' ch simulated,
    expandGate Nested.library (AppState.gates Nested.canvas)
      (AppState.wires Nested.canvas) Nested.instance = Return (g', ch)
    ∧ Gate.outputValues g' = Some [true]
    ∧ runSimulation Nested.library
        (innerGates Nested.wrapper
           (newInputValuesOf (AppState.gates Nested.canvas)
              (AppState.wires Nested.canvas) Nested.wrapper Nested.instance))
        (instantiateWires Nested.wrapper) = Return simulated
    ∧ Gate.outputValues g' = Some (newOutputValuesOf Nested.wrapper simulated)
    ∧ Forall2 (λ saved inner,
                 Gate.type saved = CUSTOM →
                 Gate.inputValues inner = Gate.inputValues saved
                 ∧ Gate.outputValues inner = Gate.outputValues saved
                 ∧ ∀ portIndex, gateOutput inner portIndex = gateOutput saved portIndex)
        (Template.gates Nested.wrapper) simulated.
Proof.
  eexists _, _.
  destruct (nested_composites_are_frozen Nested.library (AppState.gates Nested.canvas)
              (AppState.wires Nested.canvas) Nested.instance _ _ Nested.wrapper
              eq_refl eq_refl ltac:(vm_compute; reflexivity))
    as (simulated & Hrun & Hout & Hfrozen).
  exists simulated. split; [vm_compute; reflexivity|]. split; [|done].
  rewrite Hout. vm_compute in Hrun. injection Hrun as <-. reflexivity.
Defined.

(** ** What the result of an evaluation depends on *)

Section Forgetful.

Variable customGates : gmap string Template.t.
Variable wires : list Wire.t.
Variable rank : string → nat.

Hypothesis layered :
  ∀ w, w ∈ wires →
    rank (Endpoint.gateId (Wire.from w)) < rank (Endpoint.gateId (Wire.to w)).

Lemma agreeBelow_0_intro A B :
  Forall2 sameShape A B → sameSwitches A B → agreeBelow rank 0 A B.
Proof.
  intros Hshape Hsw. unfold sameSwitches in Hsw. revert Hsw.
  induction Hshape as [|a b A B Hab _ IH]; intros Hsw; [constructor|].
  apply Forall2_cons in Hsw as [[_ Hin] Hsw]. constructor; [|by apply IH].
  split; [done|]. intros [Hlt|Ha]; [lia|by apply Hin].
Qed.

Lemma agreeBelow_0_sym A B : agreeBelow rank 0 A B → agreeBelow rank 0 B A.
Proof.
  induction 1 as [|a b A B [Hab Hin] _ IH]; constructor; [|done].
  split; [done|]. intros [Hlt|Hb]; [lia|]. symmetry. apply Hin. right.
  by rewrite (sameShape_type _ _ Hab).
Qed.

Lemma agreeBelow_0_trans A B C :
  agreeBelow rank 0 A B → agreeBelow rank 0 B C → agreeBelow rank 0 A C.
Proof.
  intros HAB. revert C. induction HAB as [|a b A B [Hab Hin] _ IH]; intros C HBC.
  - done.
  - apply Forall2_cons_inv_l in HBC as (c & C' & [Hbc Hin'] & HBC & ->).
    constructor; [|by apply IH]. split; [by trans b|].
    intros [Hlt|Ha]; [lia|]. rewrite (Hin (or_intror Ha)). apply Hin'. right.
    by rewrite <- (sameShape_type _ _ Hab).
Qed.

Lemma settled_lists_agree k A B :
  agreeBelow rank 0 A B →
  simulationPass customGates wires A = Return (A, false) →
  simulationPass customGates wires B = Return (B, false) →
  agreeBelow rank k A B.
Proof.
  intros Hagree HA HB. induction k as [|k IH]; [done|].
  apply simulationPass_Return in HA as [HA _].
  apply simulationPass_Return in HB as [HB _].
  by eapply (stepsTo_agree customGates wires rank layered k A B A B A B).
Qed.

Lemma runSimulation_forgets A B :
  agreeBelow rank 0 A B →
  Forall (resolvable customGates) A →
  Forall (λ g, rank (Gate.id g) < MAX_ITERATIONS) A →
  ∃ result,
    runSimulation customGates A wires = Return result
    ∧ runSimulation customGates B wires = Return result
    ∧ simulationPass customGates wires result = Return (result, false).
Proof.
  intros Hagree Hres Hrank.
  assert (Forall2 sameShape A B) as Hshape.
  { eapply Forall2_impl; [exact Hagree|]. by intros a b [? _]. }
  destruct (simulationLoop_settles customGates wires rank layered MAX_ITERATIONS 0 0 A)
    as (rA & nA & HloopA & HfixA & HshapeA); [done| |done|].
  { intros next c. apply agreeBelow_pass. }
  destruct (simulationLoop_settles customGates wires rank layered MAX_ITERATIONS 0 0 B)
    as (rB & nB & HloopB & HfixB & HshapeB).
  { by eapply Forall2_sameShape_resolvable. }
  { intros next c. apply agreeBelow_pass. }
  { clear -Hshape Hrank. induction Hshape as [|a b A B Hab _ IH]; [done|].
    apply Forall_cons in Hrank as [Ha HA]. constructor; [|by apply IH].
    by rewrite <- (sameShape_id _ _ Hab). }
  assert (agreeBelow rank 0 rA rB) as Hresults.
  { apply agreeBelow_0_trans with A.
    - apply agreeBelow_0_sym, agreeBelow_0_intro; [done|].
      by eapply simulationLoop_switches.
    - apply agreeBelow_0_trans with B; [done|].
      apply agreeBelow_0_intro; [done|]. by eapply simulationLoop_switches. }
  assert (rA = rB) as <-.
  { eapply (agreeBelow_eq rank MAX_ITERATIONS).
    - by apply settled_lists_agree.
    - clear -HshapeA Hrank. induction HshapeA as [|a b A B Hab _ IH]; [done|].
      apply Forall_cons in Hrank as [Ha HA]. constructor; [|by apply IH].
      by rewrite <- (sameShape_id _ _ Hab). }
  exists rA. unfold runSimulation, runSimulationCounted.
  by rewrite HloopA, HloopB.
Qed.

End Forgetful.

Lemma sameFrame_sameKind a b : sameFrame a b → sameKind a b.
Proof. unfold sameFrame, sameKind. by intros [=]. Qed.

Lemma evaluatedFrom_sameKind gs1 gs2 :
  Forall2 evaluatedFrom gs1 gs2 → Forall2 sameKind gs1 gs2.
Proof.
  intros H. eapply Forall2_impl; [exact H|].
  intros a b [Hframe _]. by apply sameFrame_sameKind.
Qed.

Lemma evaluatedFrom_sameSwitches gs1 gs2 :
  Forall2 evaluatedFrom gs1 gs2 → sameSwitches gs1 gs2.
Proof.
  intros H. eapply Forall2_impl; [exact H|].
  intros a b (Hframe & Hin & _). split; [by apply sameFrame_sameKind|].
  intros Ha. symmetry. by apply Hin.
Qed.

Lemma feedbackFree_evaluatedFrom customGates rank s1 s2 :
  feedbackFree customGates rank s1 →
  AppState.wires s2 = AppState.wires s1 →
  Forall2 evaluatedFrom (AppState.gates s1) (AppState.gates s2) →
  feedbackFree customGates rank s2.
Proof.
  intros (Hlayered & Hshallow & Hres & Hexp & Hswitched) Hwires Hgates.
  pose proof (evaluatedFrom_sameKind _ _ Hgates) as Hkind.
  unfold feedbackFree. rewrite Hwires. split; [done|]. split; [|split; [|split]].
  - clear -Hkind Hshallow. induction Hkind as [|a b A B Hab _ IH]; [done|].
    apply Forall_cons in Hshallow as [Ha HA]. constructor; [|by apply IH].
    destruct Hab as (<- & _). done.
  - by eapply Forall2_sameKind_resolvable.
  - by eapply Forall2_sameKind_expandable.
  - intros g w fg Hg Hty Hw Hto Hfg Hfrom.
    apply list_elem_of_lookup in Hg as [i Hi], Hfg as [j Hj].
    destruct (Forall2_lookup_r _ _ _ _ _ Hkind Hi) as (g1 & Hi1 & Hk1 & Hty1 & _).
    destruct (Forall2_lookup_r _ _ _ _ _ Hkind Hj) as (fg1 & Hj1 & Hfk1 & Hfty1 & _).
    rewrite <- Hfty1.
    apply (Hswitched g1 w fg1); try done.
    + by eapply list_elem_of_lookup_2.
    + congruence.
    + congruence.
    + by eapply list_elem_of_lookup_2.
    + congruence.
Qed.

Lemma settled_result customGates s settled ch :
  mainRound customGates (AppState.wires s) (AppState.gates s) = Return (settled, ch) →
  mainRound customGates (AppState.wires s) settled = Return (settled, false) →
  logicSimulation customGates s = Return (AppState.mk settled (AppState.wires s)).
Proof.
  intros Hfirst Hsettled.
  unfold logicSimulation, logicSimulationCounted.
  change MAX_MAIN_ITERATIONS with (S (S 8)).
  rewrite mainLoop_unfold, Hfirst. destruct ch; [|done].
  by rewrite mainLoop_unfold, Hsettled.
Qed.

Lemma sweeps_agree customGates rank wires gs1 gs2 swept1 swept2 ch1 ch2 :
  feedbackFree customGates rank (AppState.mk gs1 wires) →
  Forall2 evaluatedFrom gs1 gs2 →
  expandSweep customGates wires gs1 = Return (swept1, ch1) →
  expandSweep customGates wires gs2 = Return (swept2, ch2) →
  agreeBelow rank 0 swept1 swept2.
Proof.
  intros (_ & _ & Hres & _ & Hswitched) Hgates Hsweep1 Hsweep2.
  simpl in Hres, Hswitched.
  apply expandSweep_gates in Hsweep1, Hsweep2.
  pose proof (evaluatedFrom_sameSwitches _ _ Hgates) as Hsw.
  apply Forall2_same_length_lookup. split.
  { rewrite <- (Forall2_length _ _ _ Hsweep1), <- (Forall2_length _ _ _ Hsweep2).
    by eapply Forall2_length. }
  intros i a' b' Ha' Hb'.
  destruct (Forall2_lookup_r _ _ _ _ _ Hsweep1 Ha') as (a & Ha & c1 & Hexp1).
  destruct (Forall2_lookup_r _ _ _ _ _ Hsweep2 Hb') as (b & Hb & c2 & Hexp2).
  destruct (Forall2_lookup_lr _ _ _ _ _ _ Hgates Ha Hb) as (Hframe & Hin & Hprim).
  destruct (decide (Gate.type a = CUSTOM)) as [Hty|Hty].
  - rewrite expandGate_recomputedPorts in Hexp1, Hexp2.
    rewrite <- (recomputedPorts_switches customGates wires gs1 gs2 a b) in Hexp2;
      [|done|by apply sameFrame_sameKind|].
    + assert (is_Some (customGates !! templateKey a)) as [template Hdef].
      { rewrite Forall_forall in Hres. apply Hres; [|done].
        by eapply list_elem_of_lookup_2. }
      unfold recomputedPorts in Hexp1, Hexp2.
      rewrite decide_False in Hexp1, Hexp2 by (intros H; by apply H).
      rewrite Hdef in Hexp1, Hexp2.
      destruct (runSimulation _ _ _) as [simulated|e]; simpl in *; [|done].
      injection Hexp1 as <- _. injection Hexp2 as <- _.
      split.
      * unfold sameShape, sameFrame in *. destruct a, b. simpl in *.
        injection Hframe as -> -> -> -> ->. done.
      * intros [Hlt|Hinput]; [lia|]. simpl in Hinput. congruence.
    + intros w fg Hw Hto Hfg Hfrom.
      eapply (Hswitched a w fg); try done. by eapply list_elem_of_lookup_2.
  - rewrite expandGate_primitive in Hexp1 by done.
    rewrite expandGate_primitive in Hexp2
      by (by rewrite <- (sameFrame_type _ _ Hframe)).
    injection Hexp1 as <- _. injection Hexp2 as <- _.
    split; [by apply Hprim|]. intros [Hlt|Hinput]; [lia|]. symmetry. by apply Hin.
Qed.

(** X20.  On a feedback-free canvas the result of the evaluation depends
    on the switches and the wiring alone.  Two canvases that differ only
    in what an evaluation writes, the [value] of gates that are not
    switches and the port arrays of composite gates, evaluate to the same
    state; stale values left by earlier evaluations play no part. *)
Theorem evaluation_forgets_stale_values customGates (rank : string → nat) s1 s2 :
  feedbackFree customGates rank s1 →
  AppState.wires s2 = AppState.wires s1 →
  Forall2 evaluatedFrom (AppState.gates s1) (AppState.gates s2) →
  ∃ s',
    logicSimulation customGates s1 = Return s'
    ∧ logicSimulation customGates s2 = Return s'.
Proof.
  intros Hfree1 Hwires Hgates.
  pose proof (feedbackFree_evaluatedFrom _ _ _ _ Hfree1 Hwires Hgates) as Hfree2.
  destruct Hfree1 as (Hlayered & Hshallow & Hres & Hexp & Hswitched).
  destruct (first_round_settles customGates (AppState.wires s1) (AppState.gates s1)
              rank Hlayered Hshallow Hres Hexp Hswitched)
    as (settled1 & ch1 & Hfirst1 & Hsettled1).
  destruct Hfree2 as (Hlayered2 & Hshallow2 & Hres2 & Hexp2 & Hswitched2).
  destruct (first_round_settles customGates (AppState.wires s2) (AppState.gates s2)
              rank Hlayered2 Hshallow2 Hres2 Hexp2 Hswitched2)
    as (settled2 & ch2 & Hfirst2 & Hsettled2).
  assert (settled1 = settled2) as <-.
  { rewrite Hwires in Hfirst2.
    apply mainRound_Return in Hfirst1 as (swept1 & Hsweep1 & Hrun1).
    apply mainRound_Return in Hfirst2 as (swept2 & Hsweep2 & Hrun2).
    assert (agreeBelow rank 0 swept1 swept2) as Hagree.
    { apply (sweeps_agree customGates rank (AppState.wires s1)
               (AppState.gates s1) (AppState.gates s2) swept1 swept2 ch1 ch2);
        [|exact Hgates|exact Hsweep1|exact Hsweep2].
      exact (conj Hlayered (conj Hshallow (conj Hres (conj Hexp Hswitched)))). }
    destruct (runSimulation_forgets customGates (AppState.wires s1) rank Hlayered
                swept1 swept2 Hagree) as (result & Hr1 & Hr2 & _).
    - eapply Forall2_sameKind_resolvable; [by eapply expandSweep_kind|done].
    - pose proof (expandSweep_kind _ _ _ _ _ Hsweep1) as Hkind.
      clear -Hkind Hshallow. induction Hkind as [|a b A B Hab _ IH]; [done|].
      apply Forall_cons in Hshallow as [Ha HA]. constructor; [|by apply IH].
      destruct Hab as (<- & _). done.
    - congruence. }
  exists (AppState.mk settled1 (AppState.wires s1)). split.
  - exact (settled_result customGates s1 settled1 ch1 Hfirst1 Hsettled1).
  - rewrite <- Hwires.
    exact (settled_result customGates s2 settled1 ch2 Hfirst2 Hsettled2).
Qed.

Lemma evaluation_forgets_stale_values_witness :
  ∃ s',
    logicSimulation Nand.library (Nand.canvas true false) = Return s'
    ∧ logicSimulation Nand.library (Nand.markedCanvas true false) = Return s'.
Proof.
  apply (evaluation_forgets_stale_values Nand.library
           (λ id, if decide (id = "NAND-14") then 1
                  else if decide (id = "OUTPUT-13") then 2 else 0)
           (Nand.canvas true false) (Nand.markedCanvas true false)).
  - split; [|split; [|split; [|split]]].
    + intros w Hw. vm_compute in Hw.
      repeat (apply elem_of_cons in Hw as [->|Hw]; [vm_compute; lia|]).
      by apply elem_of_nil in Hw.
    + unfold MAX_ITERATIONS. repeat constructor; vm_compute; lia.
    + by_evaluation.
    + repeat constructor; intros Hty; try discriminate.
      intros template [= <-]. by_evaluation.
    + intros g w fg Hg Hty Hw Hto Hfg Hfrom.
      vm_compute in Hg, Hw, Hfg.
      repeat (apply elem_of_cons in Hg as [->|Hg]); try (by apply elem_of_nil in Hg);
        try discriminate Hty;
        repeat (apply elem_of_cons in Hw as [->|Hw]); try (by apply elem_of_nil in Hw);
        try discriminate Hto;
        repeat (apply elem_of_cons in Hfg as [->|Hfg]);
        try (by apply elem_of_nil in Hfg);
        try discriminate Hfrom; reflexivity.
  - reflexivity.
  - by_evaluation.
Defined.

(** ** Clicking a switch twice *)

(** What a click does to the canvas: the switches with the clicked id are
    toggled when the first gate with that id is a switch and the pointer
    was not dragged. *)
Lemma handleGateClick_canvas hasDragged isReadOnly shiftKey gateId s selectedGateIds :
  (handleGateClick hasDragged isReadOnly shiftKey gateId s selectedGateIds).1
  = if negb hasDragged
       && match list_find (λ g, Gate.id g = gateId) (AppState.gates s) with
          | Some (_, gate) => bool_decide (Gate.type gate = INPUT)
          | None => false
          end
    then handleInputToggle gateId s else s.
Proof.
  unfold handleGateClick. destruct hasDragged; [done|]. simpl.
  destruct (list_find (λ g, Gate.id g = gateId) (AppState.gates s))
    as [[k gate]|]; [|reflexivity].
  destruct (decide (Gate.type gate = INPUT)) as [Hty|Hty].
  - rewrite (bool_decide_eq_true_2 (Gate.type gate = INPUT)) by done.
    by destruct isReadOnly.
  - rewrite (bool_decide_eq_false_2 (Gate.type gate = INPUT)) by done.
    by destruct isReadOnly.
Qed.

Lemma clicked_kind gateId A B :
  Forall2 sameKind A B →
  match list_find (λ g, Gate.id g = gateId) A with
  | Some (_, gate) => bool_decide (Gate.type gate = INPUT)
  | None => false
  end
  = match list_find (λ g, Gate.id g = gateId) B with
    | Some (_, gate) => bool_decide (Gate.type gate = INPUT)
    | None => false
    end.
Proof.
  induction 1 as [|a b A B (Hid & Hty & _) _ IH]; [done|].
  cbn [list_find]. rewrite <- Hid.
  destruct (decide (Gate.id a = gateId)); [by rewrite Hty|].
  destruct (list_find _ A) as [[? ?]|], (list_find _ B) as [[? ?]|]; done.
Qed.

Lemma handleInputToggle_kind gateId s :
  Forall2 sameKind (AppState.gates s) (AppState.gates (handleInputToggle gateId s)).
Proof.
  unfold handleInputToggle. simpl. apply Forall2_fmap_r, Forall_Forall2_diag.
  apply Forall_forall. intros g _. unfold compose.
  destruct (decide (Gate.id g = gateId ∧ Gate.type g = INPUT)); [|reflexivity].
  apply sameKind_with_value.
Qed.

(** A switch toggled, the canvas evaluated, and the switch toggled back:
    what is left differs from the first canvas in nothing but what an
    evaluation writes. *)
Lemma toggle_evaluate_toggle gateId gs lit :
  Forall2 evaluatedFrom (AppState.gates (handleInputToggle gateId gs))
    (AppState.gates lit) →
  Forall2 evaluatedFrom (AppState.gates gs)
    (AppState.gates (handleInputToggle gateId lit)).
Proof.
  unfold handleInputToggle. simpl. intros Hev.
  rewrite Forall2_fmap_l in Hev. rewrite Forall2_fmap_r.
  eapply Forall2_impl; [exact Hev|]. intros a b. unfold compose.
  destruct (decide (Gate.id a = gateId ∧ Gate.type a = INPUT)) as [[Hid Hty]|Ha].
  - intros (_ & Hin & _). rewrite Hin by (by destruct a).
    rewrite decide_True by (by destruct a).
    destruct a; simpl. rewrite negb_involutive. reflexivity.
  - intros Hab. pose proof Hab as (Hframe & _).
    rewrite decide_False; [done|].
    unfold sameFrame in Hframe. destruct a, b. simpl in *.
    injection Hframe as <- <- _ _ _. done.
Qed.

Lemma logicSimulation_evaluatedFrom customGates s s' :
  logicSimulation customGates s = Return s' →
  Forall2 evaluatedFrom (AppState.gates s) (AppState.gates s').
Proof.
  intros (n & Hloop & _)%logicSimulation_Return.
  unfold logicSimulationCounted in Hloop.
  eapply (mainLoop_invariant customGates (AppState.wires s) (Forall2 evaluatedFrom));
    [|exact Hloop].
  apply mainRound_evaluatedFrom.
Qed.

(** Two canvases that differ only in what an evaluation writes settle in
    their first round, and in the same list. *)
Lemma first_rounds_agree customGates rank wires gs1 gs2 :
  feedbackFree customGates rank (AppState.mk gs1 wires) →
  Forall2 evaluatedFrom gs1 gs2 →
  ∃ settled ch1 ch2,
    mainRound customGates wires gs1 = Return (settled, ch1)
    ∧ mainRound customGates wires gs2 = Return (settled, ch2)
    ∧ mainRound customGates wires settled = Return (settled, false).
Proof.
  intros Hfree1 Hgates.
  pose proof (feedbackFree_evaluatedFrom customGates rank (AppState.mk gs1 wires)
                (AppState.mk gs2 wires) Hfree1 eq_refl Hgates) as Hfree2.
  pose proof Hfree1 as (Hlayered & Hshallow & Hres & Hexp & Hswitched).
  destruct (first_round_settles customGates wires gs1
              rank Hlayered Hshallow Hres Hexp Hswitched)
    as (settled1 & ch1 & Hfirst1 & Hsettled1).
  destruct Hfree2 as (Hlayered2 & Hshallow2 & Hres2 & Hexp2 & Hswitched2).
  destruct (first_round_settles customGates wires gs2
              rank Hlayered2 Hshallow2 Hres2 Hexp2 Hswitched2)
    as (settled2 & ch2 & Hfirst2 & Hsettled2).
  simpl in *.
  exists settled1, ch1, ch2. split; [done|]. split; [|done].
  assert (settled1 = settled2) as ->; [|done].
  apply mainRound_Return in Hfirst1 as (swept1 & Hsweep1 & Hrun1).
  apply mainRound_Return in Hfirst2 as (swept2 & Hsweep2 & Hrun2).
  assert (agreeBelow rank 0 swept1 swept2) as Hagree.
  { exact (sweeps_agree customGates rank wires gs1 gs2 swept1 swept2 ch1 ch2
             Hfree1 Hgates Hsweep1 Hsweep2). }
  destruct (runSimulation_forgets customGates wires rank Hlayered
              swept1 swept2 Hagree) as (result & Hr1 & Hr2 & _).
  - eapply Forall2_sameKind_resolvable; [by eapply expandSweep_kind|done].
  - pose proof (expandSweep_kind _ _ _ _ _ Hsweep1) as Hkind.
    clear -Hkind Hshallow. induction Hkind as [|a b A B Hab _ IH]; [done|].
    apply Forall_cons in Hshallow as [Ha HA]. constructor; [|by apply IH].
    destruct Hab as (<- & _). done.
  - congruence.
Qed.

Lemma feedbackFree_kind customGates rank s1 s2 :
  feedbackFree customGates rank s1 →
  AppState.wires s2 = AppState.wires s1 →
  Forall2 sameKind (AppState.gates s1) (AppState.gates s2) →
  feedbackFree customGates rank s2.
Proof.
  intros (Hlayered & Hshallow & Hres & Hexp & Hswitched) Hwires Hkind.
  unfold feedbackFree. rewrite Hwires. split; [done|]. split; [|split; [|split]].
  - clear -Hkind Hshallow. induction Hkind as [|a b A B Hab _ IH]; [done|].
    apply Forall_cons in Hshallow as [Ha HA]. constructor; [|by apply IH].
    destruct Hab as (<- & _). done.
  - by eapply Forall2_sameKind_resolvable.
  - by eapply Forall2_sameKind_expandable.
  - intros g w fg Hg Hty Hw Hto Hfg Hfrom.
    destruct (elem_of_sameKind _ _ _ Hkind Hg) as (g1 & Hg1 & Hk1 & Hty1 & _).
    destruct (elem_of_sameKind _ _ _ Hkind Hfg) as (fg1 & Hfg1 & Hfk1 & Hfty1 & _).
    rewrite <- Hfty1. apply (Hswitched g1 w fg1); congruence.
Qed.

(** X6.  On a feedback-free canvas two clicks on the same gate, each
    followed by the evaluation that the change of the gates sets off,
    bring the canvas to the state in which the evaluation leaves the
    canvas as it was before the clicks: a switch is toggled and toggled
    back, and what the first evaluation wrote meanwhile is forgotten by
    the second.  Both states are final, as a further run of the effect
    changes neither, and a canvas that was evaluated before the clicks is
    restored. *)
Theorem click_twice_restores_canvas customGates (rank : string → nat)
    hasDragged isReadOnly shiftKey gateId s selectedGateIds selectedGateIds' :
  feedbackFree customGates rank s →
  ∃ lit settled,
    logicSimulation customGates
      (handleGateClick hasDragged isReadOnly shiftKey gateId s selectedGateIds).1
    = Return lit
    ∧ logicSimulation customGates lit = Return lit
    ∧ logicSimulation customGates
        (handleGateClick hasDragged isReadOnly shiftKey gateId lit selectedGateIds').1
      = Return settled
    ∧ logicSimulation customGates settled = Return settled
    ∧ logicSimulation customGates s = Return settled
    ∧ (logicSimulation customGates s = Return s → settled = s).
Proof.
  intros Hfree.
  rewrite handleGateClick_canvas.
  set (clicked := negb hasDragged && _).
  set (once := if clicked then handleInputToggle gateId s else s).
  assert (AppState.wires once = AppState.wires s) as Hwires.
  { unfold once. by destruct clicked. }
  assert (Forall2 sameKind (AppState.gates s) (AppState.gates once)) as Hkind.
  { unfold once. destruct clicked; [apply handleInputToggle_kind|reflexivity]. }
  pose proof (feedbackFree_kind _ _ _ _ Hfree Hwires Hkind)
    as (Hlayered & Hshallow & Hres & Hexp & Hswitched).
  destruct (first_round_settles customGates (AppState.wires once)
              (AppState.gates once) rank Hlayered Hshallow Hres Hexp Hswitched)
    as (result & c & Hfirst & Hfixed).
  set (lit := AppState.mk result (AppState.wires once)).
  assert (logicSimulation customGates once = Return lit) as Hlit.
  { exact (settled_result customGates once result c Hfirst Hfixed). }
  exists lit. rewrite handleGateClick_canvas.
  pose proof (logicSimulation_evaluatedFrom _ _ _ Hlit) as Hev.
  rewrite <- (clicked_kind gateId (AppState.gates s) (AppState.gates lit)).
  2:{ trans (AppState.gates once); [done|]. by apply evaluatedFrom_sameKind. }
  fold clicked.
  set (twice := if clicked then handleInputToggle gateId lit else lit).
  assert (AppState.wires twice = AppState.wires s) as Hwires2.
  { unfold twice. by destruct clicked. }
  assert (Forall2 evaluatedFrom (AppState.gates s) (AppState.gates twice)) as Hback.
  { unfold twice, once in *. destruct clicked; [|done].
    by apply toggle_evaluate_toggle. }
  destruct (first_rounds_agree customGates rank (AppState.wires s)
              (AppState.gates s) (AppState.gates twice))
    as (settled & ch1 & ch2 & Hfirst1 & Hfirst2 & Hsettled); [by destruct s|done|].
  exists (AppState.mk settled (AppState.wires s)).
  assert (logicSimulation customGates s
          = Return (AppState.mk settled (AppState.wires s))) as Hs.
  { exact (settled_result customGates s settled ch1 Hfirst1 Hsettled). }
  split; [done|]. split; [|split; [|split; [|split; [done|]]]].
  - exact (settled_result customGates lit result false Hfixed Hfixed).
  - rewrite <- Hwires2 in Hfirst2, Hsettled |- *.
    exact (settled_result customGates twice settled ch2 Hfirst2 Hsettled).
  - exact (settled_result customGates (AppState.mk settled (AppState.wires s))
             settled false Hsettled Hsettled).
  - rewrite Hs. by intros [= ->].
Qed.

Lemma click_twice_restores_canvas_witness :
  ∃ lit settled,
    logicSimulation Nand.library
      (handleGateClick false false false "INPUT-12" (Nand.canvas true false) []).1
    = Return lit
    ∧ Nand.lampValue lit = Some false
    ∧ logicSimulation Nand.library
        (handleGateClick false false false "INPUT-12" lit ["INPUT-12"]).1
      = Return settled
    ∧ Nand.lampValue settled = Some true
    ∧ logicSimulation Nand.library (Nand.canvas true false) = Return settled.
Proof.
  destruct (click_twice_restores_canvas Nand.library
              (λ id, if decide (id = "NAND-14") then 1
                     else if decide (id = "OUTPUT-13") then 2 else 0)
              false false false "INPUT-12" (Nand.canvas true false) [] ["INPUT-12"])
    as (lit & settled & Hlit & _ & Hsettled & _ & Hs & _).
  { split; [|split; [|split; [|split]]].
    - intros w Hw. vm_compute in Hw.
      repeat (apply elem_of_cons in Hw as [->|Hw]; [vm_compute; lia|]).
      by apply elem_of_nil in Hw.
    - unfold MAX_ITERATIONS. repeat constructor; vm_compute; lia.
    - by_evaluation.
    - repeat constructor; intros Hty; try discriminate.
      intros template [= <-]. by_evaluation.
    - intros g w fg Hg Hty Hw Hto Hfg Hfrom.
      vm_compute in Hg, Hw, Hfg.
      repeat (apply elem_of_cons in Hg as [->|Hg]); try (by apply elem_of_nil in Hg);
        try discriminate Hty;
        repeat (apply elem_of_cons in Hw as [->|Hw]); try (by apply elem_of_nil in Hw);
        try discriminate Hto;
        repeat (apply elem_of_cons in Hfg as [->|Hfg]);
        try (by apply elem_of_nil in Hfg);
        try discriminate Hfrom; reflexivity. }
  exists lit, settled. split; [done|].
  vm_compute in Hlit. injection Hlit as <-. split; [reflexivity|].
  split; [done|].
  vm_compute in Hs. injection Hs as <-. split; [reflexivity|].
  vm_compute. reflexivity.
Defined.

(** ** What the evaluation reads of the library *)

Lemma mapM_ext_Forall {A B} (f g : A → completion B) (l : list A) :
  Forall (λ x, f x = g x) l → mapM f l = mapM g l.
Proof.
  induction 1 as [|x l Hx _ IH]; [done|].
  by rewrite !mapM_completion_cons, Hx, IH.
Qed.

Section Library.

Variable lib1 lib2 : gmap string Template.t.

Lemma sameTemplate_kind a b :
  sameKind a b → sameTemplate lib1 lib2 a → sameTemplate lib1 lib2 b.
Proof.
  intros (_ & Hty & Hname) Ha Hb. unfold templateKey. rewrite <- Hname.
  apply Ha. by rewrite Hty.
Qed.

Lemma sameInside_kind a b :
  sameKind a b → sameInside lib1 lib2 a → sameInside lib1 lib2 b.
Proof.
  intros (_ & Hty & Hname) Ha Hb template. unfold templateKey. rewrite <- Hname.
  apply Ha. by rewrite Hty.
Qed.

Lemma Forall2_sameKind_sameTemplate gs gs' :
  Forall2 sameKind gs gs' →
  Forall (sameTemplate lib1 lib2) gs → Forall (sameTemplate lib1 lib2) gs'.
Proof.
  induction 1 as [|a b gs gs' Hab _ IH]; [done|].
  intros [Ha Hgs]%Forall_cons. constructor; [by eapply sameTemplate_kind|by apply IH].
Qed.

Lemma Forall2_sameKind_sameInside gs gs' :
  Forall2 sameKind gs gs' →
  Forall (sameInside lib1 lib2) gs → Forall (sameInside lib1 lib2) gs'.
Proof.
  induction 1 as [|a b gs gs' Hab _ IH]; [done|].
  intros [Ha Hgs]%Forall_cons. constructor; [by eapply sameInside_kind|by apply IH].
Qed.

Lemma numInputsOf_library g :
  sameTemplate lib1 lib2 g → numInputsOf lib1 g = numInputsOf lib2 g.
Proof.
  intros Hg. unfold numInputsOf.
  destruct (decide (Gate.type g = CUSTOM)) as [Hty|Hty].
  - by rewrite (Hg Hty).
  - by destruct (Gate.type g).
Qed.

Lemma stepGate_library wires ref g :
  sameTemplate lib1 lib2 g → stepGate lib1 ref wires g = stepGate lib2 ref wires g.
Proof.
  intros Hg. unfold stepGate. by rewrite (numInputsOf_library g Hg).
Qed.

Lemma simulationPass_library wires gs :
  Forall (sameTemplate lib1 lib2) gs →
  simulationPass lib1 wires gs = simulationPass lib2 wires gs.
Proof.
  intros Hgs. unfold simulationPass.
  rewrite (mapM_ext_Forall (stepGate lib1 gs wires) (stepGate lib2 gs wires)); [done|].
  eapply Forall_impl; [exact Hgs|]. intros g Hg. by apply stepGate_library.
Qed.

Lemma simulationLoop_library remaining iterations wires gs :
  Forall (sameTemplate lib1 lib2) gs →
  simulationLoop lib1 remaining iterations wires gs
  = simulationLoop lib2 remaining iterations wires gs.
Proof.
  revert iterations gs. induction remaining as [|remaining IH];
    intros iterations gs Hgs; [done|]. simpl.
  rewrite <- (simulationPass_library wires gs Hgs).
  destruct (simulationPass lib1 wires gs) as [[next ch]|e] eqn:Hpass; [|done].
  destruct ch; [|done]. apply IH.
  eapply Forall2_sameKind_sameTemplate; [|exact Hgs].
  apply Forall2_sameShape_sameKind. by eapply simulationPass_shape.
Qed.

Lemma runSimulation_library wires gs :
  Forall (sameTemplate lib1 lib2) gs →
  runSimulation lib1 gs wires = runSimulation lib2 gs wires.
Proof.
  intros Hgs. unfold runSimulation, runSimulationCounted.
  by rewrite simulationLoop_library.
Qed.

Lemma expandGate_library wires ref g :
  sameTemplate lib1 lib2 g → sameInside lib1 lib2 g →
  expandGate lib1 ref wires g = expandGate lib2 ref wires g.
Proof.
  intros Hg Hinside.
  destruct (decide (Gate.type g = CUSTOM)) as [Hty|Hty];
    [|by rewrite !expandGate_primitive].
  destruct (lib1 !! templateKey g) as [template|] eqn:Hdef.
  - rewrite (expandGate_template lib1 _ _ _ template) by done.
    rewrite (expandGate_template lib2 _ _ _ template)
      by (first [done|by rewrite <- (Hg Hty)]).
    simpl. rewrite runSimulation_library; [done|].
    eapply Forall2_sameKind_sameTemplate; [apply innerGates_kind|].
    by apply (Hinside Hty).
  - assert (lib2 !! templateKey g = None) as Hdef2 by (by rewrite <- (Hg Hty)).
    destruct (inherited (templateKey g)) eqn:Hproto.
    + by rewrite !expandGate_inherited.
    + by rewrite !expandGate_missing.
Qed.

Lemma expandSweep_library wires gs :
  Forall (sameTemplate lib1 lib2) gs → Forall (sameInside lib1 lib2) gs →
  expandSweep lib1 wires gs = expandSweep lib2 wires gs.
Proof.
  intros Hgs Hinside. unfold expandSweep.
  rewrite (mapM_ext_Forall (expandGate lib1 gs wires) (expandGate lib2 gs wires));
    [done|].
  apply Forall_forall. intros g Hg. rewrite Forall_forall in Hgs, Hinside.
  apply expandGate_library; auto.
Qed.

Lemma mainRound_library wires gs :
  Forall (sameTemplate lib1 lib2) gs → Forall (sameInside lib1 lib2) gs →
  mainRound lib1 wires gs = mainRound lib2 wires gs.
Proof.
  intros Hgs Hinside. unfold mainRound.
  rewrite <- (expandSweep_library wires gs Hgs Hinside).
  destruct (expandSweep lib1 wires gs) as [[swept ch]|e] eqn:Hsweep; [|done].
  rewrite runSimulation_library; [done|].
  eapply Forall2_sameKind_sameTemplate; [|exact Hgs]. by eapply expandSweep_kind.
Qed.

Lemma mainLoop_library remaining mainIterations wires gs :
  Forall (sameTemplate lib1 lib2) gs → Forall (sameInside lib1 lib2) gs →
  mainLoop lib1 remaining mainIterations wires gs
  = mainLoop lib2 remaining mainIterations wires gs.
Proof.
  revert mainIterations gs. induction remaining as [|remaining IH];
    intros mainIterations gs Hgs Hinside; [done|]. simpl.
  rewrite <- (mainRound_library wires gs Hgs Hinside).
  destruct (mainRound lib1 wires gs) as [[next ch]|e] eqn:Hround; [|done].
  destruct ch; [|done].
  pose proof (mainRound_kind _ _ _ _ _ Hround) as Hkind.
  apply IH.
  - by eapply Forall2_sameKind_sameTemplate.
  - by eapply Forall2_sameKind_sameInside.
Qed.

Lemma logicSimulation_library s :
  Forall (sameTemplate lib1 lib2) (AppState.gates s) →
  Forall (sameInside lib1 lib2) (AppState.gates s) →
  logicSimulation lib1 s = logicSimulation lib2 s.
Proof.
  intros Hgs Hinside. unfold logicSimulation, logicSimulationCounted.
  by rewrite mainLoop_library.
Qed.

End Library.

Lemma independent_library lib1 lib2 name s :
  (∀ key, key ≠ name → lib1 !! key = lib2 !! key) →
  ¬ dependsOn lib1 name (AppState.gates s) →
  logicSimulation lib1 s = logicSimulation lib2 s.
Proof.
  intros Hother Hindependent. apply logicSimulation_library.
  - apply Forall_forall. intros g Hg Hty. apply Hother. intros Hkey.
    apply Hindependent. left. apply Exists_exists. by exists g.
  - apply Forall_forall. intros g Hg Hty template Hdef.
    apply Forall_forall. intros inner Hinner Hcustom. apply Hother. intros Hkey.
    apply Hindependent. right. apply Exists_exists. exists g. split; [done|].
    split; [done|]. rewrite Hdef. apply Exists_exists. by exists inner.
Qed.

(** X21.  The evaluation reads the library only at the templates the
    canvas depends on.  Deleting a template of which neither the canvas
    nor the templates of its composite gates hold an instance, or saving a
    selection under such a name, leaves the outcome of the evaluation as
    it was, be it a state or an exception. *)
Theorem unused_template_plays_no_part customGates name s :
  ¬ dependsOn customGates name (AppState.gates s) →
  logicSimulation (handleDeleteCustomGate name customGates) s
  = logicSimulation customGates s
  ∧ ∀ selectedGateIds drawing,
      logicSimulation (saveCustomGate name selectedGateIds drawing customGates) s
      = logicSimulation customGates s.
Proof.
  intros Hindependent. split.
  - symmetry. apply (independent_library _ _ name); [|done].
    intros key Hkey. unfold handleDeleteCustomGate. by rewrite lookup_delete_ne.
  - intros selectedGateIds drawing. symmetry.
    apply (independent_library _ _ name); [|done].
    intros key Hkey. unfold saveCustomGate.
    destruct (handleSaveCustomGate _ _ _); [|done]. by rewrite lookup_insert_ne.
Qed.

Lemma unused_template_plays_no_part_witness :
  logicSimulation (handleDeleteCustomGate "BUF" (Nand.library ∪ Stale.library))
    (Nand.canvas true false)
  = logicSimulation (Nand.library ∪ Stale.library) (Nand.canvas true false)
  ∧ ∀ selectedGateIds drawing,
      logicSimulation
        (saveCustomGate "BUF" selectedGateIds drawing (Nand.library ∪ Stale.library))
        (Nand.canvas true false)
      = logicSimulation (Nand.library ∪ Stale.library) (Nand.canvas true false).
Proof.
  apply (unused_template_plays_no_part (Nand.library ∪ Stale.library) "BUF"
           (Nand.canvas true false)).
  by_evaluation.
Defined.

(** ** From a selection to an evaluated instance *)

Lemma saved_template_resolvable customGates name selectedGateIds drawing template :
  handleSaveCustomGate name selectedGateIds drawing = Some template →
  Forall (resolvable customGates)
    (filter (λ g, Gate.id g ∈ selectedGateIds) (AppState.gates drawing)) →
  Forall (resolvable customGates) (Template.gates template).
Proof.
  intros Hsave Hselection.
  destruct (handleSaveCustomGate_Some _ _ _ _ Hsave)
    as (relocate & Hkind & -> & _).
  rewrite Forall_forall in Hselection.
  apply Forall_fmap, Forall_forall. intros g Hg. simpl.
  apply (resolvable_kind customGates g); [apply Hkind|].
  apply Hselection.
  by apply elem_of_app in Hg as [Hg|Hg]; apply list_elem_of_filter in Hg as [_ Hg].
Qed.

(** X22.  A selection that has just been saved as a composite gate can
    be placed and evaluated.  When the gates of the selection and of the
    canvas name only templates of the library as it is after saving, the
    evaluation of the canvas with a new instance on it returns, and the
    instance is the last gate of the evaluated canvas. *)
Theorem saved_composite_evaluates customGates name selectedGateIds drawing template
    id s :
  handleSaveCustomGate name selectedGateIds drawing = Some template →
  let library := saveCustomGate name selectedGateIds drawing customGates in
  Forall (resolvable library)
    (filter (λ g, Gate.id g ∈ selectedGateIds) (AppState.gates drawing)) →
  Forall (resolvable library) (AppState.gates s) →
  Forall (expandable library) (AppState.gates s) →
  ∃ s' instance,
    logicSimulation library (handleAddCustomGate library name id s) = Return s'
    ∧ last (AppState.gates s') = Some instance
    ∧ Gate.id instance = id ∧ Gate.type instance = CUSTOM
    ∧ library !! templateKey instance = Some template
    ∧ length (AppState.gates s') = S (length (AppState.gates s)).
Proof.
  intros Hsave library Hselection Hres Hexp.
  assert (library = <[name := template]> customGates) as Hlibrary.
  { unfold library, saveCustomGate. by rewrite Hsave. }
  assert (library !! name = Some template) as Hdef.
  { rewrite Hlibrary. apply lookup_insert_eq. }
  unfold handleAddCustomGate. rewrite Hdef.
  set (instance := Gate.mk id CUSTOM (250, 150)%Z false (Some name) (Some name)
                     (Some (replicate (length (Template.inputs template)) false))
                     (Some (replicate (length (Template.outputs template)) false))).
  destruct (logicSimulation_total library
              (AppState.mk (AppState.gates s ++ [instance])%list (AppState.wires s)))
    as (result & n & Hloop & _ & Hkind).
  { simpl. apply Forall_app. split; [done|]. apply Forall_singleton.
    intros _. by exists template. }
  { simpl. apply Forall_app. split; [done|]. apply Forall_singleton.
    intros _ template'. change (templateKey instance) with name. rewrite Hdef.
    intros [= <-]. by eapply saved_template_resolvable. }
  simpl in Hkind.
  apply Forall2_app_inv_l in Hkind as (front & back & Hfront & Hback & ->).
  apply Forall2_cons_inv_l in Hback as (evaluated & nothing & Hsame & Hnil & ->).
  apply Forall2_nil_inv_l in Hnil as ->.
  exists (AppState.mk (front ++ [evaluated])%list (AppState.wires s)), evaluated.
  split; [|split; [|split; [|split; [|split]]]].
  - unfold logicSimulation. by rewrite Hloop.
  - simpl. apply last_snoc.
  - by destruct Hsame as (<- & _).
  - by destruct Hsame as (_ & <- & _).
  - destruct Hsame as (_ & _ & Hname). unfold templateKey. by rewrite <- Hname.
  - simpl. rewrite length_app. simpl.
    rewrite <- (Forall2_length _ _ _ Hfront). lia.
Qed.

Lemma saved_composite_evaluates_witness :
  let library := saveCustomGate "NAND" Nand.selection Nand.drawing ∅ in
  ∃ s' instance,
    logicSimulation library (handleAddCustomGate library "NAND" "NAND-14" Nand.drawing)
      = Return s'
    ∧ last (AppState.gates s') = Some instance
    ∧ Gate.id instance = "NAND-14" ∧ Gate.type instance = CUSTOM
    ∧ library !! templateKey instance = Some Nand.template
    ∧ length (AppState.gates s') = S (length (AppState.gates Nand.drawing)).
Proof.
  apply (saved_composite_evaluates ∅ "NAND" Nand.selection Nand.drawing Nand.template
           "NAND-14" Nand.drawing).
  - vm_compute. reflexivity.
  - by_evaluation.
  - by_evaluation.
  - repeat constructor; intros Hty; discriminate Hty.
Defined.
